(** * libbitcoin-database: a shallow embedding of the storage engine

    The development follows the layering of the sources:

    - [mmfile]                 src/database/mmfile.cpp
    - [serial]                 the byte (de)serializer the databases read and
                               write their slabs with
    - [slab_hash_table]        impl/slab_hash_table.ipp
    - [record_hash_table]      impl/record_hash_table.ipp, impl/record_row.ipp
    - [transaction_database]   databases/transaction_database.cpp and
                               result/transaction_result.cpp
    - [history_database]       databases/history_database.cpp
    - [data_base]              data_base.cpp

    Unsigned machine integers are values of [N]; every place where the C++
    arithmetic is done at a fixed width has the reduction written out. *)

From Stdlib Require Import NArith Lia List Bool.
From Stdlib Require Import Init.Byte.
From stdpp Require Import base option list numbers gmap.

Local Open Scope N_scope.

(** ** Machine integer limits *)

Definition max_uint16 : N := 2 ^ 16 - 1.
Definition max_uint32 : N := 2 ^ 32 - 1.
Definition max_uint64 : N := 2 ^ 64 - 1.
Definition max_size_t : N := max_uint64.

(** [static_cast<size_t>], [static_cast<uint32_t>], ... of an unsigned value. *)
Definition to_size_t (n : N) : N := n mod 2 ^ 64.
Definition to_uint32 (n : N) : N := n mod 2 ^ 32.
Definition to_uint16 (n : N) : N := n mod 2 ^ 16.
Definition to_uint8 (n : N) : N := n mod 2 ^ 8.

(** ** The memory mapped file (mmfile.cpp) *)

Module mmfile.

(** The object state: [data_] is the base address of the mapping
    ([None] is [nullptr]), [size_] the mapped size.  [file_length] is the
    length of the underlying file as the operating system has it; it is what
    [ftruncate] changes. *)
Record t := mk {
  file_handle_ : N;
  data_ : option N;
  size_ : N;
  file_length : N
}.

(** What the operating system answers.  [mmap] and [mremap] give the new
    base address, or [None] for [MAP_FAILED]. *)
Record os := {
  ftruncate_ok : N -> N -> bool;
  munmap_ok : option N -> N -> bool;
  mmap_at : N -> N -> option N;
  mremap_at : option N -> N -> N -> option N;
  MREMAP_MAYMOVE : bool
}.

Section calls.
Variable sys : os.

Definition data (m : t) : option N := data_ m.
Definition size (m : t) : N := size_ m.

(** [validate(size)] after [data_] received the result of the mapping call:
    [r = None] is [data_ == MAP_FAILED]. *)
Definition validate (r : option N) (sz : N) (m : t) : bool * t :=
  match r with
  | None => (false, mk (file_handle_ m) None 0 (file_length m))
  | Some a => (true, mk (file_handle_ m) (Some a) sz (file_length m))
  end.

Definition map (sz : N) (m : t) : bool * t :=
  if sz =? 0 then (false, m)
  else validate (mmap_at sys (file_handle_ m) sz) sz m.

Definition remap (new_size : N) (m : t) : bool * t :=
  validate (mremap_at sys (data_ m) (size_ m) new_size) new_size m.

Definition unmap (m : t) : bool * t :=
  let success := munmap_ok sys (data_ m) (size_ m) in
  (success, mk (file_handle_ m) None 0 (file_length m)).

Definition resize (new_size : N) (m : t) : bool * t :=
  (* Resize underlying file. *)
  if negb (ftruncate_ok sys (file_handle_ m) new_size) then (false, m)
  else
    let m1 := mk (file_handle_ m) (data_ m) (size_ m) new_size in
    (* Readjust memory map. *)
    if MREMAP_MAYMOVE sys then remap new_size m1
    else
      let '(unmapped, m2) := unmap m1 in
      if unmapped then map new_size m2 else (false, m2).

(** Grow file by 1.5x or keep it the same.  [size * 3 / 2] is [size_t]
    arithmetic: the product wraps at 2^64 and the division truncates. *)
Definition reserve (sz : N) (m : t) : bool * t :=
  if sz <=? size_ m then (true, m)
  else
    let new_size := to_size_t (sz * 3) / 2 in
    resize new_size m.

End calls.

(** The growth target in the words of the specification, ceil(n * 3 / 2). *)
Definition spec_ceil_three_halves (n : N) : N := (n * 3 + 1) / 2.

(** An operating system on which every call succeeds, and a two byte file
    mapped at address 4096. *)
Definition sys_ok : os :=
  {| ftruncate_ok := fun _ _ => true;
     munmap_ok := fun _ _ => true;
     mmap_at := fun _ _ => Some 4096;
     mremap_at := fun _ _ _ => Some 4096;
     MREMAP_MAYMOVE := true |}.

Definition two_bytes : t := mk 3 (Some 4096) 2 2.

End mmfile.

(** ** Keys and rows of the hash tables *)

(** [file_offset] is a 64 bit position in a slab file, [array_index] a 32 bit
    record number.  A key is a fixed width byte array ([KeyType]). *)
Definition file_offset := N.
Definition array_index := N.
Definition key_type := list byte.

#[global] Instance byte_eq_dec : EqDecision byte.
Proof.
  intros a b.
  destruct (N.eq_dec (Byte.to_N a) (Byte.to_N b)) as [Heq | Hne].
  - left. apply (f_equal Byte.of_N) in Heq.
    rewrite !Byte.of_to_N in Heq. congruence.
  - right. congruence.
Defined.

(** The key read as a little-endian unsigned integer. *)
Fixpoint from_little_endian (bytes : list byte) : N :=
  match bytes with
  | [] => 0
  | b :: rest => Byte.to_N b + 256 * from_little_endian rest
  end.

(** Modelled from the spec: impl/remainder.ipp is not among the sources.
    "bucket(key) = key mod buckets, where key is interpreted as a
    little-endian unsigned integer". *)
Definition remainder (key : key_type) (divisor : N) : N :=
  from_little_endian key mod divisor.

(** A collision list node, [ key | next | value ].  The memory of a manager is
    kept at the granularity of rows: a finite map from the position of a row
    (slab offset or record index) to its three fields.  Reading at a position
    that holds no row has no defined result ([None]). *)
Record row := mk_row {
  row_key : key_type;
  row_next : N;
  row_value : list byte
}.

Definition compare (item : row) (key : key_type) : bool :=
  bool_decide (row_key item = key).

(** ** The slab hash table (slab_hash_table.ipp) *)

Module slab_hash_table.

(** Modelled from the spec: slab_manager is not among the sources.  "Slab
    manager: byte-granular; new_slab(bytes) returns a file offset"; it hands
    out consecutive regions and keeps the high-water mark [payload_size].
    The mapped file is taken to be large enough. *)
Record slab_manager := mk_manager {
  payload_size : file_offset;
  slabs : gmap N row
}.

Definition new_slab (size : N) (m : slab_manager) : file_offset * slab_manager :=
  (payload_size m, mk_manager (payload_size m + size) (slabs m)).

(** [header_] is the bucket array (slab_hash_table_header), [header_.size()]
    its length.  Modelled from the spec: "the empty sentinel is 0 for slab
    tables". *)
Record t := mk {
  header_ : list file_offset;
  manager_ : slab_manager;
  key_size : N
}.

Definition empty : file_offset := 0.
Definition not_found : file_offset := 0.

(** [slab_row<KeyType>::prefix_size], the key and the 8 byte next offset. *)
Definition prefix_size (table : t) : N := key_size table + 8.

(** *** slab_row (modelled from the spec on the pattern of record_row.ipp:
    "Slab row: [ key | next_offset:8 | payload_bytes ]") *)

Definition slab_row (table : t) (position : file_offset) : option row :=
  slabs (manager_ table) !! position.

Definition put_row (position : file_offset) (item : row) (table : t) : t :=
  mk (header_ table)
     (mk_manager (payload_size (manager_ table))
                 (<[position := item]> (slabs (manager_ table))))
     (key_size table).

(** [slab.create(key, write, value_size)]: allocate, then write the key and
    let [write] fill the value; the next field is written by [link]. *)
Definition create (key : key_type) (value : list byte) (value_size : N)
    (table : t) : file_offset * t :=
  let '(position, manager) :=
    new_slab (prefix_size table + value_size) (manager_ table) in
  (position,
   put_row position (mk_row key 0 value)
     (mk (header_ table) manager (key_size table))).

Definition write_next_position (position next : file_offset) (table : t)
    : option t :=
  item ← slab_row table position;
  Some (put_row position (mk_row (row_key item) next (row_value item)) table).

(** [slab.link(next)] *)
Definition row_link (position next : file_offset) (table : t) : option t :=
  write_next_position position next table.

(** [item.data()], the address of the value. *)
Definition data (table : t) (position : file_offset) : file_offset :=
  position + prefix_size table.

(** Dereferencing a value address. *)
Definition value_at (table : t) (address : file_offset) : option (list byte) :=
  if address <? prefix_size table then None
  else row_value <$> slab_row table (address - prefix_size table).

(** *** The table *)

Definition bucket_index (table : t) (key : key_type) : N :=
  remainder key (N.of_nat (length (header_ table))).

Definition read_bucket_value (table : t) (key : key_type)
    : option file_offset :=
  header_ table !! N.to_nat (bucket_index table key).

Definition link (key : key_type) (begin : file_offset) (table : t) : t :=
  mk (<[N.to_nat (bucket_index table key) := begin]> (header_ table))
     (manager_ table) (key_size table).

Definition store (key : key_type) (value : list byte) (value_size : N)
    (table : t) : option (file_offset * t) :=
  (* Allocate and populate new unlinked slab. *)
  let '(position, table1) := create key value value_size table in
  (* Link new slab.next to current first slab. *)
  first ← read_bucket_value table1 key;
  table2 ← row_link position first table1;
  (* Link header to new slab as the new first. *)
  let table3 := link key position table2 in
  (* Return the file offset of the slab data segment. *)
  Some (position + prefix_size table, table3).

(** The [while (current != header_.empty)] loop of [find]; [fuel] bounds the
    number of rows visited, [None] is the loop not finishing within it (or a
    read outside the rows), [Some None] is [nullptr]. *)
Fixpoint find_loop (fuel : nat) (table : t) (key : key_type)
    (current : file_offset) : option (option file_offset) :=
  if current =? empty then Some None
  else
    match fuel with
    | O => None
    | S fuel' =>
        item ← slab_row table current;
        (* Found. *)
        if compare item key then Some (Some (data table current))
        else find_loop fuel' table key (row_next item)
    end.

Definition find (fuel : nat) (table : t) (key : key_type)
    : option (option file_offset) :=
  (* Find start item... *)
  current ← read_bucket_value table key;
  (* Iterate through list... *)
  find_loop fuel table key current.

(** [unlink(item, previous)] *)
Definition unlink_item (item : row) (previous : file_offset) (table : t)
    : option t :=
  write_next_position previous (row_next item) table.

Fixpoint unlink_loop (fuel : nat) (table : t) (key : key_type)
    (previous current : file_offset) : option (bool * t) :=
  if current =? empty then Some (false, table)
  else
    match fuel with
    | O => None
    | S fuel' =>
        item ← slab_row table current;
        (* Found, unlink current item from previous. *)
        if compare item key then
          table' ← unlink_item item previous table; Some (true, table')
        else unlink_loop fuel' table key current (row_next item)
    end.

Definition unlink (fuel : nat) (key : key_type) (table : t)
    : option (bool * t) :=
  (* Find start item... *)
  begin ← read_bucket_value table key;
  begin_item ← slab_row table begin;
  (* If start item has the key then unlink from buckets. *)
  if compare begin_item key then
    Some (true, link key (row_next begin_item) table)
  else
    (* Continue on... *)
    unlink_loop fuel table key begin (row_next begin_item).

(** The bucket chain of [key] followed through the next offsets, at most
    [fuel] rows of it: the list traversal of the duplicates. *)
Fixpoint chain_from (fuel : nat) (table : t) (current : file_offset)
    : list (file_offset * row) :=
  if current =? empty then []
  else
    match fuel with
    | O => []
    | S fuel' =>
        match slab_row table current with
        | None => []
        | Some item =>
            (current, item) :: chain_from fuel' table (row_next item)
        end
    end.

Definition chain (fuel : nat) (table : t) (key : key_type)
    : list (file_offset * row) :=
  match read_bucket_value table key with
  | None => []
  | Some current => chain_from fuel table current
  end.

(** The values stored under [key], in the order the traversal meets them. *)
Definition values_of (key : key_type) (rows : list (file_offset * row))
    : list (list byte) :=
  row_value <$> filter (fun item => row_key item = key) (snd <$> rows).

(** A table as [create] leaves it: every bucket empty, no slab, and the
    high-water mark after the 8 bytes that hold it. *)
Definition created (buckets : nat) (key_bytes : N) : t :=
  mk (replicate buckets empty) (mk_manager 8 ∅) key_bytes.

(** The invariant of the tables [store] builds: there is a bucket, offset 0
    is never handed out, rows lie below the high-water mark, and bucket
    heads and next offsets are empty or lead to a row. *)
Definition linked (table : t) (position : file_offset) : Prop :=
  position = empty \/ is_Some (slab_row table position).

Record wf (table : t) : Prop := {
  wf_buckets : header_ table <> [];
  wf_payload : 0 < payload_size (manager_ table);
  wf_below : forall position item,
    slab_row table position = Some item ->
    position < payload_size (manager_ table);
  wf_heads : forall i head, header_ table !! i = Some head -> linked table head;
  wf_nexts : forall position item,
    slab_row table position = Some item -> linked table (row_next item)
}.

(** The table [store] produces, written out: the new row sits at the old
    high-water mark, points to the old bucket head, and is the new head. *)
Definition stored (table : t) (key : key_type) (value : list byte)
  (value_size : N) (first : file_offset) : t :=
  mk (<[N.to_nat (bucket_index table key) := payload_size (manager_ table)]>
        (header_ table))
     (mk_manager (payload_size (manager_ table)
                  + (prefix_size table + value_size))
                 (<[payload_size (manager_ table) := mk_row key first value]>
                    (slabs (manager_ table))))
     (key_size table).

(** The table [unlink] leaves behind after a [store] of the same key: the
    bucket points to the old head again, the unlinked row stays in the
    file. *)
Definition unlinked (table : t) (key : key_type) (value : list byte)
  (value_size : N) (first : file_offset) : t :=
  mk (header_ table)
     (manager_ (stored table key value value_size first))
     (key_size table).

(** Two tables with the same rows at every position the first one links. *)
Definition extends (table table' : t) : Prop :=
  key_size table' = key_size table /\
  forall position item,
    slab_row table position = Some item ->
    slab_row table' position = Some item.

(** A run of [store] calls, first entry first. *)
Fixpoint store_all (entries : list (key_type * list byte * N)) (table : t)
    : option t :=
  match entries with
  | [] => Some table
  | (key, value, value_size) :: rest =>
      '(_, table') ← store key value value_size table;
      store_all rest table'
  end.

(** [item.offset()], the file offset of the value.  Modelled from the spec:
    slab_row.ipp is not among the sources; "returns the file offset of the
    payload", on the pattern of [record_row::offset]. *)
Definition offset (table : t) (position : file_offset) : file_offset :=
  position + prefix_size table.

(** The [while (current != header_.empty)] loop of [update]: execute a
    writer against a key's buffer if the key is found.  [write] is what the
    writer makes of the bytes of the value. *)
Fixpoint update_loop (fuel : nat) (table : t) (key : key_type)
    (write : list byte -> list byte) (current : file_offset)
    : option (file_offset * t) :=
  if current =? empty then Some (not_found, table)
  else
    match fuel with
    | O => None
    | S fuel' =>
        item ← slab_row table current;
        (* Found. *)
        if compare item key then
          Some (offset table current,
                put_row current
                  (mk_row (row_key item) (row_next item)
                     (write (row_value item)))
                  table)
        else update_loop fuel' table key write (row_next item)
    end.

(** Return the file offset of the found value (or zero). *)
Definition update (fuel : nat) (key : key_type)
    (write : list byte -> list byte) (table : t) : option (file_offset * t) :=
  (* Find start item... *)
  current ← read_bucket_value table key;
  (* Iterate through list... *)
  update_loop fuel table key write current.

(** The list that starts at [current] ends within [fuel] rows. *)
Fixpoint ends_from (fuel : nat) (table : t) (current : file_offset) : bool :=
  if current =? empty then true
  else
    match fuel with
    | O => false
    | S fuel' =>
        match slab_row table current with
        | None => false
        | Some item => ends_from fuel' table (row_next item)
        end
    end.

Definition ends (fuel : nat) (table : t) (key : key_type) : bool :=
  match read_bucket_value table key with
  | None => false
  | Some current => ends_from fuel table current
  end.

(** The first row of a traversal that [compare]s equal to [key]. *)
Definition first_match (key : key_type) (rows : list (file_offset * row))
    : option (file_offset * row) :=
  List.find (fun entry => compare (snd entry) key) rows.

(** A traversal with its first row under [key] taken out. *)
Fixpoint without_first (key : key_type) (rows : list (file_offset * row))
    : list (file_offset * row) :=
  match rows with
  | [] => []
  | entry :: rest =>
      if compare (snd entry) key then rest
      else entry :: without_first key rest
  end.

(** What a row holds apart from its link: where it is, its key and its
    value. *)
Definition content (entry : file_offset * row)
    : file_offset * key_type * list byte :=
  (fst entry, row_key (snd entry), row_value (snd entry)).

(** The value a map holds under [key] once [entries] were put into it in
    order, [before] being what it held at the start. *)
Definition latest (key : key_type) (entries : list (key_type * list byte * N))
    (before : option (list byte)) : option (list byte) :=
  foldl (fun held entry =>
           if bool_decide (entry.1.1 = key) then Some entry.1.2 else held)
        before entries.

(** The values put under [key], first put first. *)
Definition values_put (key : key_type)
    (entries : list (key_type * list byte * N)) : list (list byte) :=
  (fun entry => entry.1.2) <$> filter (fun entry => entry.1.1 = key) entries.

End slab_hash_table.

(** ** The record hash table (record_hash_table.ipp, record_row.ipp) *)

Module record_hash_table.

(** Modelled from the spec: record_manager is not among the sources.
    "new_records(n) atomically reserves n consecutive records and returns the
    first record index"; [record_count] is the number of records handed out.
    The mapped file is taken to be large enough. *)
Record record_manager := mk_manager {
  record_count : array_index;
  records : gmap N row
}.

Definition new_records (count : N) (m : record_manager)
    : array_index * record_manager :=
  (record_count m, mk_manager (record_count m + count) (records m)).

(** [header_] is the bucket array (record_hash_table_header), [header_.size()]
    its length.  Modelled from the spec: the empty sentinel is "max_uint32
    for record tables". *)
Record t := mk {
  header_ : list array_index;
  manager_ : record_manager;
  key_size : N
}.

Definition empty : array_index := max_uint32.

(** Valid block indexes must not reach max_uint32. *)
Definition not_found : array_index := max_uint32.

(** [record_row<KeyType>::prefix_size], the key and the 4 byte next index. *)
Definition index_size : N := 4.
Definition prefix_size (table : t) : N := key_size table + index_size.

(** *** record_row.ipp *)

(** The row [record_row(manager_, index)] designates. *)
Definition record_row (table : t) (index : array_index) : option row :=
  records (manager_ table) !! index.

Definition put_row (index : array_index) (item : row) (table : t) : t :=
  mk (header_ table)
     (mk_manager (record_count (manager_ table))
                 (<[index := item]> (records (manager_ table))))
     (key_size table).

(** [record.create(key, write)]: create new record and populate its key and
    data; [serial.skip(index_size)] leaves the next field to [link]. *)
Definition create (key : key_type) (value : list byte) (table : t)
    : array_index * t :=
  let '(index, manager) := new_records 1 (manager_ table) in
  (index,
   put_row index (mk_row key 0 value)
     (mk (header_ table) manager (key_size table))).

Definition write_next_index (index next : array_index) (table : t)
    : option t :=
  item ← record_row table index;
  Some (put_row index (mk_row (row_key item) next (row_value item)) table).

(** [record.link(next)]: populate next pointer value. *)
Definition row_link (index next : array_index) (table : t) : option t :=
  write_next_index index next table.

(** [item.data()] points at the value of the record; the pointer is
    represented by the index of that record. *)
Definition data (table : t) (index : array_index) : array_index := index.

(** [item.offset()] *)
Definition offset (table : t) (index : array_index) : N :=
  index + prefix_size table.

(** Dereferencing a value pointer. *)
Definition value_at (table : t) (pointer : array_index) : option (list byte) :=
  row_value <$> record_row table pointer.

(** *** The table *)

Definition bucket_index (table : t) (key : key_type) : N :=
  remainder key (N.of_nat (length (header_ table))).

Definition read_bucket_value (table : t) (key : key_type)
    : option array_index :=
  header_ table !! N.to_nat (bucket_index table key).

Definition link (key : key_type) (begin : array_index) (table : t) : t :=
  mk (<[N.to_nat (bucket_index table key) := begin]> (header_ table))
     (manager_ table) (key_size table).

Definition store (key : key_type) (value : list byte) (table : t)
    : option (array_index * t) :=
  (* Allocate and populate new unlinked record. *)
  let '(index, table1) := create key value table in
  (* Link new record.next to current first record. *)
  first ← read_bucket_value table1 key;
  table2 ← row_link index first table1;
  (* Link header to new record as the new first. *)
  let table3 := link key index table2 in
  (* Return the array index of the new record (starts at key, not value). *)
  Some (index, table3).

(** The [while (current != header_.empty)] loop of [find]; [fuel] bounds the
    number of rows visited, [None] is the loop not finishing within it (or a
    read outside the records), [Some None] is [nullptr]. *)
Fixpoint find_loop (fuel : nat) (table : t) (key : key_type)
    (current : array_index) : option (option array_index) :=
  if current =? empty then Some None
  else
    match fuel with
    | O => None
    | S fuel' =>
        item ← record_row table current;
        (* Found, return data. *)
        if compare item key then Some (Some (data table current))
        else find_loop fuel' table key (row_next item)
    end.

Definition find (fuel : nat) (table : t) (key : key_type)
    : option (option array_index) :=
  (* Find start item... *)
  current ← read_bucket_value table key;
  (* Iterate through list... *)
  find_loop fuel table key current.

(** [unlink(item, previous)] *)
Definition unlink_item (item : row) (previous : array_index) (table : t)
    : option t :=
  write_next_index previous (row_next item) table.

Fixpoint unlink_loop (fuel : nat) (table : t) (key : key_type)
    (previous current : array_index) : option (bool * t) :=
  if current =? empty then Some (false, table)
  else
    match fuel with
    | O => None
    | S fuel' =>
        item ← record_row table current;
        (* Found, unlink current item from previous. *)
        if compare item key then
          table' ← unlink_item item previous table; Some (true, table')
        else unlink_loop fuel' table key current (row_next item)
    end.

Definition unlink (fuel : nat) (key : key_type) (table : t)
    : option (bool * t) :=
  (* Find start item... *)
  begin ← read_bucket_value table key;
  begin_item ← record_row table begin;
  (* If start item has the key then unlink from buckets. *)
  if compare begin_item key then
    Some (true, link key (row_next begin_item) table)
  else
    (* Continue on... *)
    unlink_loop fuel table key begin (row_next begin_item).

(** The bucket chain of [key] followed through the next indexes, at most
    [fuel] rows of it. *)
Fixpoint chain_from (fuel : nat) (table : t) (current : array_index)
    : list (array_index * row) :=
  if current =? empty then []
  else
    match fuel with
    | O => []
    | S fuel' =>
        match record_row table current with
        | None => []
        | Some item =>
            (current, item) :: chain_from fuel' table (row_next item)
        end
    end.

Definition chain (fuel : nat) (table : t) (key : key_type)
    : list (array_index * row) :=
  match read_bucket_value table key with
  | None => []
  | Some current => chain_from fuel table current
  end.

Definition values_of (key : key_type) (rows : list (array_index * row))
    : list (list byte) :=
  row_value <$> filter (fun item => row_key item = key) (snd <$> rows).

(** A table as [create] leaves it: every bucket empty and no record. *)
Definition created (buckets : nat) (key_bytes : N) : t :=
  mk (replicate buckets empty) (mk_manager 0 ∅) key_bytes.

(** The invariant of the tables [store] builds: there is a bucket, the next
    index to hand out is not the sentinel, records lie below the record
    count, and bucket heads and next indexes are empty or lead to a
    record. *)
Definition linked (table : t) (index : array_index) : Prop :=
  index = empty \/ is_Some (record_row table index).

Record wf (table : t) : Prop := {
  wf_buckets : header_ table <> [];
  wf_count : record_count (manager_ table) < max_uint32;
  wf_below : forall index item,
    record_row table index = Some item ->
    index < record_count (manager_ table);
  wf_heads : forall i head, header_ table !! i = Some head -> linked table head;
  wf_nexts : forall index item,
    record_row table index = Some item -> linked table (row_next item)
}.

(** The table [store] produces, written out. *)
Definition stored (table : t) (key : key_type) (value : list byte)
  (first : array_index) : t :=
  mk (<[N.to_nat (bucket_index table key) := record_count (manager_ table)]>
        (header_ table))
     (mk_manager (record_count (manager_ table) + 1)
                 (<[record_count (manager_ table) := mk_row key first value]>
                    (records (manager_ table))))
     (key_size table).

(** The table [unlink] leaves behind after a [store] of the same key. *)
Definition unlinked (table : t) (key : key_type) (value : list byte)
  (first : array_index) : t :=
  mk (header_ table)
     (manager_ (stored table key value first))
     (key_size table).

(** The second table has every record of the first. *)
Definition extends (table table' : t) : Prop :=
  forall index item,
    record_row table index = Some item -> record_row table' index = Some item.

(** The [while (current != header_.empty)] loop of [update]: execute a
    writer against a key's buffer if the key is found.  [write] is what the
    writer makes of the bytes of the value. *)
Fixpoint update_loop (fuel : nat) (table : t) (key : key_type)
    (write : list byte -> list byte) (current : array_index)
    : option (array_index * t) :=
  if current =? empty then Some (not_found, table)
  else
    match fuel with
    | O => None
    | S fuel' =>
        item ← record_row table current;
        (* Found. *)
        if compare item key then
          Some (current,
                put_row current
                  (mk_row (row_key item) (row_next item)
                     (write (row_value item)))
                  table)
        else update_loop fuel' table key write (row_next item)
    end.

(** Return the array index of the found value. *)
Definition update (fuel : nat) (key : key_type)
    (write : list byte -> list byte) (table : t) : option (array_index * t) :=
  (* Find start item... *)
  current ← read_bucket_value table key;
  (* Iterate through list... *)
  update_loop fuel table key write current.

(** The list that starts at [current] ends within [fuel] records. *)
Fixpoint ends_from (fuel : nat) (table : t) (current : array_index) : bool :=
  if current =? empty then true
  else
    match fuel with
    | O => false
    | S fuel' =>
        match record_row table current with
        | None => false
        | Some item => ends_from fuel' table (row_next item)
        end
    end.

Definition ends (fuel : nat) (table : t) (key : key_type) : bool :=
  match read_bucket_value table key with
  | None => false
  | Some current => ends_from fuel table current
  end.

(** The first record of a traversal that [compare]s equal to [key]. *)
Definition first_match (key : key_type) (rows : list (array_index * row))
    : option (array_index * row) :=
  List.find (fun entry => compare (snd entry) key) rows.

(** A traversal with its first record under [key] taken out. *)
Fixpoint without_first (key : key_type) (rows : list (array_index * row))
    : list (array_index * row) :=
  match rows with
  | [] => []
  | entry :: rest =>
      if compare (snd entry) key then rest
      else entry :: without_first key rest
  end.

(** What a record holds apart from its link. *)
Definition content (entry : array_index * row)
    : array_index * key_type * list byte :=
  (fst entry, row_key (snd entry), row_value (snd entry)).

(** A run of [store] calls, first entry first, with the indexes they
    returned. *)
Fixpoint store_all (entries : list (key_type * list byte)) (table : t)
    : option (list array_index * t) :=
  match entries with
  | [] => Some ([], table)
  | (key, value) :: rest =>
      '(index, table') ← store key value table;
      '(indexes, table'') ← store_all rest table';
      Some (index :: indexes, table'')
  end.

(** The value a map holds under [key] once [entries] were put into it in
    order, [before] being what it held at the start. *)
Definition latest (key : key_type) (entries : list (key_type * list byte))
    (before : option (list byte)) : option (list byte) :=
  foldl (fun held entry =>
           if bool_decide (entry.1 = key) then Some entry.2 else held)
        before entries.

End record_hash_table.

(** ** The byte serializer

    The unsafe (de)serializer of the chain library, over a buffer of bytes
    and a cursor into it.  A read or a write that leaves the buffer has no
    defined result ([None]). *)

Module serial.

Definition byte_of_N (n : N) : byte :=
  default x00 (Byte.of_N (n mod 256)).

Fixpoint to_little_endian (width : nat) (v : N) : list byte :=
  match width with
  | O => []
  | S width' => byte_of_N v :: to_little_endian width' (v / 256)
  end.

Definition read_bytes (buffer : list byte) (cursor count : nat)
    : option (list byte) :=
  if decide (cursor + count <= length buffer)%nat
  then Some (take count (drop cursor buffer))
  else None.

Definition read_little_endian (width : nat) (buffer : list byte)
    (cursor : nat) : option (N * nat) :=
  bytes ← read_bytes buffer cursor width;
  Some (from_little_endian bytes, (cursor + width)%nat).

Definition read_byte := read_little_endian 1.
Definition read_2_bytes_little_endian := read_little_endian 2.
Definition read_4_bytes_little_endian := read_little_endian 4.
Definition read_8_bytes_little_endian := read_little_endian 8.

(** The variable length integer: one byte below 0xfd, else the marker byte
    followed by 2, 4 or 8 bytes. *)
Definition read_size_little_endian (buffer : list byte) (cursor : nat)
    : option (N * nat) :=
  '(value, cursor1) ← read_byte buffer cursor;
  if value =? 255 then read_8_bytes_little_endian buffer cursor1
  else if value =? 254 then read_4_bytes_little_endian buffer cursor1
  else if value =? 253 then read_2_bytes_little_endian buffer cursor1
  else Some (value, cursor1).

Definition skip (count : N) (cursor : nat) : nat :=
  (cursor + N.to_nat count)%nat.

Definition write_little_endian (width : nat) (v : N) (buffer : list byte)
    (cursor : nat) : option (list byte) :=
  if decide (cursor + width <= length buffer)%nat
  then Some (take cursor buffer ++ to_little_endian width v
             ++ drop (cursor + width) buffer)
  else None.

Definition write_4_bytes_little_endian := write_little_endian 4.

(** Two buffers of one length that agree on their first [limit] bytes. *)
Definition agree (limit : nat) (buffer buffer' : list byte) : Prop :=
  length buffer = length buffer' /\ take limit buffer = take limit buffer'.

End serial.

(** ** Chain objects (the chain library's types, as far as the store uses
    them) *)

Definition hash_digest := key_type.
Definition hash_size : nat := 32.
Definition null_hash : hash_digest := replicate hash_size x00.

Record output_point := mk_point {
  point_hash : hash_digest;
  point_index : N
}.

(** [point.is_null()]: the previous output of a coinbase input. *)
Definition null_index : N := max_uint32.
Definition is_null (point : output_point) : bool :=
  bool_decide (point_index point = null_index)
  && bool_decide (point_hash point = null_hash).

(** [output::validation::not_spent] and [output::not_found]. *)
Definition not_spent : N := max_uint32.
Definition output_not_found : N := max_uint64.

Record output := mk_output {
  output_value : N;
  output_script : list byte;
  spender_height : N
}.

(** [chain::output{}] and [output.is_valid()]. *)
Definition default_output : output := mk_output output_not_found [] not_spent.
Definition is_valid (out : output) : bool :=
  negb (output_value out =? output_not_found).

Record input := mk_input {
  previous_output : output_point;
  input_script : list byte;
  sequence : N
}.

(** [tx.validation.offset] is the mutable metadata [store] sets. *)
Record transaction := mk_transaction {
  tx_hash : hash_digest;
  tx_inputs : list input;
  tx_outputs : list output;
  locktime : N;
  version : N;
  validation_offset : file_offset
}.

(** [tx.is_coinbase()]: a single input whose previous output is null. *)
Definition is_coinbase (tx : transaction) : bool :=
  match tx_inputs tx with
  | [i] => is_null (previous_output i)
  | _ => false
  end.

(** [point.validation], the metadata [get_output] populates. *)
Record prevout_validation := mk_validation {
  spent : bool;
  confirmed : bool;
  coinbase_height : N;
  cache : output
}.

(** The chain library is not part of the store: how it lays a transaction
    out in a slab and parses it back, when it calls an output spent, and
    its sentinels are taken as given.
    - [output_factory buffer cursor] is [output::factory(deserial, false)],
    - [output_spent out fork_height flag] is
      [out.validation.spent(fork_height, flag)],
    - [transaction_to_data tx] is [tx.to_data(serial, false)], its length
      [tx.serialized_size(false)],
    - [transaction_factory buffer cursor hash] is
      [transaction::factory(deserial, hash)],
    - [unverified] is [rule_fork::unverified],
    - [unspecified] is [output_point::validation::unspecified]. *)
Class chain_library := {
  output_factory : list byte -> nat -> option (output * nat);
  output_spent : output -> N -> bool -> bool;
  transaction_to_data : transaction -> list byte;
  transaction_factory : list byte -> nat -> hash_digest -> option transaction;
  unverified : N;
  unspecified : N
}.

(** ** Transaction states (transaction_result.hpp) *)

(** [enum class transaction_state : uint8_t]; a state read from a slab is
    the byte itself. *)
Definition transaction_state := N.

Module state.
Definition missing : transaction_state := 0.
Definition invalid : transaction_state := 1.
Definition pooled : transaction_state := 2.
Definition indexed : transaction_state := 3.
Definition confirmed : transaction_state := 4.
End state.

(** ** The unspent output cache *)

Module unspent_outputs.

(** Modelled from the spec: unspent_outputs is not among the sources.  "A
    bounded LRU mapping output_point -> cached_output"; "the cache contains
    only unspent, confirmed outputs; a hit populates prevout metadata
    directly".  The newest entry is first; an entry answers queries at or
    above the height of its transaction. *)
Record entry := mk_entry {
  entry_point : output_point;
  entry_output : output;
  entry_height : N;
  entry_coinbase : bool
}.

Record t := mk {
  capacity : nat;
  entries : list entry
}.

#[global] Instance output_point_eq_dec : EqDecision output_point.
Proof. solve_decision. Defined.

Definition same_point (point : output_point) (e : entry) : bool :=
  bool_decide (entry_point e = point).

Definition lookup (point : output_point) (cached : t) : option entry :=
  List.find (same_point point) (entries cached).

(** [cache_.populate(point, fork_height)]: on a hit the metadata of the
    point is populated from the entry. *)
Definition populate `{chain_library} (point : output_point) (fork_height : N)
    (cached : t) : option prevout_validation :=
  e ← lookup point cached;
  if entry_height e <=? fork_height then
    Some (mk_validation false true
            (if entry_coinbase e then entry_height e else unspecified)
            (entry_output e))
  else None.

(** [cache_.remove(point)] *)
Definition remove (point : output_point) (cached : t) : t :=
  mk (capacity cached)
     (List.filter (fun e => negb (same_point point e)) (entries cached)).

Definition entries_of (tx : transaction) (height : N) (coinbase : bool)
    : list entry :=
  imap (fun i out => mk_entry (mk_point (tx_hash tx) (N.of_nat i)) out height
                       coinbase)
       (tx_outputs tx).

(** [cache_.add(tx, height, confirmed)]: only confirmed transactions enter;
    the oldest entries leave when the capacity is exceeded. *)
Definition add (tx : transaction) (height : N) (is_confirmed : bool)
    (cached : t) : t :=
  if is_confirmed then
    mk (capacity cached)
       (take (capacity cached)
          (entries_of tx height (is_coinbase tx) ++ entries cached))
  else cached.

End unspent_outputs.

(** ** The transaction database (transaction_database.cpp) and its result
    object (transaction_result.cpp) *)

Module transaction_database.

Section with_chain.
Context `{chain_library}.

(** [lookup_map_] is the slab hash table (with its header and manager),
    [cache_] the unspent output cache. *)
Record t := mk {
  lookup_map_ : slab_hash_table.t;
  cache_ : unspent_outputs.t
}.

Definition height_size : N := 4.
Definition position_size : N := 2.
Definition state_size : N := 1.
Definition metadata_size : N := height_size + position_size + state_size.
Definition output_value_size : N := 8.
Definition spender_height_size : N := 4.

(** transaction_result.cpp adds the one byte index-spend flag of the v4
    record format to what it skips for an output. *)
Definition indexed_size : N := 1.
Definition value_size : N := 8.

(** *** Memory behind a slab pointer *)

(** [REMAP_ADDRESS(slab)]: the bytes of the value the pointer addresses. *)
Definition slab_bytes (db : t) (slab : file_offset) : option (list byte) :=
  slab_hash_table.value_at (lookup_map_ db) slab.

(** The key in front of a value: [memory - prefix_size] read as a hash. *)
Definition slab_key (db : t) (slab : file_offset) : option hash_digest :=
  let table := lookup_map_ db in
  if slab <? slab_hash_table.prefix_size table then None
  else row_key <$>
       slab_hash_table.slab_row table (slab - slab_hash_table.prefix_size table).

(** A write through the pointer replaces the bytes of the value in place. *)
Definition write_slab (slab : file_offset) (bytes : list byte) (db : t)
    : option t :=
  let table := lookup_map_ db in
  if slab <? slab_hash_table.prefix_size table then None
  else
    let position := slab - slab_hash_table.prefix_size table in
    item ← slab_hash_table.slab_row table position;
    Some (mk (slab_hash_table.put_row position
                (mk_row (row_key item) (row_next item) bytes) table)
             (cache_ db)).

(** [lookup_manager_.get(offset)] *)
Definition lookup_manager_get (db : t) (offset : file_offset)
    : option file_offset :=
  Some offset.

(** *** transaction_result *)

Record transaction_result := mk_result {
  slab_ : option file_offset;
  height_ : N;
  position_ : N;
  hash_ : hash_digest;
  state_ : transaction_state
}.

(** This is unconfirmed tx position sentinel. *)
Definition unconfirmed : N := max_uint16.

(** [transaction_result()] *)
Definition no_result : transaction_result :=
  mk_result None unverified unconfirmed null_hash state.missing.

(** [operator bool] *)
Definition found (result : transaction_result) : bool :=
  match slab_ result with Some _ => true | None => false end.

(** The confirmation test [get_output] and [is_spent] both compute,
    [(state == indexed && flag) || (state == confirmed && height <=
    fork_height)], where [flag] is [fork_height != max_size_t]
    ([require_confirmed] in the one, [allow_indexed] in the other). *)
Definition confirmed_at (state : transaction_state) (height fork_height : N)
    (flag : bool) : bool :=
  ((state =? state.indexed) && flag)
  || ((state =? state.confirmed) && (height <=? fork_height)).

(** The loop that skips [count] outputs, each a fixed part of [fixed] bytes
    and a script with its length in front. *)
Fixpoint skip_outputs (fixed : N) (count : nat) (buffer : list byte)
    (cursor : nat) : option nat :=
  match count with
  | O => Some cursor
  | S count' =>
      let cursor1 := serial.skip fixed cursor in
      '(script_size, cursor2) ← serial.read_size_little_endian buffer cursor1;
      skip_outputs fixed count' buffer (serial.skip script_size cursor2)
  end.

(** [result.output(index)]: if index is out of range returns
    default/invalid output (.value not_found). *)
Definition result_output (db : t) (result : transaction_result) (index : N)
    : option output :=
  slab ← slab_ result;
  buffer ← slab_bytes db slab;
  '(outputs, cursor) ←
    serial.read_size_little_endian buffer (N.to_nat metadata_size);
  if outputs <=? index then Some default_output
  else
    (* Skip outputs until the target output. *)
    cursor' ← skip_outputs (indexed_size + height_size + value_size)
                (N.to_nat index) buffer cursor;
    (* Read and return the target output (including spender height). *)
    fst <$> output_factory buffer cursor'.

(** Search all outputs for an unspent indication. *)
Fixpoint all_outputs_spent (count : nat) (buffer : list byte) (cursor : nat)
    (fork_height : N) (allow_indexed : bool) : option bool :=
  match count with
  | O => Some true
  | S count' =>
      '(out, cursor') ← output_factory buffer cursor;
      if negb (output_spent out fork_height allow_indexed) then Some false
      else all_outputs_spent count' buffer cursor' fork_height allow_indexed
  end.

(** [result.is_spent(fork_height)]; the default argument is [max_size_t]. *)
Definition is_spent (db : t) (result : transaction_result) (fork_height : N)
    : option bool :=
  let allow_indexed := negb (fork_height =? max_size_t) in
  let confirmed :=
    confirmed_at (state_ result) (height_ result) fork_height allow_indexed in
  (* Cannot be spent unless confirmed. *)
  if negb confirmed then Some false
  else
    slab ← slab_ result;
    buffer ← slab_bytes db slab;
    '(outputs, cursor) ←
      serial.read_size_little_endian buffer (N.to_nat metadata_size);
    all_outputs_spent (N.to_nat outputs) buffer cursor fork_height
      allow_indexed.

(** [result.transaction()] *)
Definition result_transaction (db : t) (result : transaction_result)
    : option transaction :=
  slab ← slab_ result;
  buffer ← slab_bytes db slab;
  transaction_factory buffer (N.to_nat metadata_size) (hash_ result).

(** *** Queries *)

(** The three metadata values, read in the critical section. *)
Definition read_metadata (buffer : list byte) : option (N * N * N) :=
  '(height, cursor1) ← serial.read_4_bytes_little_endian buffer 0;
  '(position, cursor2) ← serial.read_2_bytes_little_endian buffer cursor1;
  '(state, _) ← serial.read_byte buffer cursor2;
  Some (height, position, state).

(** [get(file_offset offset)] *)
Definition get_offset (db : t) (offset : file_offset)
    : option transaction_result :=
  slab ← lookup_manager_get db offset;
  buffer ← slab_bytes db slab;
  '(height, position, state) ← read_metadata buffer;
  (* HACK: back up into the slab to obtain the hash/key (optimization). *)
  hash ← slab_key db slab;
  Some (mk_result (Some slab) height position hash state).

(** [get(const hash_digest& hash)] *)
Definition get (fuel : nat) (db : t) (hash : hash_digest)
    : option transaction_result :=
  slab ← slab_hash_table.find fuel (lookup_map_ db) hash;
  match slab with
  | None => Some no_result
  | Some address =>
      buffer ← slab_bytes db address;
      '(height, position, state) ← read_metadata buffer;
      Some (mk_result (Some address) height position hash state)
  end.

Definition set_spent (b : bool) (v : prevout_validation) :=
  mk_validation b (confirmed v) (coinbase_height v) (cache v).
Definition set_confirmed (b : bool) (v : prevout_validation) :=
  mk_validation (spent v) b (coinbase_height v) (cache v).
Definition set_coinbase_height (h : N) (v : prevout_validation) :=
  mk_validation (spent v) (confirmed v) h (cache v).
Definition set_cache (out : output) (v : prevout_validation) :=
  mk_validation (spent v) (confirmed v) (coinbase_height v) out.

(** [get_output(point, fork_height)]; [prevout] is [point.validation] as the
    caller passes it, the result is the return value and the metadata as the
    call leaves it. *)
Definition get_output (fuel : nat) (db : t) (point : output_point)
    (prevout : prevout_validation) (fork_height : N)
    : option (bool * prevout_validation) :=
  let prevout := set_coinbase_height unspecified (set_spent false prevout) in
  (* If the input is a coinbase there is no prevout to populate. *)
  if is_null point then Some (false, prevout)
  else
    (* Cache does not contain spent outputs or indexed confirmation states. *)
    match unspent_outputs.populate point fork_height (cache_ db) with
    | Some populated => Some (true, populated)
    | None =>
        (* Find the tx entry. *)
        result ← get fuel db (point_hash point);
        if negb (found result) then Some (false, prevout)
        else
          (* CONSENSUS: The genesis block coinbase output may not be spent. *)
          let height := height_ result in
          if height =? 0 then Some (false, prevout)
          else
            let state := state_ result in
            let require_confirmed := negb (fork_height =? max_size_t) in
            let is_confirmed :=
              confirmed_at state height fork_height require_confirmed in
            (* Guarantee confirmation state. *)
            if require_confirmed && negb is_confirmed
            then Some (false, prevout)
            else
              (* Find the output at the specified index for the found tx. *)
              out ← result_output db result (point_index point);
              let prevout := set_cache out prevout in
              if negb (is_valid out) then Some (false, prevout)
              else
                (* Populate the output metadata. *)
                let prevout :=
                  set_confirmed ((state =? state.indexed)
                                 || (state =? state.confirmed)) prevout in
                (* Reflect the contextual spent state on the prevout. *)
                let prevout :=
                  set_spent (confirmed prevout
                             && output_spent out fork_height require_confirmed)
                    prevout in
                (* If position is zero it must be a coinbase. *)
                let prevout :=
                  if position_ result =? 0
                  then set_coinbase_height height prevout else prevout in
                Some (true, prevout)
    end.

(** *** Update *)

(** The output is confirmed spent, or the confirmed spend is unspent. *)
Definition spend (fuel : nat) (point : output_point) (spender : N) (db : t)
    : option (bool * t) :=
  (* This just simplifies calling by allowing coinbase to be included. *)
  if is_null point then Some (true, db)
  else
    (* If unspending we could restore the spend to the cache, but not worth
       it. *)
    let db :=
      if negb (spender =? not_spent)
      then mk (lookup_map_ db) (unspent_outputs.remove point (cache_ db))
      else db in
    slab ← slab_hash_table.find fuel (lookup_map_ db) (point_hash point);
    match slab with
    | None => Some (false, db)
    | Some address =>
        buffer ← slab_bytes db address;
        '(height, position, state) ← read_metadata buffer;
        (* Limit to confirmed transactions at or below the spender height. *)
        if negb (state =? state.confirmed) || (spender <? height)
        then Some (false, db)
        else
          '(outputs, cursor) ←
            serial.read_size_little_endian buffer (N.to_nat metadata_size);
          (* The index is not in the transaction. *)
          if outputs <=? point_index point then Some (false, db)
          else
            (* Skip outputs until the target output. *)
            cursor' ← skip_outputs (spender_height_size + output_value_size)
                        (N.to_nat (point_index point)) buffer cursor;
            buffer' ← serial.write_4_bytes_little_endian spender buffer cursor';
            db' ← write_slab address buffer' db;
            Some (true, db')
    end.

(** [confirm(offset, height, position, state)] *)
Definition confirm (offset : file_offset) (height position : N)
    (state : transaction_state) (db : t) : option (bool * t) :=
  slab ← lookup_manager_get db offset;
  buffer ← slab_bytes db slab;
  buffer1 ← serial.write_little_endian 4 (to_uint32 height) buffer 0;
  buffer2 ← serial.write_little_endian 2 (to_uint16 position) buffer1 4;
  buffer3 ← serial.write_little_endian 1 (to_uint8 state) buffer2 6;
  db' ← write_slab slab buffer3 db;
  Some (true, db').

(** *** Store *)

(** [for (const auto& input: tx.inputs()) if (!spend(...)) return false;] *)
Fixpoint spend_inputs (fuel : nat) (inputs : list input) (spender : N)
    (db : t) : option (bool * t) :=
  match inputs with
  | [] => Some (true, db)
  | i :: rest =>
      match spend fuel (previous_output i) spender db with
      | Some (true, db') => spend_inputs fuel rest spender db'
      | Some (false, db') => Some (false, db')
      | None => None
      end
  end.

Definition set_offset (offset : file_offset) (tx : transaction) : transaction :=
  mk_transaction (tx_hash tx) (tx_inputs tx) (tx_outputs tx) (locktime tx)
    (version tx) offset.

(** Write the new transaction: the metadata, then [tx.to_data]. *)
Definition store_new (tx : transaction) (height position : N)
    (state : transaction_state) (db : t) : option (bool * transaction * t) :=
  let confirming := state =? state.confirmed in
  let bytes :=
    serial.to_little_endian 4 (to_uint32 height)
    ++ serial.to_little_endian 2 (to_uint16 position)
    ++ serial.to_little_endian 1 (to_uint8 state)
    ++ transaction_to_data tx in
  let size := metadata_size + N.of_nat (length (transaction_to_data tx)) in
  '(offset, table) ←
    slab_hash_table.store (tx_hash tx) bytes size (lookup_map_ db);
  Some (true, set_offset offset tx,
        mk table (unspent_outputs.add tx height confirming (cache_ db))).

(** [store(tx, height, position, state)]; false implies store corruption. *)
Definition store (fuel : nat) (tx : transaction) (height position : N)
    (state : transaction_state) (db : t) : option (bool * transaction * t) :=
  let confirming := state =? state.confirmed in
  if confirming then
    (* Confirm the tx's previous outputs. *)
    '(ok, db1) ← spend_inputs fuel (tx_inputs tx) height db;
    if negb ok then Some (false, tx, db1)
    else if negb (validation_offset tx =? slab_hash_table.not_found) then
      (* Promote the tx that already exists. *)
      let db2 :=
        mk (lookup_map_ db1)
           (unspent_outputs.add tx height confirming (cache_ db1)) in
      '(ok', db3) ← confirm (validation_offset tx) height position state db2;
      Some (ok', tx, db3)
    else store_new tx height position state db1
  else store_new tx height position state db.

(** [pool(const chain::transaction& tx)] *)
Definition pool (fuel : nat) (tx : transaction) (db : t) : option (bool * t) :=
  '(ok, db1) ← spend_inputs fuel (tx_inputs tx) not_spent db;
  if negb ok then Some (false, db1)
  else
    (* The tx was verified under an unknown chain state, so set unverified. *)
    confirm (validation_offset tx) unverified unconfirmed state.pooled db1.

(** [pool(uint64_t offset)] *)
Definition pool_offset (fuel : nat) (offset : file_offset) (db : t)
    : option (bool * t) :=
  result ← get_offset db offset;
  tx ← result_transaction db result;
  pool fuel (set_offset offset tx) db.

(** [commit()] syncs the high-water mark of the manager to the file; the
    model keeps a single copy of it. *)
Definition commit (db : t) : t := db.

(** A database as [create] leaves it. *)
Definition created (buckets : nat) (cache_capacity : nat) : t :=
  mk (slab_hash_table.created buckets (N.of_nat hash_size))
     (unspent_outputs.mk cache_capacity []).

(** The cursor at which [spend] writes for output [index] of a slab. *)
Definition spender_height_cursor (buffer : list byte) (index : N)
    : option nat :=
  '(outputs, cursor) ←
    serial.read_size_little_endian buffer (N.to_nat metadata_size);
  if outputs <=? index then None
  else skip_outputs (spender_height_size + output_value_size)
         (N.to_nat index) buffer cursor.

(** The spender height field of output [point_index point] of the
    transaction [point_hash point], as [spend] locates it. *)
Definition spender_height_field (fuel : nat) (db : t) (point : output_point)
    : option N :=
  slab ← slab_hash_table.find fuel (lookup_map_ db) (point_hash point);
  address ← slab;
  buffer ← slab_bytes db address;
  cursor ← spender_height_cursor buffer (point_index point);
  fst <$> serial.read_4_bytes_little_endian buffer cursor.

(** What [spend] needs to go through on [point]: the transaction is found
    and confirmed at or below the spender height, the output index is in
    range, and the four bytes of the output's spender height lie inside the
    slab. *)
Definition spend_precondition (fuel : nat) (db : t) (point : output_point)
    (spender : N) : Prop :=
  exists address buffer height position cursor,
    slab_hash_table.find fuel (lookup_map_ db) (point_hash point)
    = Some (Some address) /\
    slab_bytes db address = Some buffer /\
    read_metadata buffer = Some (height, position, state.confirmed) /\
    height <= spender /\
    spender_height_cursor buffer (point_index point) = Some cursor /\
    (cursor + 4 <= length buffer)%nat.

(** What a run of [spend] leaves of a store: the answers to the queries by
    offset and by hash, the bucket array, the extent of the file, the rows
    there are, and the invariant of the table. *)
Definition same_records (db db' : t) : Prop :=
  (forall offset, get_offset db' offset = get_offset db offset) /\
  (forall fuel hash, get fuel db' hash = get fuel db hash) /\
  slab_hash_table.header_ (lookup_map_ db')
  = slab_hash_table.header_ (lookup_map_ db) /\
  slab_hash_table.payload_size (slab_hash_table.manager_ (lookup_map_ db'))
  = slab_hash_table.payload_size (slab_hash_table.manager_ (lookup_map_ db))
  /\
  (forall position,
     is_Some (slab_hash_table.slab_row (lookup_map_ db') position)
     <-> is_Some (slab_hash_table.slab_row (lookup_map_ db) position)) /\
  (slab_hash_table.wf (lookup_map_ db) ->
   slab_hash_table.wf (lookup_map_ db')).

End with_chain.

End transaction_database.

(** ** The history database (history_database.cpp) *)

Module history_database.

Section with_rows.

(** The rows are read with [payment_record::from_data(deserial,
    from_height)] of the chain library, [None] where it returns false.
    [records] are the rows of the key in the order
    [record_multimap_iterable(rows_list_, start)] yields them. *)
Context {payment_record : Type}.
Variable from_data : list byte -> N -> option payment_record.

(** The loop of [get(key, limit, from_height)], [result] being the list
    built so far. *)
Fixpoint get_from (limit from_height : N) (records : list (list byte))
    (result : list payment_record) : list payment_record :=
  match records with
  | [] => result
  | record :: rest =>
      if (0 <? limit) && (limit <=? N.of_nat (length result)) then result
      else
        (* Failed reads are conflated with skipped returns. *)
        get_from limit from_height rest
          match from_data record from_height with
          | Some payment => result ++ [payment]
          | None => result
          end
  end.

Definition get (limit from_height : N) (records : list (list byte))
    : list payment_record :=
  get_from limit from_height records [].

End with_rows.

End history_database.

(** ** The coordinator (data_base.cpp) *)

Module data_base.

(** [error::error_code_t], the codes the coordinator returns. *)
Inductive code :=
  | success
  | operation_failed
  | empty_block
  | store_block_invalid_height
  | store_block_missing_parent
  | unspent_duplicate.

#[global] Instance code_eq_dec : EqDecision code.
Proof. solve_decision. Defined.

(** [if (ec)] *)
Definition is_error (ec : code) : bool := negb (bool_decide (ec = success)).

Definition short_hash := list byte.

Record header := mk_header {
  header_hash : hash_digest;
  previous_block_hash : hash_digest
}.

Record block := mk_block {
  block_header : header;
  transactions : list transaction
}.

(** [block_result], as far as the coordinator reads it. *)
Record block_result := mk_block_result {
  result_valid : bool;
  result_hash : hash_digest;
  result_header : header;
  transaction_offsets : list file_offset
}.

Record input_point := mk_input_point {
  input_point_hash : hash_digest;
  input_point_index : N
}.

(** A history row: [{ height, point, checksum }] for an input,
    [{ height, point, value }] for an output. *)
Inductive payment_record :=
  | input_row (height : N) (point : input_point) (checksum : N)
  | output_row (height : N) (point : output_point) (value : N).

Record stealth_record := mk_stealth {
  stealth_height : N;
  stealth_prefix : N;
  ephemeral_key : hash_digest;
  stealth_address : short_hash;
  stealth_tx : hash_digest
}.

(** The block database, the spend, history and stealth databases and the
    chain library calls of the index maintenance are not among the sources;
    the coordinator is written against their interfaces.
    - [blocks_top index db] is [blocks_->top(out_height, index)], [None]
      where it returns false; [blocks_get height index db] is
      [blocks_->get(height, index)],
    - [index_databases] holds [spends_], [history_] and [stealth_]. *)
Class sub_databases := {
  block_database : Type;
  blocks_top : bool -> block_database -> option N;
  blocks_get : N -> bool -> block_database -> block_result;
  blocks_store_header : header -> N -> block_database -> block_database;
  blocks_store_block : block -> N -> block_database -> block_database;
  blocks_unconfirm : N -> bool -> block_database -> bool * block_database;
  blocks_commit : block_database -> block_database;
  index_databases : Type;
  spends_store : output_point -> input_point -> index_databases -> index_databases;
  spends_unlink : output_point -> index_databases -> bool * index_databases;
  history_store : short_hash -> payment_record -> index_databases -> index_databases;
  history_unlink_last_row : short_hash -> index_databases -> bool * index_databases;
  stealth_store : stealth_record -> index_databases -> index_databases;
  indexes_commit : index_databases -> index_databases;
  input_addresses : input -> list short_hash;
  output_addresses : output -> list short_hash;
  output_address : output -> option short_hash;
  point_checksum : output_point -> N;
  extract_ephemeral_key : list byte -> option hash_digest;
  to_stealth_prefix : list byte -> option N
}.

(** One turn of
    [for (position = bucket; position < count;
          position = ceiling_add(position, buckets))]
    whose body returns false to leave the function with false. *)
Inductive turn (S : Type) :=
  | next_position (position : N) (s : S)
  | returned (ok : bool) (s : S).
Arguments next_position {S}.
Arguments returned {S}.

Section with_parts.
Context `{chain_library} `{sub_databases}.

(** Modelled from the spec: store.cpp is not among the sources.
    "begin_write (creates flush-lock sentinel file); on failure returns
    fatal", "end_write (deletes flush-lock sentinel)".  [flush_lock] tells
    whether the sentinel file exists, [file_system_ok] whether the file
    system lets it be created and deleted. *)
Record t := mk {
  blocks_ : block_database;
  transactions_ : transaction_database.t;
  indexes_ : index_databases;
  index_addresses : bool;
  flush_lock : bool;
  file_system_ok : bool
}.

Definition set_blocks (b : block_database) (db : t) : t :=
  mk b (transactions_ db) (indexes_ db) (index_addresses db) (flush_lock db)
    (file_system_ok db).
Definition set_transactions (x : transaction_database.t) (db : t) : t :=
  mk (blocks_ db) x (indexes_ db) (index_addresses db) (flush_lock db)
    (file_system_ok db).
Definition set_indexes (i : index_databases) (db : t) : t :=
  mk (blocks_ db) (transactions_ db) i (index_addresses db) (flush_lock db)
    (file_system_ok db).
Definition set_flush_lock (b : bool) (db : t) : t :=
  mk (blocks_ db) (transactions_ db) (indexes_ db) (index_addresses db) b
    (file_system_ok db).

Definition begin_write (db : t) : bool * t :=
  if file_system_ok db then (true, set_flush_lock true db) else (false, db).

Definition end_write (db : t) : bool * t :=
  if file_system_ok db then (true, set_flush_lock false db) else (false, db).

(** [commit()] *)
Definition commit (db : t) : t :=
  let db1 :=
    if index_addresses db then set_indexes (indexes_commit (indexes_ db)) db
    else db in
  let db2 :=
    set_transactions (transaction_database.commit (transactions_ db1)) db1 in
  set_blocks (blocks_commit (blocks_ db2)) db2.

(** *** Utilities *)

Definition get_next_block (db : t) (block_index : bool) : N :=
  match blocks_top block_index (blocks_ db) with
  | None => 0
  | Some current_height => to_size_t (current_height + 1)
  end.

Definition get_previous_block (db : t) (height : N) (block_index : bool)
    : hash_digest :=
  if height =? 0 then null_hash
  else result_hash (blocks_get (height - 1) block_index (blocks_ db)).

(** [blocks_->top(actual_height, block_index) && (actual_height == height) ?
    error::success : error::operation_failed] *)
Definition verify_top (db : t) (height : N) (block_index : bool) : code :=
  match blocks_top block_index (blocks_ db) with
  | Some actual_height =>
      if actual_height =? height then success else operation_failed
  | None => operation_failed
  end.

(** [verify_push(const header& header, size_t height)] *)
Definition verify_push_header (db : t) (head : header) (height : N) : code :=
  if negb (get_next_block db false =? height) then store_block_invalid_height
  else if negb (bool_decide (get_previous_block db height false
                             = previous_block_hash head))
  then store_block_missing_parent
  else success.

(** [verify_push(const block& block, size_t height)] *)
Definition verify_push_block (db : t) (b : block) (height : N) : code :=
  match transactions b with
  | [] => empty_block
  | _ =>
      if negb (get_next_block db true =? height)
      then store_block_invalid_height
      else if negb (bool_decide (get_previous_block db height true
                                 = previous_block_hash (block_header b)))
      then store_block_missing_parent
      else success
  end.

(** [verify_push(const transaction& tx)]: [result && !result.is_spent()]. *)
Definition verify_push_transaction (fuel : nat) (db : t) (tx : transaction)
    : option code :=
  result ← transaction_database.get fuel (transactions_ db) (tx_hash tx);
  (* This is an expensive re-check, but only if a duplicate exists. *)
  if transaction_database.found result then
    is_spent ← transaction_database.is_spent (transactions_ db) result
                 max_size_t;
    Some (if negb is_spent then unspent_duplicate else success)
  else Some success.

(** [to_transactions(result)] *)
Fixpoint to_transactions_from (db : t) (offsets : list file_offset)
    : option (list transaction) :=
  match offsets with
  | [] => Some []
  | offset :: rest =>
      result ← transaction_database.get_offset (transactions_ db) offset;
      tx ← transaction_database.result_transaction (transactions_ db) result;
      txs ← to_transactions_from db rest;
      Some (transaction_database.set_offset offset tx :: txs)
  end.

Definition to_transactions (db : t) (result : block_result)
    : option (list transaction) :=
  to_transactions_from db (transaction_offsets result).

(** *** The loop over the positions of a bucket *)

(** [ceiling_add(position, buckets)]: the sum, or [max_size_t] where it
    would overflow. *)
Definition ceiling_add (left right : N) : N :=
  if max_size_t - right <? left then max_size_t else left + right.

Definition loop_turn {S} (count buckets : N)
    (body : N -> S -> option (bool * S)) (position : N) (s : S)
    : option (turn S) :=
  if position <? count then
    '(ok, s') ← body position s;
    Some (if ok : bool then next_position (ceiling_add position buckets) s'
          else returned false s')
  else Some (returned true s).

(** The loop, given [turns] turns; [None] if it has not left by then. *)
Fixpoint for_positions {S} (turns : nat) (count buckets : N)
    (body : N -> S -> option (bool * S)) (position : N) (s : S)
    : option (bool * S) :=
  match turns with
  | O => None
  | Datatypes.S turns' =>
      t ← loop_turn count buckets body position s;
      match t with
      | next_position position' s' =>
          for_positions turns' count buckets body position' s'
      | returned ok s' => Some (ok, s')
      end
  end.

(** *** Synchronous transaction writers *)

Fixpoint fold_index {A S} (f : N -> A -> S -> S) (index : N) (items : list A)
    (s : S) : S :=
  match items with
  | [] => s
  | item :: rest => fold_index f (index + 1) rest (f index item s)
  end.

Definition push_inputs (tx : transaction) (height : N) (db : t) : t :=
  if is_coinbase tx then db
  else
    set_indexes
      (fold_index
         (fun index i indexes =>
            let point := mk_input_point (tx_hash tx) index in
            let prevout := previous_output i in
            let checksum := point_checksum prevout in
            foldl (fun acc address =>
                     history_store address (input_row height point checksum) acc)
                  (spends_store prevout point indexes)
                  (input_addresses i))
         0 (tx_inputs tx) (indexes_ db))
      db.

Definition push_outputs (tx : transaction) (height : N) (db : t) : t :=
  set_indexes
    (fold_index
       (fun index out indexes =>
          let point := mk_point (tx_hash tx) index in
          foldl (fun acc address =>
                   history_store address
                     (output_row height point (output_value out)) acc)
                indexes (output_addresses out))
       0 (tx_outputs tx) (indexes_ db))
    db.

(** Stealth outputs are paired by convention. *)
Fixpoint push_stealth_pairs (hash : hash_digest) (height : N)
    (outputs : list output) (indexes : index_databases) : index_databases :=
  match outputs with
  | ephemeral :: ((payment :: _) as rest) =>
      let indexes' :=
        match output_address payment,
              extract_ephemeral_key (output_script ephemeral),
              to_stealth_prefix (output_script ephemeral) with
        | Some address, Some key, Some prefix =>
            stealth_store (mk_stealth height prefix key address hash) indexes
        | _, _, _ => indexes
        end in
      push_stealth_pairs hash height rest indexes'
  | _ => indexes
  end.

Definition push_stealth (tx : transaction) (height : N) (db : t) : t :=
  set_indexes
    (push_stealth_pairs (tx_hash tx) height (tx_outputs tx) (indexes_ db)) db.

(** The block as the writers see it: [tx.validation.offset] of each of its
    transactions is set by [store], so the list travels with the store. *)
Definition writer_state : Type := list transaction * t.

(** The body of the loop of [push_transactions] at [position]. *)
Definition push_transaction_at (fuel : nat) (height : N)
    (state : transaction_state) (position : N) (s : writer_state)
    : option (bool * writer_state) :=
  let '(txs, db) := s in
  tx ← txs !! N.to_nat position;
  '(ok, tx', tdb) ←
    transaction_database.store fuel tx height position state
      (transactions_ db);
  let db1 := set_transactions tdb db in
  let txs1 := <[N.to_nat position := tx']> txs in
  if negb ok then Some (false, (txs1, db1))
  else
    let db2 :=
      if index_addresses db1
      then push_stealth tx' height (push_outputs tx' height
                                      (push_inputs tx' height db1))
      else db1 in
    Some (true, (txs1, db2)).

(** [push_transactions(block, height, bucket, buckets, state)]; to push in
    order call with bucket = 0 and buckets = 1 (defaults). *)
Definition push_transactions (fuel : nat) (txs : list transaction)
    (height bucket buckets : N) (state : transaction_state) (db : t)
    : option (bool * writer_state) :=
  let count := N.of_nat (length txs) in
  for_positions (Datatypes.S (length txs)) count buckets
    (push_transaction_at fuel height state) bucket (txs, db).

Fixpoint all_unlinked {A} (unlink : A -> index_databases -> bool * index_databases)
    (items : list A) (indexes : index_databases) : bool * index_databases :=
  match items with
  | [] => (true, indexes)
  | item :: rest =>
      let '(ok, indexes') := unlink item indexes in
      if ok then all_unlinked unlink rest indexes' else (false, indexes')
  end.

Definition pop_inputs (tx : transaction) (db : t) : bool * t :=
  if negb (index_addresses db) || is_coinbase tx then (true, db)
  else
    let '(ok, indexes1) :=
      all_unlinked spends_unlink (previous_output <$> tx_inputs tx)
        (indexes_ db) in
    if negb ok then (false, set_indexes indexes1 db)
    else
      let '(ok', indexes2) :=
        all_unlinked history_unlink_last_row
          (concat (input_addresses <$> tx_inputs tx)) indexes1 in
      (ok', set_indexes indexes2 db).

Definition pop_outputs (tx : transaction) (db : t) : bool * t :=
  if negb (index_addresses db) then (true, db)
  else
    let '(ok, indexes1) :=
      all_unlinked history_unlink_last_row
        (concat (output_addresses <$> tx_outputs tx)) (indexes_ db) in
    (ok, set_indexes indexes1 db).

(** Stealth unlink is not implemented, there is no way to correlate. *)
Definition pop_stealth (tx : transaction) (db : t) : bool * t := (true, db).

Definition pop_transaction_at (fuel : nat) (txs : list transaction)
    (position : N) (db : t) : option (bool * t) :=
  tx ← txs !! N.to_nat position;
  '(ok, tdb) ← transaction_database.pool fuel tx (transactions_ db);
  let db1 := set_transactions tdb db in
  if negb ok then Some (false, db1)
  else if index_addresses db1 then
    let '(ok1, db2) := pop_inputs tx db1 in
    if negb ok1 then Some (false, db2)
    else
      let '(ok2, db3) := pop_outputs tx db2 in
      if negb ok2 then Some (false, db3)
      else
        let '(ok3, db4) := pop_stealth tx db3 in
        Some (ok3, db4)
  else Some (true, db1).

(** [pop_transactions(block, bucket, buckets)] *)
Definition pop_transactions (fuel : nat) (txs : list transaction)
    (bucket buckets : N) (db : t) : option (bool * t) :=
  let count := N.of_nat (length txs) in
  for_positions (Datatypes.S (length txs)) count buckets
    (pop_transaction_at fuel txs) bucket db.

(** *** Synchronous writers *)

(** [push(const transaction& tx, uint32_t forks)] *)
Definition push_transaction (fuel : nat) (tx : transaction) (forks : N)
    (db : t) : option (code * transaction * t) :=
  (* Returns error::unspent_duplicate if an unspent tx with same hash
     exists. *)
  ec ← verify_push_transaction fuel db tx;
  if is_error ec then Some (ec, tx, db)
  else
    let '(began, db1) := begin_write db in
    if negb began then Some (operation_failed, tx, db1)
    else
      (* When position is unconfirmed, height is used to store validation
         forks. *)
      '(_, tx', tdb) ←
        transaction_database.store fuel tx forks
          transaction_database.unconfirmed state.pooled (transactions_ db1);
      let db2 :=
        set_transactions (transaction_database.commit tdb) db1 in
      let '(ended, db3) := end_write db2 in
      Some (if ended then success else operation_failed, tx', db3).

(** [push(const header& header, size_t height)] *)
Definition push_header (head : header) (height : N) (db : t) : code * t :=
  let ec := verify_push_header db head height in
  if is_error ec then (ec, db)
  else
    let '(began, db1) := begin_write db in
    if negb began then (operation_failed, db1)
    else
      let db2 :=
        set_blocks (blocks_commit (blocks_store_header head height (blocks_ db1)))
          db1 in
      let '(ended, db3) := end_write db2 in
      (if ended then success else operation_failed, db3).

(** [push(const block& block, size_t height)] *)
Definition push_block (fuel : nat) (b : block) (height : N) (db : t)
    : option (code * block * t) :=
  let ec := verify_push_block db b height in
  if is_error ec then Some (ec, b, db)
  else
    let '(began, db1) := begin_write db in
    if negb began then Some (operation_failed, b, db1)
    else
      (* Pushes transactions sequentially as confirmed. *)
      '(ok, (txs, db2)) ←
        push_transactions fuel (transactions b) height 0 1 state.confirmed db1;
      let b' := mk_block (block_header b) txs in
      if negb ok then Some (operation_failed, b', db2)
      else
        let db3 :=
          commit (set_blocks (blocks_store_block b' height (blocks_ db2)) db2) in
        let '(ended, db4) := end_write db3 in
        Some (if ended then success else operation_failed, b', db4).

(** The steps [pop(block, height)] and [pop(header, height)] share, for
    the block index ([block_index = true]) or the header index.  Next to
    the code and the store the result holds the block rebuilt from the
    store, where the call got that far, and whether [commit] was reached. *)
Definition pop (fuel : nat) (height : N) (block_index : bool) (db : t)
    : option (code * option block * bool * t) :=
  let ec := verify_top db height block_index in
  if is_error ec then Some (ec, None, false, db)
  else
    let result := blocks_get height block_index (blocks_ db) in
    if negb (result_valid result) then Some (operation_failed, None, false, db)
    else
      (* Create a block for walking transactions. *)
      txs ← to_transactions db result;
      let rebuilt := mk_block (result_header result) txs in
      let '(began, db1) := begin_write db in
      if negb began then Some (operation_failed, Some rebuilt, false, db1)
      else
        '(ok, db2) ← pop_transactions fuel txs 0 1 db1;
        if negb ok then Some (operation_failed, Some rebuilt, false, db2)
        else
          let '(unconfirmed, blocks') :=
            blocks_unconfirm height block_index (blocks_ db2) in
          let db3 := set_blocks blocks' db2 in
          if negb unconfirmed
          then Some (operation_failed, Some rebuilt, false, db3)
          else
            (* Commit everything that was changed. *)
            let db4 := commit db3 in
            let '(ended, db5) := end_write db4 in
            Some (if ended then success else operation_failed,
                  Some rebuilt, true, db5).

(** [pop(chain::block& out_block, size_t height)]: [out_block] is assigned
    once the block is rebuilt. *)
Definition pop_block (fuel : nat) (height : N) (db : t)
    : option (code * option block * t) :=
  '(ec, rebuilt, _, db') ← pop fuel height true db;
  Some (ec, rebuilt, db').

(** [pop(chain::header& out_header, size_t height)]: [out_header] is
    assigned after [commit]. *)
Definition pop_header (fuel : nat) (height : N) (db : t)
    : option (code * option header * t) :=
  '(ec, rebuilt, committed, db') ← pop fuel height false db;
  Some (ec,
        if committed : bool then block_header <$> rebuilt else None,
        db').

(** *** Block push (parallel by tx)

    [do_push] hands one [do_push_transactions] task per bucket to the
    dispatcher and joins them with [bc::synchronize]; neither is part of the
    store.  The tasks are run here under an arbitrary schedule, one turn of
    the loop of [push_transactions] at a time: a schedule is the list of the
    buckets whose task takes the next turn. *)

Inductive task :=
  | running (position : N)
  | finished.

Inductive event :=
  | transaction_pushed (bucket : nat) (position : N)
  | block_stored.

#[global] Instance event_eq_dec : EqDecision event.
Proof. solve_decision. Defined.

(** [shared] is the block and the store the tasks write to, [counter] the
    count of the synchronizer, [handled] the code [handler] was invoked
    with, [trace] the pushes and the block store in the order they
    happened, newest first. *)
Record push_state := mk_push {
  shared : writer_state;
  tasks : list task;
  counter : N;
  handled : option code;
  trace : list event
}.

(** [handle_do_push_transactions(ec, block, height, handler)] *)
Definition handle_do_push_transactions (ec : code) (head : header)
    (height : N) (ps : push_state) : push_state :=
  if is_error ec then
    mk_push (shared ps) (tasks ps) (counter ps) (Some ec) (trace ps)
  else
    let '(txs, db) := shared ps in
    let b := mk_block head txs in
    let db' := commit (set_blocks (blocks_store_block b height (blocks_ db)) db) in
    mk_push (txs, db') (tasks ps) (counter ps) (Some success)
      (block_stored :: trace ps).

(** The handler [bc::synchronize(block_complete, buckets, ...)] returns: a
    call after the count was cleared is ignored; an error clears the count
    at once, a success advances it; the call that clears it invokes
    [block_complete]. *)
Definition join_handler (ec : code) (head : header) (height buckets : N)
    (ps : push_state) : push_state :=
  if counter ps =? buckets then ps
  else
    let count := if is_error ec then buckets else counter ps + 1 in
    let ps' := mk_push (shared ps) (tasks ps) count (handled ps) (trace ps) in
    if count =? buckets then handle_do_push_transactions ec head height ps'
    else ps'.

(** [do_push(block, height, dispatch, handler)] up to the point where the
    tasks are handed to the dispatcher; [threads] is [dispatch.size()]. *)
Definition do_push (b : block) (height threads : N) (db : t) : push_state :=
  let start := mk_push (transactions b, db) [] 0 None [] in
  let ec := verify_push_block db b height in
  if is_error ec then
    handle_do_push_transactions ec (block_header b) height start
  else
    let buckets := N.min threads (N.of_nat (length (transactions b))) in
    mk_push (transactions b, db)
      ((fun bucket => running (N.of_nat bucket)) <$> seq 0 (N.to_nat buckets))
      0 None [].

(** One turn of the task of [bucket]: [do_push_transactions] is
    [push_transactions(block, height, bucket, buckets)] followed by the
    call of the join handler with its result. *)
Definition run_task (fuel : nat) (head : header) (height buckets : N)
    (bucket : nat) (ps : push_state) : option push_state :=
  match tasks ps !! bucket with
  | Some (running position) =>
      let count := N.of_nat (length (fst (shared ps))) in
      t ← loop_turn count buckets
             (push_transaction_at fuel height state.confirmed) position
             (shared ps);
      match t with
      | next_position position' s' =>
          Some (mk_push s' (<[bucket := running position']> (tasks ps))
                  (counter ps) (handled ps)
                  (transaction_pushed bucket position :: trace ps))
      | returned ok s' =>
          Some (join_handler (if ok then success else operation_failed)
                  head height buckets
                  (mk_push s' (<[bucket := finished]> (tasks ps))
                     (counter ps) (handled ps) (trace ps)))
      end
  | _ => Some ps
  end.

Fixpoint execute (fuel : nat) (head : header) (height buckets : N)
    (schedule : list nat) (ps : push_state) : option push_state :=
  match schedule with
  | [] => Some ps
  | bucket :: rest =>
      ps' ← run_task fuel head height buckets bucket ps;
      execute fuel head height buckets rest ps'
  end.

(** A loop body that only records the position it is handed. *)
Definition record_position (position : N) (visited : list N)
    : option (bool * list N) :=
  Some (true, position :: visited).

#[global] Instance task_eq_dec : EqDecision task.
Proof. solve_decision. Defined.

(** The number of tasks that have called the join handler. *)
Definition finished_count (ts : list task) : nat :=
  length (filter (fun task => task = finished) ts).

(** What holds of every state a schedule can reach from [do_push], for a
    block of [count] transactions and [buckets] tasks:
    - a push of [position] by [bucket] happened at most once, for a position
      of the block in the residue class of the bucket;
    - a running task has pushed exactly the positions of its class below its
      loop variable;
    - while the synchronizer has not cleared, the block is not stored, the
      count is the number of finished tasks, and each of them has pushed
      its whole class;
    - once the block is stored, that was the last thing to happen, every
      task has finished and every position of the block was pushed. *)
Record push_invariant (count buckets : N) (ps : push_state) : Prop := {
  inv_count : N.of_nat (length (fst (shared ps))) = count;
  inv_tasks : length (tasks ps) = N.to_nat buckets;
  inv_nodup : NoDup (trace ps);
  inv_events : forall bucket position,
    transaction_pushed bucket position ∈ trace ps ->
    position < count /\ position mod buckets = N.of_nat bucket;
  inv_running : forall bucket position,
    tasks ps !! bucket = Some (running position) ->
    (position < count -> position mod buckets = N.of_nat bucket) /\
    forall q, q < count -> q mod buckets = N.of_nat bucket ->
      (transaction_pushed bucket q ∈ trace ps <-> q < position);
  inv_counter :
    counter ps <> buckets ->
    (block_stored ∉ trace ps) /\
    counter ps = N.of_nat (finished_count (tasks ps)) /\
    forall bucket, tasks ps !! bucket = Some finished ->
      forall q, q < count -> q mod buckets = N.of_nat bucket ->
        transaction_pushed bucket q ∈ trace ps;
  inv_block :
    block_stored ∈ trace ps ->
    handled ps = Some success /\
    (exists pushes, trace ps = block_stored :: pushes) /\
    (forall bucket, (bucket < N.to_nat buckets)%nat ->
       tasks ps !! bucket = Some finished) /\
    forall q, q < count ->
      transaction_pushed (N.to_nat (q mod buckets)) q ∈ trace ps
}.



End with_parts.

End data_base.

(** ** Sample data for the concrete checks *)

Module sample.

(** Two two-byte keys that fall into bucket 1 of four. *)
Definition key_a : key_type := [x01; x02].
Definition key_b : key_type := [x05; x02].

Definition slab_table : slab_hash_table.t := slab_hash_table.created 4 2.
Definition record_table : record_hash_table.t := record_hash_table.created 4 2.

(** A chain library for the concrete checks: the v3 record layout of the
    comment in transaction_database.cpp,
    [ output_count ][ [ spender_height:4 ][ value:8 ][ script ] ]...
    [ input_count ][ [ hash:32 ][ index:2 ][ script ][ sequence:4 ] ]...
    [ locktime ][ version ], an output being spent at a fork height when
    its spender height is set and not above it. *)
Definition write_size (n : N) : list byte :=
  if n <? 253 then serial.to_little_endian 1 n
  else if n <=? max_uint16 then xfd :: serial.to_little_endian 2 n
  else if n <=? max_uint32 then xfe :: serial.to_little_endian 4 n
  else xff :: serial.to_little_endian 8 n.

Definition output_to_data (out : output) : list byte :=
  serial.to_little_endian 4 (spender_height out)
  ++ serial.to_little_endian 8 (output_value out)
  ++ write_size (N.of_nat (length (output_script out)))
  ++ output_script out.

Definition input_to_data (i : input) : list byte :=
  point_hash (previous_output i)
  ++ serial.to_little_endian 2 (point_index (previous_output i))
  ++ write_size (N.of_nat (length (input_script i)))
  ++ input_script i
  ++ serial.to_little_endian 4 (sequence i).

Definition to_data (tx : transaction) : list byte :=
  write_size (N.of_nat (length (tx_outputs tx)))
  ++ concat (output_to_data <$> tx_outputs tx)
  ++ write_size (N.of_nat (length (tx_inputs tx)))
  ++ concat (input_to_data <$> tx_inputs tx)
  ++ write_size (locktime tx)
  ++ write_size (version tx).

Definition parse_output (buffer : list byte) (cursor : nat)
    : option (output * nat) :=
  '(height, cursor1) ← serial.read_4_bytes_little_endian buffer cursor;
  '(value, cursor2) ← serial.read_8_bytes_little_endian buffer cursor1;
  '(size, cursor3) ← serial.read_size_little_endian buffer cursor2;
  script ← serial.read_bytes buffer cursor3 (N.to_nat size);
  Some (mk_output value script height, serial.skip size cursor3).

Definition parse_input (buffer : list byte) (cursor : nat)
    : option (input * nat) :=
  hash ← serial.read_bytes buffer cursor hash_size;
  '(index, cursor1) ←
    serial.read_2_bytes_little_endian buffer (cursor + hash_size)%nat;
  '(size, cursor2) ← serial.read_size_little_endian buffer cursor1;
  script ← serial.read_bytes buffer cursor2 (N.to_nat size);
  '(sequence, cursor3) ←
    serial.read_4_bytes_little_endian buffer (serial.skip size cursor2);
  Some (mk_input
          (mk_point hash (if index =? max_uint16 then null_index else index))
          script sequence, cursor3).

Fixpoint parse_many {A} (parse : list byte -> nat -> option (A * nat))
    (count : nat) (buffer : list byte) (cursor : nat)
    : option (list A * nat) :=
  match count with
  | O => Some ([], cursor)
  | S count' =>
      '(item, cursor1) ← parse buffer cursor;
      '(items, cursor2) ← parse_many parse count' buffer cursor1;
      Some (item :: items, cursor2)
  end.

Definition from_data (buffer : list byte) (cursor : nat) (hash : hash_digest)
    : option transaction :=
  '(outputs, cursor1) ← serial.read_size_little_endian buffer cursor;
  '(outs, cursor2) ← parse_many parse_output (N.to_nat outputs) buffer cursor1;
  '(inputs, cursor3) ← serial.read_size_little_endian buffer cursor2;
  '(ins, cursor4) ← parse_many parse_input (N.to_nat inputs) buffer cursor3;
  '(locktime, cursor5) ← serial.read_size_little_endian buffer cursor4;
  '(version, _) ← serial.read_size_little_endian buffer cursor5;
  Some (mk_transaction hash ins outs locktime version 0).

Definition spent_at (out : output) (fork_height : N) (flag : bool) : bool :=
  negb (spender_height out =? not_spent) && (spender_height out <=? fork_height).

#[local] Instance chain_v3 : chain_library :=
  {| output_factory := parse_output;
     output_spent := spent_at;
     transaction_to_data := to_data;
     transaction_factory := from_data;
     unverified := 2 ^ 31;
     unspecified := max_size_t |}.

(** A coinbase transaction with one 50 coin output, and the point of that
    output. *)
Definition coinbase_hash : hash_digest := replicate hash_size x11.

Definition coinbase_tx : transaction :=
  mk_transaction coinbase_hash
    [mk_input (mk_point null_hash null_index) [x04] max_uint32]
    [mk_output 5000000000 [x51] not_spent] 0 1 0.

Definition coinbase_point : output_point := mk_point coinbase_hash 0.

Definition no_metadata : prevout_validation :=
  mk_validation false false 0 default_output.

Definition empty_database : transaction_database.t :=
  transaction_database.created 4 16.

(** The coinbase transaction with the spender height of its output set. *)
Definition coinbase_spent_at (height : N) : transaction :=
  mk_transaction coinbase_hash
    [mk_input (mk_point null_hash null_index) [x04] max_uint32]
    [mk_output 5000000000 [x51] height] 0 1 0.

(** The slab [store] writes for a transaction. *)
Definition slab_of (height position : N) (state : transaction_state)
    (tx : transaction) : list byte :=
  serial.to_little_endian 4 height ++ serial.to_little_endian 2 position
  ++ serial.to_little_endian 1 state ++ to_data tx.

(** The database holding that one slab: the row is at offset 8, in bucket 1
    of four, its value at offset 8 + 32 + 8 = 48. *)
Definition database_of (bytes : list byte)
    (cached : list unspent_outputs.entry) : transaction_database.t :=
  transaction_database.mk
    (slab_hash_table.mk [0; 8; 0; 0]
       (slab_hash_table.mk_manager (48 + N.of_nat (length bytes))
          {[ 8 := mk_row coinbase_hash 0 bytes ]})
       (N.of_nat hash_size))
    (unspent_outputs.mk 16 cached).

Definition coinbase_entry (height : N) : unspent_outputs.entry :=
  unspent_outputs.mk_entry coinbase_point
    (mk_output 5000000000 [x51] not_spent) height true.

(** Sub-databases for the concrete checks: the two indexes of the block
    database as lists of headers with the offsets of their transactions
    (genesis first), the index databases as the lists of their rows; a
    script stands for the address it pays to. *)
Record index_rows := mk_rows {
  spend_rows : list (output_point * data_base.input_point);
  history_rows : list (data_base.short_hash * data_base.payment_record);
  stealth_rows : list data_base.stealth_record
}.

#[global] Instance input_point_eq_dec : EqDecision data_base.input_point.
Proof. solve_decision. Defined.

Definition block_rows : Type := list (data_base.header * list file_offset).

Definition rows_of (block_index : bool) (db : block_rows * block_rows)
    : block_rows :=
  if block_index then snd db else fst db.

Definition top_of (rows : block_rows) : option N :=
  match rows with
  | [] => None
  | _ :: rest => Some (N.of_nat (length rest))
  end.

Definition result_at (height : N) (rows : block_rows)
    : data_base.block_result :=
  match rows !! N.to_nat height with
  | Some (head, offsets) =>
      data_base.mk_block_result true (data_base.header_hash head) head offsets
  | None =>
      data_base.mk_block_result false null_hash
        (data_base.mk_header null_hash null_hash) []
  end.

Definition unconfirm_at (height : N) (block_index : bool)
    (db : block_rows * block_rows) : bool * (block_rows * block_rows) :=
  let rows := rows_of block_index db in
  if bool_decide (top_of rows = Some height) then
    let rows' := take (N.to_nat height) rows in
    (true, if block_index then (fst db, rows') else (rows', snd db))
  else (false, db).

Fixpoint remove_first {A} (test : A -> bool) (rows : list A)
    : bool * list A :=
  match rows with
  | [] => (false, [])
  | row :: rest =>
      if test row then (true, rest)
      else let '(ok, rest') := remove_first test rest in (ok, row :: rest')
  end.

#[local] Instance parts : data_base.sub_databases :=
  {| data_base.block_database := block_rows * block_rows;
     data_base.blocks_top := fun block_index db =>
       top_of (rows_of block_index db);
     data_base.blocks_get := fun height block_index db =>
       result_at height (rows_of block_index db);
     data_base.blocks_store_header := fun head height db =>
       (fst db ++ [(head, [])], snd db);
     data_base.blocks_store_block := fun b height db =>
       (fst db,
        snd db ++ [(data_base.block_header b,
                    validation_offset <$> data_base.transactions b)]);
     data_base.blocks_unconfirm := unconfirm_at;
     data_base.blocks_commit := fun db => db;
     data_base.index_databases := index_rows;
     data_base.spends_store := fun prevout point rows =>
       mk_rows ((prevout, point) :: spend_rows rows) (history_rows rows)
         (stealth_rows rows);
     data_base.spends_unlink := fun prevout rows =>
       let '(ok, spends) :=
         remove_first (fun row => bool_decide (fst row = prevout))
           (spend_rows rows) in
       (ok, mk_rows spends (history_rows rows) (stealth_rows rows));
     data_base.history_store := fun address row rows =>
       mk_rows (spend_rows rows) ((address, row) :: history_rows rows)
         (stealth_rows rows);
     data_base.history_unlink_last_row := fun address rows =>
       let '(ok, history) :=
         remove_first (fun row => bool_decide (fst row = address))
           (history_rows rows) in
       (ok, mk_rows (spend_rows rows) history (stealth_rows rows));
     data_base.stealth_store := fun row rows =>
       mk_rows (spend_rows rows) (history_rows rows) (row :: stealth_rows rows);
     data_base.indexes_commit := fun rows => rows;
     data_base.input_addresses := fun i => [];
     data_base.output_addresses := fun out => [output_script out];
     data_base.output_address := fun out => Some (output_script out);
     data_base.point_checksum := fun point => point_index point;
     data_base.extract_ephemeral_key := fun script => None;
     data_base.to_stealth_prefix := fun script => None |}.

Definition genesis_header : data_base.header :=
  data_base.mk_header (replicate hash_size x01) null_hash.

(** The store after the genesis block: its header and block at height 0,
    its coinbase in the transaction database. *)
Definition genesis_store : data_base.t :=
  data_base.mk ([(genesis_header, [])], [(genesis_header, [48])])
    (database_of (slab_of 0 0 state.confirmed coinbase_tx) [coinbase_entry 0])
    (mk_rows [] [] []) false false true.

(** Three transactions without inputs, for a block pushed in parallel. *)
Definition plain_tx (tag : byte) : transaction :=
  mk_transaction (replicate hash_size tag) []
    [mk_output 1 [tag] not_spent] 0 1 0.

Definition next_header : data_base.header :=
  data_base.mk_header (replicate hash_size x02) (replicate hash_size x01).

Definition next_block : data_base.block :=
  data_base.mk_block next_header [plain_tx x21; plain_tx x22; plain_tx x23].

End sample.

(** * Theorems *)

(** ** Theorems: the memory mapped file *)

Module mmfile_facts.
Import mmfile.

Lemma reserve_within sys n m :
  n <= size_ m -> reserve sys n m = (true, m).
Proof.
  intros Hle. unfold reserve.
  destruct (N.leb_spec n (size_ m)) as [_ | Hlt]; [reflexivity | lia].
Qed.

Lemma reserve_beyond sys n m :
  size_ m < n -> reserve sys n m = resize sys (to_size_t (n * 3) / 2) m.
Proof.
  intros Hlt. unfold reserve.
  destruct (N.leb_spec n (size_ m)) as [Hle | _]; [lia | reflexivity].
Qed.

Lemma resize_file_length sys k m :
  ftruncate_ok sys (file_handle_ m) k = true ->
  file_length (snd (resize sys k m)) = k.
Proof.
  intros Hok. unfold resize, remap, unmap, map, validate. rewrite Hok. simpl.
  destruct (MREMAP_MAYMOVE sys).
  - destruct (mremap_at _ _ _ _); reflexivity.
  - destruct (munmap_ok _ _ _); simpl; [| reflexivity].
    destruct (k =? 0); simpl; [reflexivity |].
    destruct (mmap_at _ _ _); reflexivity.
Qed.

Lemma resize_refused sys k m :
  ftruncate_ok sys (file_handle_ m) k = false -> resize sys k m = (false, m).
Proof. intros Hko. unfold resize. rewrite Hko. reflexivity. Qed.

Lemma three_halves_floor n :
  n * 3 <= max_size_t -> to_size_t (n * 3) / 2 = n + n / 2.
Proof.
  intros Hb. unfold to_size_t, max_size_t, max_uint64 in *.
  rewrite N.mod_small by lia.
  replace (n * 3) with (n + n * 2) by lia.
  rewrite N.div_add by lia. lia.
Qed.

(** C8, the claim as written fails: asked for three bytes on a two byte
    file, the code truncates the file to 3 * 3 / 2 = 4 bytes, not to
    ceil(4.5) = 5. *)
Lemma reserve_is_not_ceil :
  file_length (snd (reserve sys_ok 3 two_bytes)) = 4 /\
  spec_ceil_three_halves 3 = 5 /\
  reserve sys_ok 3 two_bytes <> resize sys_ok (spec_ceil_three_halves 3) two_bytes.
Proof. repeat split; vm_compute; congruence. Qed.

(** C8 (amended): [reserve n] with [n <= size_] returns true and changes
    nothing; otherwise it is [resize] at [n * 3 / 2] computed in [size_t]
    arithmetic, that is at the floor [n + n / 2] whenever [n * 3] does not
    wrap, and that is the length the file is truncated to when [ftruncate]
    accepts the call ([resize] returns false and changes nothing when it
    does not). *)
Theorem reserve_growth sys n m :
  (n <= size_ m -> reserve sys n m = (true, m)) /\
  (size_ m < n ->
     reserve sys n m = resize sys (to_size_t (n * 3) / 2) m /\
     (n * 3 <= max_size_t -> to_size_t (n * 3) / 2 = n + n / 2) /\
     (ftruncate_ok sys (file_handle_ m) (to_size_t (n * 3) / 2) = true ->
        file_length (snd (reserve sys n m)) = to_size_t (n * 3) / 2) /\
     (ftruncate_ok sys (file_handle_ m) (to_size_t (n * 3) / 2) = false ->
        reserve sys n m = (false, m))).
Proof.
  split; [apply reserve_within |].
  intros Hlt. rewrite (reserve_beyond _ _ _ Hlt).
  repeat split.
  - apply three_halves_floor.
  - apply resize_file_length.
  - apply resize_refused.
Qed.

Lemma reserve_growth_witness :
  reserve sys_ok 3 two_bytes = resize sys_ok 4 two_bytes /\
  file_length (snd (reserve sys_ok 3 two_bytes)) = 4 /\
  reserve sys_ok 2 two_bytes = (true, two_bytes).
Proof.
  destruct (reserve_growth sys_ok 3 two_bytes) as [_ Hgrow].
  destruct (reserve_growth sys_ok 2 two_bytes) as [Hkeep _].
  destruct Hgrow as (Hres & _ & Hlen & _); [vm_compute; reflexivity |].
  split; [exact Hres |].
  split; [apply Hlen; reflexivity |].
  apply Hkeep. vm_compute. congruence.
Defined.

End mmfile_facts.

(** ** Theorems: the slab hash table *)

Module slab_facts.
Import slab_hash_table.

Implicit Types (table : t) (key : key_type) (value : list byte).

Lemma bucket_in_range table key :
  header_ table <> [] ->
  (N.to_nat (bucket_index table key) < length (header_ table))%nat.
Proof.
  intros Hne. unfold bucket_index, remainder.
  assert (N.of_nat (length (header_ table)) <> 0) as Hlen.
  { destruct (header_ table); [congruence | simpl; lia]. }
  pose proof (N.mod_upper_bound (from_little_endian key) _ Hlen). lia.
Qed.

Lemma read_bucket_value_some table key :
  header_ table <> [] -> is_Some (read_bucket_value table key).
Proof.
  intros Hne. apply lookup_lt_is_Some_2. by apply bucket_in_range.
Qed.

Lemma store_stored table key value value_size first :
  read_bucket_value table key = Some first ->
  store key value value_size table
  = Some (payload_size (manager_ table) + prefix_size table,
          stored table key value value_size first).
Proof.
  intros Hfirst. unfold store, create, new_slab, row_link, write_next_position.
  cbn -[N.add]. unfold read_bucket_value, bucket_index in *. cbn -[N.add].
  rewrite Hfirst. cbn -[N.add].
  unfold slab_row, put_row. cbn -[N.add]. rewrite lookup_insert_eq. cbn -[N.add].
  rewrite insert_insert_eq. reflexivity.
Qed.

Lemma stored_bucket_index table key value value_size first key' :
  bucket_index (stored table key value value_size first) key'
  = bucket_index table key'.
Proof. unfold bucket_index, stored. cbn. by rewrite length_insert. Qed.

Lemma stored_head table key value value_size first :
  header_ table <> [] ->
  read_bucket_value (stored table key value value_size first) key
  = Some (payload_size (manager_ table)).
Proof.
  intros Hne. unfold read_bucket_value.
  rewrite stored_bucket_index. cbn.
  apply list_lookup_insert_eq. by apply bucket_in_range.
Qed.

Lemma stored_row table key value value_size first :
  slab_row (stored table key value value_size first)
    (payload_size (manager_ table))
  = Some (mk_row key first value).
Proof. unfold slab_row, stored. cbn. apply lookup_insert_eq. Qed.

Lemma stored_row_old table key value value_size first position item :
  wf table ->
  slab_row table position = Some item ->
  slab_row (stored table key value value_size first) position = Some item.
Proof.
  intros Hwf Hrow. unfold slab_row, stored. cbn.
  rewrite lookup_insert_ne; [exact Hrow |].
  apply (wf_below _ Hwf) in Hrow. lia.
Qed.

Lemma stored_linked table key value value_size first position :
  wf table -> linked table position ->
  linked (stored table key value value_size first) position.
Proof.
  intros Hwf [-> | [item Hrow]]; [by left | right].
  exists item. by apply stored_row_old.
Qed.

(** [store] keeps the invariant. *)
Lemma stored_wf table key value value_size first :
  wf table ->
  read_bucket_value table key = Some first ->
  wf (stored table key value value_size first).
Proof.
  intros Hwf Hfirst.
  assert (linked table first) as Hlinked by (eapply wf_heads; eauto).
  split.
  - cbn. intros Hnil. apply (f_equal length) in Hnil.
    rewrite length_insert in Hnil.
    destruct (header_ table) eqn:Hh; [by apply (wf_buckets _ Hwf) | done].
  - cbn. pose proof (wf_payload _ Hwf). lia.
  - intros position item. unfold slab_row, stored, prefix_size. cbn.
    destruct (decide (payload_size (manager_ table) = position)) as [<- | Hne].
    + intros _. lia.
    + rewrite lookup_insert_ne by done. intros Hrow.
      apply (wf_below _ Hwf) in Hrow. lia.
  - intros i head. cbn. intros Hhead.
    apply list_lookup_insert_Some in Hhead
      as [(_ & <- & _) | (_ & Hhead)].
    + right. rewrite stored_row. eauto.
    + apply stored_linked; [done |]. eapply wf_heads; eauto.
  - intros position item. unfold slab_row at 1, stored at 1. cbn.
    destruct (decide (payload_size (manager_ table) = position)) as [<- | Hne].
    + rewrite lookup_insert_eq. intros [= <-]. cbn.
      by apply stored_linked.
    + rewrite lookup_insert_ne by done. intros Hrow.
      apply stored_linked; [done |]. eapply wf_nexts; eauto.
Qed.

Lemma created_wf buckets key_bytes :
  (0 < buckets)%nat -> wf (created buckets key_bytes).
Proof.
  intros Hb. split; cbn.
  - destruct buckets; [lia | done].
  - lia.
  - intros position item. unfold slab_row. cbn. by rewrite lookup_empty.
  - intros i head Hhead. apply lookup_replicate in Hhead as [-> _]. by left.
  - intros position item. unfold slab_row. cbn. by rewrite lookup_empty.
Qed.

(** [find] meets the row just stored first. *)
Lemma find_stored fuel table key value value_size first :
  wf table ->
  find (S fuel) (stored table key value value_size first) key
  = Some (Some (payload_size (manager_ table) + prefix_size table)).
Proof.
  intros Hwf. unfold find.
  rewrite stored_head by apply (wf_buckets _ Hwf). cbn -[stored N.eqb].
  pose proof (wf_payload _ Hwf) as Hpos.
  destruct (N.eqb_spec (payload_size (manager_ table)) empty) as [Hz | _].
  { unfold empty in Hz. lia. }
  rewrite stored_row. cbn -[stored].
  unfold compare. cbn. rewrite bool_decide_eq_true_2 by done.
  reflexivity.
Qed.

Lemma value_at_stored table key value value_size first :
  value_at (stored table key value value_size first)
    (payload_size (manager_ table) + prefix_size table)
  = Some value.
Proof.
  unfold value_at.
  replace (prefix_size (stored table key value value_size first))
    with (prefix_size table) by reflexivity.
  destruct (N.ltb_spec (payload_size (manager_ table) + prefix_size table)
              (prefix_size table)) as [Hlt | _]; [lia |].
  replace (payload_size (manager_ table) + prefix_size table
           - prefix_size table) with (payload_size (manager_ table)) by lia.
  by rewrite stored_row.
Qed.

Lemma find_loop_extends fuel table table' key current :
  wf table -> extends table table' -> linked table current ->
  find_loop fuel table' key current = find_loop fuel table key current.
Proof.
  intros Hwf [Hks Hext]. revert current.
  induction fuel as [| fuel IH]; intros current Hlinked; cbn.
  - reflexivity.
  - destruct (current =? empty) eqn:Hempty; [reflexivity |].
    destruct Hlinked as [-> | [item Hrow]]; [done |].
    rewrite Hrow, (Hext _ _ Hrow). cbn.
    destruct (compare item key).
    + unfold data, prefix_size. by rewrite Hks.
    + apply IH. eapply wf_nexts; eauto.
Qed.

Lemma chain_from_extends fuel table table' current :
  wf table -> extends table table' -> linked table current ->
  chain_from fuel table' current = chain_from fuel table current.
Proof.
  intros Hwf [Hks Hext]. revert current.
  induction fuel as [| fuel IH]; intros current Hlinked; cbn.
  - reflexivity.
  - destruct (current =? empty) eqn:Hempty; [reflexivity |].
    destruct Hlinked as [-> | [item Hrow]]; [done |].
    rewrite Hrow, (Hext _ _ Hrow). f_equal.
    apply IH. eapply wf_nexts; eauto.
Qed.

Lemma stored_extends table key value value_size first :
  wf table -> extends table (stored table key value value_size first).
Proof.
  intros Hwf. split; [reflexivity |].
  intros position item. by apply stored_row_old.
Qed.

(** The traversal of the bucket meets the new row, then the old chain. *)
Lemma chain_stored fuel table key value value_size first :
  wf table ->
  read_bucket_value table key = Some first ->
  chain (S fuel) (stored table key value value_size first) key
  = (payload_size (manager_ table), mk_row key first value)
      :: chain fuel table key.
Proof.
  intros Hwf Hfirst. unfold chain.
  rewrite stored_head by apply (wf_buckets _ Hwf). rewrite Hfirst.
  cbn -[stored N.eqb].
  pose proof (wf_payload _ Hwf) as Hpos.
  destruct (N.eqb_spec (payload_size (manager_ table)) empty) as [Hz | _].
  { unfold empty in Hz. lia. }
  rewrite stored_row. f_equal.
  apply chain_from_extends; [done | by apply stored_extends |].
  eapply wf_heads; eauto.
Qed.

Lemma unlink_stored fuel table key value value_size first :
  wf table ->
  read_bucket_value table key = Some first ->
  unlink fuel key (stored table key value value_size first)
  = Some (true, unlinked table key value value_size first).
Proof.
  intros Hwf Hfirst. unfold unlink.
  rewrite stored_head by apply (wf_buckets _ Hwf). cbn -[stored].
  rewrite stored_row. cbn -[stored].
  unfold compare. cbn -[stored]. rewrite bool_decide_eq_true_2 by done.
  do 2 f_equal. unfold link, unlinked.
  rewrite stored_bucket_index. cbn. f_equal.
  rewrite list_insert_insert_eq. by apply list_insert_id.
Qed.

Lemma unlinked_extends table key value value_size first :
  wf table -> extends table (unlinked table key value value_size first).
Proof.
  intros Hwf. split; [reflexivity |].
  intros position item Hrow.
  by apply (stored_row_old _ key value value_size first) in Hrow.
Qed.

Lemma find_unlinked fuel table key value value_size first key' :
  wf table ->
  find fuel (unlinked table key value value_size first) key'
  = find fuel table key'.
Proof.
  intros Hwf. unfold find.
  replace (read_bucket_value (unlinked table key value value_size first) key')
    with (read_bucket_value table key') by reflexivity.
  destruct (read_bucket_value table key') as [current |] eqn:Hhead;
    [cbn | reflexivity].
  apply find_loop_extends; [done | by apply unlinked_extends |].
  eapply wf_heads; eauto.
Qed.

Lemma chain_unlinked fuel table key value value_size first key' :
  wf table ->
  chain fuel (unlinked table key value value_size first) key'
  = chain fuel table key'.
Proof.
  intros Hwf. unfold chain.
  replace (read_bucket_value (unlinked table key value value_size first) key')
    with (read_bucket_value table key') by reflexivity.
  destruct (read_bucket_value table key') as [current |] eqn:Hhead;
    [| reflexivity].
  apply chain_from_extends; [done | by apply unlinked_extends |].
  eapply wf_heads; eauto.
Qed.

Lemma value_at_extends table table' address value :
  extends table table' ->
  value_at table address = Some value -> value_at table' address = Some value.
Proof.
  intros [Hks Hext]. unfold value_at, prefix_size. rewrite Hks.
  destruct (address <? key_size table + 8); [done |].
  destruct (slab_row table _) as [item |] eqn:Hrow; [| done].
  by rewrite (Hext _ _ Hrow).
Qed.

(** Fuel left over does not change the answer of a finished search. *)
Lemma find_loop_more fuel table key current result :
  find_loop fuel table key current = Some result ->
  find_loop (S fuel) table key current = Some result.
Proof.
  revert current. induction fuel as [| fuel IH]; intros current.
  - cbn. destruct (current =? empty); [done | discriminate].
  - intros Hrun. cbn in Hrun. cbn.
    destruct (current =? empty); [exact Hrun |].
    destruct (slab_row table current) as [item |]; [| discriminate].
    cbn in *. destruct (compare item key); [exact Hrun |].
    by apply IH in Hrun.
Qed.

(** A [store] under another key leaves what [find] returns for [key]. *)
Lemma find_stored_other fuel table key key' value' value_size' first result :
  wf table ->
  key' <> key ->
  read_bucket_value table key' = Some first ->
  find fuel table key = Some result ->
  find (S fuel) (stored table key' value' value_size' first) key = Some result.
Proof.
  intros Hwf Hother Hfirst Hfind.
  pose proof (stored_extends table key' value' value_size' first Hwf) as Hext.
  unfold find in *. unfold read_bucket_value in *.
  rewrite stored_bucket_index.
  destruct (decide (bucket_index table key' = bucket_index table key))
    as [Hsame | Hdiff].
  - rewrite <- Hsame in *. cbn -[find_loop].
    rewrite list_lookup_insert_eq by (apply bucket_in_range, Hwf).
    rewrite Hfirst in Hfind. cbn -[stored N.eqb] in *.
    rewrite (proj2 (N.eqb_neq _ _)).
    2:{ pose proof (wf_payload _ Hwf). unfold empty. lia. }
    rewrite stored_row. cbn -[stored].
    unfold compare. cbn -[stored]. rewrite bool_decide_eq_false_2 by done.
    rewrite (find_loop_extends _ table); [done .. |].
    eapply wf_heads; eauto.
  - cbn -[find_loop].
    rewrite list_lookup_insert_ne by lia.
    destruct (header_ table !! N.to_nat (bucket_index table key))
      as [current |] eqn:Hhead; [| discriminate].
    cbn -[find_loop stored] in *.
    rewrite (find_loop_extends _ table); [by apply find_loop_more | done .. |].
    eapply wf_heads; eauto.
Qed.

(** What a search for [key] finds survives any run of stores under other
    keys, given one more unit of fuel for each. *)
Lemma find_store_all_others entries : forall fuel table key address value,
  wf table ->
  Forall (fun entry => entry.1.1 <> key) entries ->
  find fuel table key = Some (Some address) ->
  value_at table address = Some value ->
  exists table',
    store_all entries table = Some table' /\ wf table' /\
    find (length entries + fuel) table' key = Some (Some address) /\
    value_at table' address = Some value.
Proof.
  induction entries as [| [[key' value'] value_size'] rest IH];
    intros fuel table key address value Hwf Hothers Hfind Hvalue.
  - exists table. by cbn.
  - apply Forall_cons in Hothers as [Hother Hrest]. cbn in Hother.
    destruct (read_bucket_value_some table key' (wf_buckets _ Hwf))
      as [first Hfirst].
    cbn [store_all]. rewrite (store_stored _ _ _ _ _ Hfirst). cbn [mbind option_bind].
    destruct (IH (S fuel) (stored table key' value' value_size' first)
                key address value) as (table' & Hrun & Hwf' & Hfind' & Hvalue').
    + by apply stored_wf.
    + exact Hrest.
    + by apply find_stored_other.
    + eapply value_at_extends; [by apply stored_extends | done].
    + exists table'. split; [exact Hrun |]. split; [exact Hwf' |].
      split; [| exact Hvalue'].
      replace (length ((key', value', value_size') :: rest) + fuel)%nat
        with (length rest + S fuel)%nat by (cbn; lia).
      exact Hfind'.
Qed.

(** C1: on a well-formed table [store key value] succeeds and [find key]
    then returns the address [store] returned, where [value] is read; this
    stays so across stores under other keys; and after a later
    [store key value'] (again followed by any stores under other keys)
    [find key] returns the address of that newer row, which holds
    [value']. *)
Theorem find_returns_latest table key value value_size value' value_size'
    others others' fuel :
  wf table ->
  Forall (fun entry => entry.1.1 <> key) others ->
  Forall (fun entry => entry.1.1 <> key) others' ->
  exists address table1 table2 address' table3 table4,
    store key value value_size table = Some (address, table1) /\
    find (S fuel) table1 key = Some (Some address) /\
    store_all others table1 = Some table2 /\
    find (length others + S fuel) table2 key = Some (Some address) /\
    value_at table2 address = Some value /\
    store key value' value_size' table2 = Some (address', table3) /\
    find (S fuel) table3 key = Some (Some address') /\
    store_all others' table3 = Some table4 /\
    find (length others' + S fuel) table4 key = Some (Some address') /\
    value_at table4 address' = Some value'.
Proof.
  intros Hwf Hothers Hothers'.
  destruct (read_bucket_value_some table key (wf_buckets _ Hwf))
    as [first Hfirst].
  pose proof (stored_wf _ key value value_size _ Hwf Hfirst) as Hwf1.
  destruct (find_store_all_others others (S fuel) _ key _ value Hwf1 Hothers
              (find_stored fuel table key value value_size first Hwf)
              (value_at_stored table key value value_size first))
    as (table2 & Hrun & Hwf2 & Hfind2 & Hvalue2).
  destruct (read_bucket_value_some table2 key (wf_buckets _ Hwf2))
    as [first' Hfirst'].
  pose proof (stored_wf _ key value' value_size' _ Hwf2 Hfirst') as Hwf3.
  destruct (find_store_all_others others' (S fuel) _ key _ value' Hwf3 Hothers'
              (find_stored fuel table2 key value' value_size' first' Hwf2)
              (value_at_stored table2 key value' value_size' first'))
    as (table4 & Hrun' & Hwf4 & Hfind4 & Hvalue4).
  eexists _, _, table2, _, _, table4.
  split; [by apply store_stored |].
  split; [by apply find_stored |].
  split; [exact Hrun |].
  split; [exact Hfind2 |].
  split; [exact Hvalue2 |].
  split; [by apply store_stored |].
  split; [by apply find_stored |].
  done.
Qed.

Example find_after_three_stores :
  (table1 ← snd <$> store sample.key_a [x0a] 1 sample.slab_table;
   table2 ← snd <$> store sample.key_b [x0b] 1 table1;
   table3 ← snd <$> store sample.key_a [x0c] 1 table2;
   Some (find 2 table1 sample.key_a, find 2 table2 sample.key_a,
         find 2 table3 sample.key_a, find 2 table3 sample.key_b,
         value_at table3 40))
  = Some (Some (Some 18), Some (Some 18), Some (Some 40), Some (Some 29),
          Some [x0c]).
Proof. vm_compute. reflexivity. Qed.

Lemma find_returns_latest_witness :
  exists address table1 table2 address' table3 table4,
    store sample.key_a [x0a] 1 sample.slab_table = Some (address, table1) /\
    find 1 table1 sample.key_a = Some (Some address) /\
    store_all [(sample.key_b, [x0b], 1)] table1 = Some table2 /\
    find 2 table2 sample.key_a = Some (Some address) /\
    value_at table2 address = Some [x0a] /\
    store sample.key_a [x0c] 1 table2 = Some (address', table3) /\
    find 1 table3 sample.key_a = Some (Some address') /\
    store_all [] table3 = Some table4 /\
    find 1 table4 sample.key_a = Some (Some address') /\
    value_at table4 address' = Some [x0c].
Proof.
  apply (find_returns_latest sample.slab_table sample.key_a [x0a] 1 [x0c] 1
           [(sample.key_b, [x0b], 1)] [] 0).
  - apply created_wf. lia.
  - repeat constructor. vm_compute. discriminate.
  - constructor.
Defined.

End slab_facts.

(** ** Theorems: the record hash table *)

Module record_facts.
Import record_hash_table.

Implicit Types (table : t) (key : key_type) (value : list byte).

Lemma record_bucket_in_range table key :
  header_ table <> [] ->
  (N.to_nat (bucket_index table key) < length (header_ table))%nat.
Proof.
  intros Hne. unfold bucket_index, remainder.
  assert (N.of_nat (length (header_ table)) <> 0) as Hlen.
  { destruct (header_ table); [congruence | simpl; lia]. }
  pose proof (N.mod_upper_bound (from_little_endian key) _ Hlen). lia.
Qed.

Lemma record_read_bucket_value_some table key :
  header_ table <> [] -> is_Some (read_bucket_value table key).
Proof. intros Hne. apply lookup_lt_is_Some_2. by apply record_bucket_in_range. Qed.

Lemma record_store_stored table key value first :
  read_bucket_value table key = Some first ->
  store key value table
  = Some (record_count (manager_ table), stored table key value first).
Proof.
  intros Hfirst.
  unfold store, create, new_records, row_link, write_next_index.
  cbn -[N.add]. unfold read_bucket_value, bucket_index in *. cbn -[N.add].
  rewrite Hfirst. cbn -[N.add].
  unfold record_row, put_row. cbn -[N.add].
  rewrite lookup_insert_eq. cbn -[N.add].
  rewrite insert_insert_eq. reflexivity.
Qed.

Lemma record_stored_bucket_index table key value first key' :
  bucket_index (stored table key value first) key' = bucket_index table key'.
Proof. unfold bucket_index, stored. cbn. by rewrite length_insert. Qed.

Lemma record_stored_head table key value first :
  header_ table <> [] ->
  read_bucket_value (stored table key value first) key
  = Some (record_count (manager_ table)).
Proof.
  intros Hne. unfold read_bucket_value.
  rewrite record_stored_bucket_index. cbn.
  apply list_lookup_insert_eq. by apply record_bucket_in_range.
Qed.

Lemma record_stored_row table key value first :
  record_row (stored table key value first) (record_count (manager_ table))
  = Some (mk_row key first value).
Proof. unfold record_row, stored. cbn. apply lookup_insert_eq. Qed.

Lemma record_stored_row_old table key value first index item :
  wf table ->
  record_row table index = Some item ->
  record_row (stored table key value first) index = Some item.
Proof.
  intros Hwf Hrow. unfold record_row, stored. cbn.
  rewrite lookup_insert_ne; [exact Hrow |].
  apply (wf_below _ Hwf) in Hrow. lia.
Qed.

Lemma record_stored_linked table key value first index :
  wf table -> linked table index -> linked (stored table key value first) index.
Proof.
  intros Hwf [-> | [item Hrow]]; [by left | right].
  exists item. by apply record_stored_row_old.
Qed.

(** [store] keeps the invariant as long as the record count stays below the
    sentinel. *)
Lemma record_stored_wf table key value first :
  wf table ->
  record_count (manager_ table) + 1 < max_uint32 ->
  read_bucket_value table key = Some first ->
  wf (stored table key value first).
Proof.
  intros Hwf Hroom Hfirst.
  assert (linked table first) as Hlinked by (eapply wf_heads; eauto).
  split.
  - cbn. intros Hnil. apply (f_equal length) in Hnil.
    rewrite length_insert in Hnil.
    destruct (header_ table) eqn:Hh; [by apply (wf_buckets _ Hwf) | done].
  - exact Hroom.
  - intros index item. unfold record_row, stored. cbn -[N.add].
    destruct (decide (record_count (manager_ table) = index)) as [<- | Hne].
    + intros _. lia.
    + rewrite lookup_insert_ne by done. intros Hrow.
      apply (wf_below _ Hwf) in Hrow. lia.
  - intros i head. cbn. intros Hhead.
    apply list_lookup_insert_Some in Hhead as [(_ & <- & _) | (_ & Hhead)].
    + right. rewrite record_stored_row. eauto.
    + apply record_stored_linked; [done |]. eapply wf_heads; eauto.
  - intros index item. unfold record_row at 1, stored at 1. cbn -[N.add].
    destruct (decide (record_count (manager_ table) = index)) as [<- | Hne].
    + rewrite lookup_insert_eq. intros [= <-]. cbn.
      by apply record_stored_linked.
    + rewrite lookup_insert_ne by done. intros Hrow.
      apply record_stored_linked; [done |]. eapply wf_nexts; eauto.
Qed.

Lemma record_created_wf buckets key_bytes :
  (0 < buckets)%nat -> wf (created buckets key_bytes).
Proof.
  intros Hb. split; cbn.
  - destruct buckets; [lia | done].
  - reflexivity.
  - intros index item. unfold record_row. cbn. by rewrite lookup_empty.
  - intros i head Hhead. apply lookup_replicate in Hhead as [-> _]. by left.
  - intros index item. unfold record_row. cbn. by rewrite lookup_empty.
Qed.

Lemma record_count_not_empty table :
  wf table -> (record_count (manager_ table) =? empty) = false.
Proof.
  intros Hwf. pose proof (wf_count _ Hwf) as Hlt.
  apply N.eqb_neq. unfold empty. lia.
Qed.

Lemma record_find_stored fuel table key value first :
  wf table ->
  find (S fuel) (stored table key value first) key
  = Some (Some (record_count (manager_ table))).
Proof.
  intros Hwf. unfold find.
  rewrite record_stored_head by apply (wf_buckets _ Hwf). cbn -[stored N.eqb].
  rewrite (record_count_not_empty _ Hwf), record_stored_row. cbn -[stored].
  unfold compare. cbn. by rewrite bool_decide_eq_true_2.
Qed.

Lemma record_value_at_stored table key value first :
  value_at (stored table key value first) (record_count (manager_ table))
  = Some value.
Proof. unfold value_at. by rewrite record_stored_row. Qed.

Lemma record_find_loop_extends fuel table table' key current :
  wf table -> extends table table' -> linked table current ->
  find_loop fuel table' key current = find_loop fuel table key current.
Proof.
  intros Hwf Hext. revert current.
  induction fuel as [| fuel IH]; intros current Hlinked; cbn -[N.eqb].
  - reflexivity.
  - destruct (current =? empty) eqn:Hempty; [reflexivity |].
    destruct Hlinked as [-> | [item Hrow]].
    { by rewrite N.eqb_refl in Hempty. }
    rewrite Hrow, (Hext _ _ Hrow). cbn.
    destruct (compare item key); [reflexivity |].
    apply IH. eapply wf_nexts; eauto.
Qed.

Lemma record_chain_from_extends fuel table table' current :
  wf table -> extends table table' -> linked table current ->
  chain_from fuel table' current = chain_from fuel table current.
Proof.
  intros Hwf Hext. revert current.
  induction fuel as [| fuel IH]; intros current Hlinked; cbn -[N.eqb].
  - reflexivity.
  - destruct (current =? empty) eqn:Hempty; [reflexivity |].
    destruct Hlinked as [-> | [item Hrow]].
    { by rewrite N.eqb_refl in Hempty. }
    rewrite Hrow, (Hext _ _ Hrow). f_equal.
    apply IH. eapply wf_nexts; eauto.
Qed.

Lemma record_chain_stored fuel table key value first :
  wf table ->
  read_bucket_value table key = Some first ->
  chain (S fuel) (stored table key value first) key
  = (record_count (manager_ table), mk_row key first value)
      :: chain fuel table key.
Proof.
  intros Hwf Hfirst. unfold chain.
  rewrite record_stored_head by apply (wf_buckets _ Hwf). rewrite Hfirst.
  cbn -[stored N.eqb].
  rewrite (record_count_not_empty _ Hwf), record_stored_row. f_equal.
  apply record_chain_from_extends; [done | |].
  - intros index item. by apply record_stored_row_old.
  - eapply wf_heads; eauto.
Qed.

Lemma record_unlink_stored fuel table key value first :
  wf table ->
  read_bucket_value table key = Some first ->
  unlink fuel key (stored table key value first)
  = Some (true, unlinked table key value first).
Proof.
  intros Hwf Hfirst. unfold unlink.
  rewrite record_stored_head by apply (wf_buckets _ Hwf). cbn -[stored].
  rewrite record_stored_row. cbn -[stored].
  unfold compare. cbn -[stored]. rewrite bool_decide_eq_true_2 by done.
  do 2 f_equal. unfold link, unlinked.
  rewrite record_stored_bucket_index. cbn. f_equal.
  rewrite list_insert_insert_eq. by apply list_insert_id.
Qed.

Lemma record_unlinked_extends table key value first :
  wf table -> extends table (unlinked table key value first).
Proof.
  intros Hwf index item Hrow.
  by apply (record_stored_row_old _ key value first) in Hrow.
Qed.

Lemma record_find_unlinked fuel table key value first key' :
  wf table ->
  find fuel (unlinked table key value first) key' = find fuel table key'.
Proof.
  intros Hwf. unfold find.
  replace (read_bucket_value (unlinked table key value first) key')
    with (read_bucket_value table key') by reflexivity.
  destruct (read_bucket_value table key') as [current |] eqn:Hhead;
    [cbn | reflexivity].
  apply record_find_loop_extends; [done | by apply record_unlinked_extends |].
  eapply wf_heads; eauto.
Qed.

Lemma record_chain_unlinked fuel table key value first key' :
  wf table ->
  chain fuel (unlinked table key value first) key' = chain fuel table key'.
Proof.
  intros Hwf. unfold chain.
  replace (read_bucket_value (unlinked table key value first) key')
    with (read_bucket_value table key') by reflexivity.
  destruct (read_bucket_value table key') as [current |] eqn:Hhead;
    [| reflexivity].
  apply record_chain_from_extends; [done | by apply record_unlinked_extends |].
  eapply wf_heads; eauto.
Qed.

Lemma record_value_at_extends table table' pointer value :
  extends table table' ->
  value_at table pointer = Some value -> value_at table' pointer = Some value.
Proof.
  intros Hext. unfold value_at.
  destruct (record_row table pointer) as [item |] eqn:Hrow; [| done].
  by rewrite (Hext _ _ Hrow).
Qed.

End record_facts.

(** ** Theorems: duplicate keys in the hash tables *)

Module duplicate_facts.

(** C9: two values stored under one key are both on the bucket chain, the
    newer first (reverse insertion order); [unlink key] returns true and
    takes exactly the newer row off the chain, so that the table answers
    every [find] and every traversal as it did before the second [store],
    and [find key] returns the earlier value.  This holds for the slab table
    and for the record table (there as long as two more records fit below
    the sentinel index). *)
Theorem duplicates_unlink_latest :
  (forall table key value1 size1 value2 size2 fuel,
    slab_hash_table.wf table ->
    exists address1 table1 address2 table2 table3 first,
      let position1 := slab_hash_table.payload_size (slab_hash_table.manager_ table) in
      let position2 := slab_hash_table.payload_size (slab_hash_table.manager_ table1) in
      slab_hash_table.store key value1 size1 table = Some (address1, table1) /\
      slab_hash_table.store key value2 size2 table1 = Some (address2, table2) /\
      slab_hash_table.chain (S (S fuel)) table2 key
      = (position2, mk_row key position1 value2)
          :: (position1, mk_row key first value1)
          :: slab_hash_table.chain fuel table key /\
      slab_hash_table.values_of key (slab_hash_table.chain (S (S fuel)) table2 key)
      = value2 :: value1
          :: slab_hash_table.values_of key (slab_hash_table.chain fuel table key) /\
      slab_hash_table.unlink fuel key table2 = Some (true, table3) /\
      slab_hash_table.find (S fuel) table3 key = Some (Some address1) /\
      slab_hash_table.value_at table3 address1 = Some value1 /\
      (forall n key', slab_hash_table.chain n table3 key'
                      = slab_hash_table.chain n table1 key') /\
      (forall n key', slab_hash_table.find n table3 key'
                      = slab_hash_table.find n table1 key')) /\
  (forall table key value1 value2 fuel,
    record_hash_table.wf table ->
    record_hash_table.record_count (record_hash_table.manager_ table) + 1
      < max_uint32 ->
    exists table1 table2 table3 first,
      let index1 := record_hash_table.record_count (record_hash_table.manager_ table) in
      let index2 := index1 + 1 in
      record_hash_table.store key value1 table = Some (index1, table1) /\
      record_hash_table.store key value2 table1 = Some (index2, table2) /\
      record_hash_table.chain (S (S fuel)) table2 key
      = (index2, mk_row key index1 value2)
          :: (index1, mk_row key first value1)
          :: record_hash_table.chain fuel table key /\
      record_hash_table.values_of key
        (record_hash_table.chain (S (S fuel)) table2 key)
      = value2 :: value1
          :: record_hash_table.values_of key
               (record_hash_table.chain fuel table key) /\
      record_hash_table.unlink fuel key table2 = Some (true, table3) /\
      record_hash_table.find (S fuel) table3 key = Some (Some index1) /\
      record_hash_table.value_at table3 index1 = Some value1 /\
      (forall n key', record_hash_table.chain n table3 key'
                      = record_hash_table.chain n table1 key') /\
      (forall n key', record_hash_table.find n table3 key'
                      = record_hash_table.find n table1 key')).
Proof.
  split.
  - intros table key value1 size1 value2 size2 fuel.
    intros Hwf.
    destruct (slab_facts.read_bucket_value_some table key
                (slab_hash_table.wf_buckets _ Hwf)) as [first Hfirst].
    pose proof (slab_facts.stored_wf _ key value1 size1 _ Hwf Hfirst) as Hwf1.
    set (table1 := slab_hash_table.stored table key value1 size1 first) in *.
    assert (slab_hash_table.read_bucket_value table1 key
            = Some (slab_hash_table.payload_size (slab_hash_table.manager_ table)))
      as Hfirst1.
    { apply slab_facts.stored_head, Hwf. }
    exists (slab_hash_table.payload_size (slab_hash_table.manager_ table)
            + slab_hash_table.prefix_size table), table1.
    eexists _, _, _, first. cbv zeta.
    split; [by apply slab_facts.store_stored |].
    split; [by apply slab_facts.store_stored |].
    assert (slab_hash_table.chain (S (S fuel))
              (slab_hash_table.stored table1 key value2 size2
                 (slab_hash_table.payload_size (slab_hash_table.manager_ table)))
              key
            = (slab_hash_table.payload_size (slab_hash_table.manager_ table1),
               mk_row key
                 (slab_hash_table.payload_size (slab_hash_table.manager_ table))
                 value2)
                :: (slab_hash_table.payload_size (slab_hash_table.manager_ table),
                    mk_row key first value1)
                :: slab_hash_table.chain fuel table key) as Hchain.
    { rewrite slab_facts.chain_stored by done. f_equal.
      by apply slab_facts.chain_stored. }
    split; [exact Hchain |].
    split.
    { rewrite Hchain. unfold slab_hash_table.values_of. cbn [fmap list_fmap snd].
      rewrite !filter_cons_True by reflexivity. reflexivity. }
    split; [by apply slab_facts.unlink_stored |].
    split.
    { rewrite slab_facts.find_unlinked by done.
      by apply slab_facts.find_stored. }
    split.
    { eapply slab_facts.value_at_extends;
        [by apply slab_facts.unlinked_extends |].
      apply slab_facts.value_at_stored. }
    split; intros n key'.
    + by apply slab_facts.chain_unlinked.
    + by apply slab_facts.find_unlinked.
  - intros table key value1 value2 fuel.
    intros Hwf Hroom.
    destruct (record_facts.record_read_bucket_value_some table key
                (record_hash_table.wf_buckets _ Hwf)) as [first Hfirst].
    pose proof (record_facts.record_stored_wf _ key value1 _ Hwf Hroom Hfirst) as Hwf1.
    set (table1 := record_hash_table.stored table key value1 first) in *.
    assert (record_hash_table.read_bucket_value table1 key
            = Some (record_hash_table.record_count
                      (record_hash_table.manager_ table))) as Hfirst1.
    { apply record_facts.record_stored_head, Hwf. }
    exists table1. eexists _, _, first. cbv zeta.
    split; [by apply record_facts.record_store_stored |].
    split; [by apply (record_facts.record_store_stored table1) |].
    assert (record_hash_table.chain (S (S fuel))
              (record_hash_table.stored table1 key value2
                 (record_hash_table.record_count
                    (record_hash_table.manager_ table))) key
            = (record_hash_table.record_count (record_hash_table.manager_ table)
               + 1,
               mk_row key
                 (record_hash_table.record_count
                    (record_hash_table.manager_ table)) value2)
                :: (record_hash_table.record_count
                      (record_hash_table.manager_ table),
                    mk_row key first value1)
                :: record_hash_table.chain fuel table key) as Hchain.
    { rewrite record_facts.record_chain_stored by done. f_equal.
      by apply record_facts.record_chain_stored. }
    split; [exact Hchain |].
    split.
    { rewrite Hchain. unfold record_hash_table.values_of.
      cbn [fmap list_fmap snd].
      rewrite !filter_cons_True by reflexivity. reflexivity. }
    split; [by apply record_facts.record_unlink_stored |].
    split.
    { rewrite record_facts.record_find_unlinked by done.
      by apply record_facts.record_find_stored. }
    split.
    { eapply record_facts.record_value_at_extends;
        [by apply record_facts.record_unlinked_extends |].
      apply record_facts.record_value_at_stored. }
    split; intros n key'.
    + by apply record_facts.record_chain_unlinked.
    + by apply record_facts.record_find_unlinked.
Qed.

Lemma duplicates_unlink_latest_witness :
  (exists address1 table1 address2 table2 table3,
     slab_hash_table.store sample.key_a [x0a] 1 sample.slab_table
     = Some (address1, table1) /\
     slab_hash_table.store sample.key_a [x0c] 1 table1
     = Some (address2, table2) /\
     slab_hash_table.values_of sample.key_a
       (slab_hash_table.chain 2 table2 sample.key_a) = [[x0c]; [x0a]] /\
     slab_hash_table.unlink 0 sample.key_a table2 = Some (true, table3) /\
     slab_hash_table.find 1 table3 sample.key_a = Some (Some address1) /\
     slab_hash_table.value_at table3 address1 = Some [x0a]) /\
  (exists table1 table2 table3,
     record_hash_table.store sample.key_a [x0a] sample.record_table
     = Some (0, table1) /\
     record_hash_table.store sample.key_a [x0c] table1 = Some (1, table2) /\
     record_hash_table.values_of sample.key_a
       (record_hash_table.chain 2 table2 sample.key_a) = [[x0c]; [x0a]] /\
     record_hash_table.unlink 0 sample.key_a table2 = Some (true, table3) /\
     record_hash_table.find 1 table3 sample.key_a = Some (Some 0) /\
     record_hash_table.value_at table3 0 = Some [x0a]).
Proof.
  destruct duplicates_unlink_latest as [Hslab Hrecord].
  split.
  - destruct (Hslab sample.slab_table sample.key_a [x0a] 1 [x0c] 1 0%nat)
      as (address1 & table1 & address2 & table2 & table3 & first
          & H1 & H2 & _ & Hvalues & Hunlink & Hfind & Hvalue & _).
    { apply slab_facts.created_wf. lia. }
    exists address1, table1, address2, table2, table3.
    repeat split; assumption.
  - destruct (Hrecord sample.record_table sample.key_a [x0a] [x0c] 0%nat)
      as (table1 & table2 & table3 & first
          & H1 & H2 & _ & Hvalues & Hunlink & Hfind & Hvalue & _).
    { apply record_facts.record_created_wf. lia. }
    { vm_compute. reflexivity. }
    exists table1, table2, table3.
    repeat split; assumption.
Defined.

End duplicate_facts.


(** ** Theorems: the byte serializer *)

Module serial_facts.
Import serial.

Lemma to_N_byte_of_N n : Byte.to_N (byte_of_N n) = n mod 256.
Proof.
  unfold byte_of_N.
  destruct (Byte.of_N (n mod 256)) as [b |] eqn:Hb; cbn.
  - by apply Byte.to_of_N.
  - apply Byte.of_N_None_iff in Hb.
    pose proof (N.mod_upper_bound n 256). lia.
Qed.

Lemma length_to_little_endian width v :
  length (to_little_endian width v) = width.
Proof.
  revert v. induction width as [| width IH]; intros v; cbn; [done |].
  by rewrite IH.
Qed.

Lemma from_to_little_endian width v :
  from_little_endian (to_little_endian width v) = v mod 256 ^ N.of_nat width.
Proof.
  revert v. induction width as [| width IH]; intros v.
  - cbn. by rewrite N.mod_1_r.
  - cbn [to_little_endian from_little_endian].
    rewrite to_N_byte_of_N, IH.
    replace (N.of_nat (S width)) with (N.succ (N.of_nat width)) by lia.
    rewrite N.pow_succ_r'.
    rewrite (N.Div0.mod_mul_r v 256 (256 ^ N.of_nat width)). lia.
Qed.

Lemma from_little_endian_bound bytes :
  from_little_endian bytes < 256 ^ N.of_nat (length bytes).
Proof.
  induction bytes as [| b bytes IH]; cbn [from_little_endian length].
  - cbn. lia.
  - replace (N.of_nat (S (length bytes)))
      with (N.succ (N.of_nat (length bytes))) by lia.
    rewrite N.pow_succ_r'.
    pose proof (Byte.to_N_bounded b). lia.
Qed.

Lemma read_little_endian_bound width buffer cursor v cursor' :
  read_little_endian width buffer cursor = Some (v, cursor') ->
  v < 256 ^ N.of_nat width /\ cursor' = (cursor + width)%nat
  /\ (cursor + width <= length buffer)%nat.
Proof.
  unfold read_little_endian, read_bytes. case_decide; [| done].
  cbn. intros [= <- <-].
  split; [| done].
  pose proof (from_little_endian_bound (take width (drop cursor buffer))) as Hb.
  rewrite length_take, length_drop in Hb.
  by replace (width `min` (length buffer - cursor))%nat with width in Hb by lia.
Qed.

Lemma agree_sym limit buffer buffer' :
  agree limit buffer buffer' -> agree limit buffer' buffer.
Proof. by intros [? ?]. Qed.

Lemma agree_le limit limit' buffer buffer' :
  (limit' <= limit)%nat -> agree limit buffer buffer' ->
  agree limit' buffer buffer'.
Proof.
  intros Hle [Hlen Htake]. split; [done |].
  rewrite <- (Nat.min_l limit' limit) by done.
  by rewrite <- !take_take, Htake.
Qed.

Lemma read_bytes_agree limit buffer buffer' cursor count :
  agree limit buffer buffer' -> (cursor + count <= limit)%nat ->
  read_bytes buffer' cursor count = read_bytes buffer cursor count.
Proof.
  intros [Hlen Htake] Hle. unfold read_bytes. rewrite <- Hlen.
  case_decide; [| done]. f_equal.
  rewrite !take_drop_commute.
  replace (cursor + count)%nat with ((cursor + count) `min` limit)%nat by lia.
  by rewrite <- !take_take, Htake.
Qed.

Lemma read_little_endian_agree limit width buffer buffer' cursor :
  agree limit buffer buffer' -> (cursor + width <= limit)%nat ->
  read_little_endian width buffer' cursor
  = read_little_endian width buffer cursor.
Proof.
  intros Hagree Hle. unfold read_little_endian.
  by rewrite (read_bytes_agree limit buffer).
Qed.

(** What a variable length read returns, and how far it looked. *)
Lemma read_size_cursor buffer cursor v cursor' :
  read_size_little_endian buffer cursor = Some (v, cursor') ->
  (cursor < cursor')%nat /\ (cursor' <= length buffer)%nat.
Proof.
  unfold read_size_little_endian, read_byte.
  destruct (read_little_endian 1 buffer cursor) as [[first cursor1] |] eqn:H1;
    [| done].
  apply read_little_endian_bound in H1 as (_ & -> & Hlen1). cbn.
  unfold read_8_bytes_little_endian, read_4_bytes_little_endian,
    read_2_bytes_little_endian.
  repeat case_match; intros Hread;
    try (apply read_little_endian_bound in Hread as (_ & -> & ?); lia).
  injection Hread as <- <-. lia.
Qed.

Lemma read_size_agree limit buffer buffer' cursor v cursor' :
  agree limit buffer buffer' ->
  read_size_little_endian buffer cursor = Some (v, cursor') ->
  (cursor' <= limit)%nat ->
  read_size_little_endian buffer' cursor = Some (v, cursor').
Proof.
  intros Hagree Hread Hle.
  pose proof (read_size_cursor _ _ _ _ Hread) as [Hlt _].
  revert Hread. unfold read_size_little_endian, read_byte.
  rewrite (read_little_endian_agree limit 1 buffer buffer') by (done || lia).
  destruct (read_little_endian 1 buffer cursor) as [[first cursor1] |] eqn:H1;
    [| done].
  apply read_little_endian_bound in H1 as (_ & -> & _). cbn.
  unfold read_8_bytes_little_endian, read_4_bytes_little_endian,
    read_2_bytes_little_endian.
  repeat case_match; intros Hread; try done;
    pose proof Hread as Hread';
    apply read_little_endian_bound in Hread' as (_ & -> & _);
    rewrite (read_little_endian_agree limit _ buffer buffer') by (done || lia);
    done.
Qed.

Lemma write_little_endian_some width v buffer cursor :
  (cursor + width <= length buffer)%nat ->
  is_Some (write_little_endian width v buffer cursor).
Proof. intros Hle. unfold write_little_endian. case_decide; [eauto | lia]. Qed.

Lemma write_little_endian_agree width v buffer cursor buffer' :
  write_little_endian width v buffer cursor = Some buffer' ->
  agree cursor buffer buffer' /\ (cursor + width <= length buffer)%nat.
Proof.
  unfold write_little_endian. case_decide as Hle; [| done].
  intros [= <-]. split; [split |]; [| | done].
  - rewrite !length_app, length_take, length_drop, length_to_little_endian. lia.
  - rewrite take_app_le by (rewrite length_take; lia).
    by rewrite take_take, Nat.min_id.
Qed.

Lemma read_after_write width v buffer cursor buffer' :
  write_little_endian width v buffer cursor = Some buffer' ->
  read_little_endian width buffer' cursor
  = Some (v mod 256 ^ N.of_nat width, (cursor + width)%nat).
Proof.
  intros Hwrite.
  pose proof (write_little_endian_agree _ _ _ _ _ Hwrite) as [[Hlen _] Hle].
  revert Hwrite. unfold write_little_endian. case_decide; [| done].
  intros [= <-]. unfold read_little_endian, read_bytes.
  rewrite <- Hlen. case_decide; [| lia]. cbn.
  rewrite drop_app_length' by (rewrite length_take; lia).
  rewrite take_app_length' by by rewrite length_to_little_endian.
  by rewrite from_to_little_endian.
Qed.

End serial_facts.

(** ** Theorems: the transaction database *)

Module transaction_facts.
Import transaction_database.

Section with_chain.
Context `{chain_library}.

Implicit Types (db : t) (point : output_point) (buffer : list byte).

(** The skipping loop only moves forward, and only looks at bytes in front
    of the cursor it ends at. *)
Lemma skip_outputs_agree fixed count : forall buffer cursor cursor',
  skip_outputs fixed count buffer cursor = Some cursor' ->
  (cursor <= cursor')%nat /\
  forall buffer', serial.agree cursor' buffer buffer' ->
    skip_outputs fixed count buffer' cursor = Some cursor'.
Proof.
  induction count as [| count IH]; intros buffer cursor cursor'; cbn.
  - intros [= <-]. split; [lia | done].
  - destruct (serial.read_size_little_endian buffer (serial.skip fixed cursor))
      as [[script_size cursor2] |] eqn:Hsize; [cbn | done].
    intros Hrest. destruct (IH _ _ _ Hrest) as [Hle Hsame].
    pose proof (serial_facts.read_size_cursor _ _ _ _ Hsize) as [Hlt _].
    unfold serial.skip in *. split; [lia |].
    intros buffer' Hagree.
    rewrite (serial_facts.read_size_agree cursor' buffer buffer' _ _ _ Hagree Hsize)
      by lia.
    cbn. by apply Hsame.
Qed.

Lemma spender_height_cursor_agree buffer index cursor :
  spender_height_cursor buffer index = Some cursor ->
  (N.to_nat metadata_size < cursor)%nat /\
  forall buffer', serial.agree cursor buffer buffer' ->
    spender_height_cursor buffer' index = Some cursor.
Proof.
  unfold spender_height_cursor.
  destruct (serial.read_size_little_endian buffer (N.to_nat metadata_size))
    as [[outputs cursor0] |] eqn:Hsize; [cbn | done].
  destruct (outputs <=? index) eqn:Hrange; [done |].
  intros Hskip. destruct (skip_outputs_agree _ _ _ _ _ Hskip) as [Hle Hsame].
  pose proof (serial_facts.read_size_cursor _ _ _ _ Hsize) as [Hlt _].
  split; [lia |].
  intros buffer' Hagree.
  rewrite (serial_facts.read_size_agree cursor buffer buffer' _ _ _ Hagree Hsize)
    by lia.
  cbn. rewrite Hrange. by apply Hsame.
Qed.

Lemma read_metadata_agree limit buffer buffer' :
  serial.agree limit buffer buffer' -> (N.to_nat metadata_size <= limit)%nat ->
  read_metadata buffer' = read_metadata buffer.
Proof.
  intros Hagree Hle. unfold read_metadata.
  unfold serial.read_4_bytes_little_endian, serial.read_2_bytes_little_endian,
    serial.read_byte.
  assert (N.to_nat metadata_size = 7%nat) as Hseven by reflexivity.
  rewrite (serial_facts.read_little_endian_agree limit 4 buffer buffer')
    by (done || lia).
  destruct (serial.read_little_endian 4 buffer 0) as [[height c1] |] eqn:H4;
    [cbn | done].
  apply serial_facts.read_little_endian_bound in H4 as (_ & -> & _).
  rewrite (serial_facts.read_little_endian_agree limit 2 buffer buffer')
    by (done || lia).
  destruct (serial.read_little_endian 2 buffer (0 + 4)) as [[position c2] |]
    eqn:H2; [cbn | done].
  apply serial_facts.read_little_endian_bound in H2 as (_ & -> & _).
  by rewrite (serial_facts.read_little_endian_agree limit 1 buffer buffer')
    by (done || lia).
Qed.

Lemma read_metadata_height buffer height position state :
  read_metadata buffer = Some (height, position, state) ->
  height <= max_uint32.
Proof.
  unfold read_metadata, serial.read_4_bytes_little_endian.
  destruct (serial.read_little_endian 4 buffer 0) as [[h c1] |] eqn:H4;
    [cbn | done].
  apply serial_facts.read_little_endian_bound in H4 as (Hb & _).
  destruct (serial.read_2_bytes_little_endian buffer c1) as [[p c2] |];
    [cbn | done].
  destruct (serial.read_byte buffer c2) as [[s c3] |]; [cbn | done].
  intros [= <- _ _]. unfold max_uint32. cbn in Hb. lia.
Qed.

(** *** Writing through a slab pointer *)

Lemma slab_row_put_row table position item current :
  slab_hash_table.slab_row (slab_hash_table.put_row position item table) current
  = if decide (position = current) then Some item
    else slab_hash_table.slab_row table current.
Proof.
  unfold slab_hash_table.slab_row, slab_hash_table.put_row. cbn.
  apply lookup_insert.
Qed.

Lemma find_loop_put_value fuel table position item bytes key current :
  slab_hash_table.slab_row table position = Some item ->
  slab_hash_table.find_loop fuel
    (slab_hash_table.put_row position
       (mk_row (row_key item) (row_next item) bytes) table) key current
  = slab_hash_table.find_loop fuel table key current.
Proof.
  intros Hrow. revert current.
  induction fuel as [| fuel IH]; intros current; cbn; [done |].
  destruct (current =? slab_hash_table.empty); [done |].
  rewrite slab_row_put_row.
  destruct (decide (position = current)) as [-> | Hne].
  - rewrite Hrow. cbn. unfold compare. cbn.
    destruct (bool_decide (row_key item = key)); [done | apply IH].
  - destruct (slab_hash_table.slab_row table current) as [item' |]; [cbn | done].
    destruct (compare item' key); [done | apply IH].
Qed.

Lemma write_slab_some db address buffer bytes :
  slab_bytes db address = Some buffer ->
  exists db',
    write_slab address bytes db = Some db' /\
    cache_ db' = cache_ db /\
    slab_bytes db' address = Some bytes /\
    forall fuel key,
      slab_hash_table.find fuel (lookup_map_ db') key
      = slab_hash_table.find fuel (lookup_map_ db) key.
Proof.
  unfold slab_bytes, slab_hash_table.value_at, write_slab.
  destruct (address <? slab_hash_table.prefix_size (lookup_map_ db)) eqn:Hlow;
    [done |].
  destruct (slab_hash_table.slab_row (lookup_map_ db)
              (address - slab_hash_table.prefix_size (lookup_map_ db)))
    as [item |] eqn:Hrow; [cbn | done].
  intros _. eexists. split; [reflexivity |]. cbn.
  split; [done |]. split.
  - replace (slab_hash_table.prefix_size (slab_hash_table.put_row _ _ _))
      with (slab_hash_table.prefix_size (lookup_map_ db)) by reflexivity.
    rewrite Hlow. unfold slab_hash_table.slab_row, slab_hash_table.put_row.
    cbn. by rewrite lookup_insert_eq.
  - intros fuel key. unfold slab_hash_table.find.
    replace (slab_hash_table.read_bucket_value (slab_hash_table.put_row _ _ _) key)
      with (slab_hash_table.read_bucket_value (lookup_map_ db) key)
      by reflexivity.
    destruct (slab_hash_table.read_bucket_value (lookup_map_ db) key);
      [cbn | done].
    by apply find_loop_put_value.
Qed.

(** *** spend *)

(** C10: for a null point [spend] returns true at once, whatever the spender
    height, and hands back the database (every slab and the cache) as it
    was. *)
Theorem spend_null_point fuel point spender db :
  is_null point = true -> spend fuel point spender db = Some (true, db).
Proof. intros Hnull. unfold spend. by rewrite Hnull. Qed.

(** One run of [spend] under its precondition. *)
Lemma spend_run fuel point spender db address buffer height position cursor :
  is_null point = false ->
  slab_hash_table.find fuel (lookup_map_ db) (point_hash point)
  = Some (Some address) ->
  slab_bytes db address = Some buffer ->
  read_metadata buffer = Some (height, position, state.confirmed) ->
  height <= spender ->
  spender_height_cursor buffer (point_index point) = Some cursor ->
  (cursor + 4 <= length buffer)%nat ->
  exists buffer' db',
    serial.write_4_bytes_little_endian spender buffer cursor = Some buffer' /\
    spend fuel point spender db = Some (true, db') /\
    slab_bytes db' address = Some buffer' /\
    forall fuel' key,
      slab_hash_table.find fuel' (lookup_map_ db') key
      = slab_hash_table.find fuel' (lookup_map_ db) key.
Proof.
  intros Hnull Hfind Hbytes Hmeta Hheight Hcursor Hroom.
  destruct (serial_facts.write_little_endian_some 4 spender buffer cursor Hroom)
    as [buffer' Hwrite].
  set (db0 := if negb (spender =? not_spent)
              then mk (lookup_map_ db)
                     (unspent_outputs.remove point (cache_ db))
              else db).
  assert (lookup_map_ db0 = lookup_map_ db) as Hmap.
  { unfold db0. by destruct (negb (spender =? not_spent)). }
  assert (slab_bytes db0 address = Some buffer) as Hbytes0.
  { unfold slab_bytes. by rewrite Hmap. }
  destruct (write_slab_some db0 address buffer buffer' Hbytes0)
    as (db' & Hslab & _ & Hbytes' & Hfind').
  exists buffer', db'. split; [exact Hwrite |].
  split; [| split; [exact Hbytes' |]].
  - unfold spend. rewrite Hnull. fold db0. rewrite Hmap, Hfind. cbn.
    rewrite Hbytes0. cbn. rewrite Hmeta. cbn.
    rewrite (proj2 (N.ltb_ge spender height)) by done. cbn.
    unfold spender_height_cursor in Hcursor.
    destruct (serial.read_size_little_endian buffer (N.to_nat metadata_size))
      as [[outputs cursor0] |]; [cbn in * | done].
    destruct (outputs <=? point_index point); [done |].
    rewrite Hcursor. cbn.
    unfold serial.write_4_bytes_little_endian. rewrite Hwrite. cbn.
    by rewrite Hslab.
  - intros fuel' key. by rewrite Hfind', Hmap.
Qed.

Lemma spender_height_field_eq fuel db point address buffer cursor :
  slab_hash_table.find fuel (lookup_map_ db) (point_hash point)
  = Some (Some address) ->
  slab_bytes db address = Some buffer ->
  spender_height_cursor buffer (point_index point) = Some cursor ->
  spender_height_field fuel db point
  = fst <$> serial.read_4_bytes_little_endian buffer cursor.
Proof.
  intros Hfind Hbytes Hcursor. unfold spender_height_field.
  rewrite Hfind. cbn. rewrite Hbytes. cbn. by rewrite Hcursor.
Qed.

(** C5 (amended): under the precondition of [spend] (the transaction of a
    non-null point is found, confirmed at or below the spender height, the
    index in range), [spend(p, h)] and then [spend(p, not_spent)] both
    return true; the spender height field of the output holds [h] (as 32
    bits) in between and [not_spent] at the end.  So the field is back at
    its value from before the first spend whenever the output was unspent
    then. *)
Theorem spend_then_unspend fuel point spender db :
  is_null point = false ->
  spend_precondition fuel db point spender ->
  exists db1 db2,
    spend fuel point spender db = Some (true, db1) /\
    spend fuel point not_spent db1 = Some (true, db2) /\
    spender_height_field fuel db1 point = Some (to_uint32 spender) /\
    spender_height_field fuel db2 point = Some not_spent /\
    (spender_height_field fuel db point = Some not_spent ->
     spender_height_field fuel db2 point = spender_height_field fuel db point).
Proof.
  intros Hnull (address & buffer & height & position & cursor
                & Hfind & Hbytes & Hmeta & Hheight & Hcursor & Hroom).
  destruct (spend_run fuel point spender db address buffer height position
              cursor Hnull Hfind Hbytes Hmeta Hheight Hcursor Hroom)
    as (buffer1 & db1 & Hwrite1 & Hspend1 & Hbytes1 & Hfind1).
  pose proof (serial_facts.write_little_endian_agree _ _ _ _ _ Hwrite1)
    as [Hagree1 _].
  destruct (spender_height_cursor_agree _ _ _ Hcursor) as [Hpast Hcursor'].
  assert (slab_hash_table.find fuel (lookup_map_ db1) (point_hash point)
          = Some (Some address)) as Hfind1' by (by rewrite Hfind1).
  assert (read_metadata buffer1 = Some (height, position, state.confirmed))
    as Hmeta1.
  { rewrite (read_metadata_agree cursor buffer buffer1); [done .. | lia]. }
  assert (height <= not_spent) as Hheight1.
  { by apply read_metadata_height in Hmeta. }
  assert (cursor + 4 <= length buffer1)%nat as Hroom1.
  { destruct Hagree1 as [<- _]. done. }
  destruct (spend_run fuel point not_spent db1 address buffer1 height position
              cursor Hnull Hfind1' Hbytes1 Hmeta1 Hheight1
              (Hcursor' _ Hagree1) Hroom1)
    as (buffer2 & db2 & Hwrite2 & Hspend2 & Hbytes2 & Hfind2).
  pose proof (serial_facts.write_little_endian_agree _ _ _ _ _ Hwrite2)
    as [Hagree2 _].
  destruct (spender_height_cursor_agree _ _ _ (Hcursor' _ Hagree1))
    as [_ Hcursor''].
  assert (spender_height_field fuel db2 point = Some not_spent) as Hfield2.
  { rewrite (spender_height_field_eq fuel db2 point address buffer2 cursor).
    - unfold serial.write_4_bytes_little_endian in Hwrite2.
      unfold serial.read_4_bytes_little_endian.
      by rewrite (serial_facts.read_after_write _ _ _ _ _ Hwrite2).
    - by rewrite Hfind2.
    - exact Hbytes2.
    - by apply Hcursor''. }
  exists db1, db2.
  split; [exact Hspend1 |]. split; [exact Hspend2 |].
  split; [| split; [exact Hfield2 |]].
  - rewrite (spender_height_field_eq fuel db1 point address buffer1 cursor);
      [| done | done | by apply Hcursor'].
    unfold serial.write_4_bytes_little_endian in Hwrite1.
    unfold serial.read_4_bytes_little_endian.
    by rewrite (serial_facts.read_after_write _ _ _ _ _ Hwrite1).
  - intros Hbefore. by rewrite Hfield2, Hbefore.
Qed.

(** *** get_output *)

(** A cache hit answers the query before the transaction is looked at. *)
Lemma get_output_cache_hit fuel db point prevout fork_height populated :
  is_null point = false ->
  unspent_outputs.populate point fork_height (cache_ db) = Some populated ->
  get_output fuel db point prevout fork_height = Some (true, populated).
Proof. intros Hnull Hhit. unfold get_output. by rewrite Hnull, Hhit. Qed.

(** On a cache miss the genesis rule applies: a transaction stored at height
    0 has no spendable output. *)
Lemma get_output_genesis_miss fuel db point prevout fork_height result :
  is_null point = false ->
  unspent_outputs.populate point fork_height (cache_ db) = None ->
  get fuel db (point_hash point) = Some result ->
  height_ result = 0 ->
  fst <$> get_output fuel db point prevout fork_height = Some false.
Proof.
  intros Hnull Hmiss Hget Hzero. unfold get_output.
  rewrite Hnull, Hmiss, Hget. cbn.
  destruct (found result); cbn; [| done]. by rewrite Hzero.
Qed.

(** C2 (amended): for a transaction record in state indexed (found by hash,
    with a non-zero height field, the cache not answering) the confirmation
    test of [get_output] holds exactly when [fork_height] is not
    [max_size_t], and the guard that uses it only applies then; so the query
    is never refused for lack of confirmation: for every fork height, finite
    or [max_size_t], it returns true exactly when the output index
    designates a valid output, which it reports as confirmed. *)
Theorem indexed_confirmation fuel db point prevout fork_height result :
  is_null point = false ->
  unspent_outputs.populate point fork_height (cache_ db) = None ->
  get fuel db (point_hash point) = Some result ->
  found result = true ->
  state_ result = state.indexed ->
  height_ result <> 0 ->
  confirmed_at (state_ result) (height_ result) fork_height
    (negb (fork_height =? max_size_t))
  = negb (fork_height =? max_size_t) /\
  (result_output db result (point_index point) = None ->
   get_output fuel db point prevout fork_height = None) /\
  forall out,
    result_output db result (point_index point) = Some out ->
    exists populated,
      get_output fuel db point prevout fork_height
      = Some (is_valid out, populated) /\
      cache populated = out /\
      (is_valid out = true -> confirmed populated = true).
Proof.
  intros Hnull Hmiss Hget Hfound Hstate Hheight.
  assert (confirmed_at (state_ result) (height_ result) fork_height
            (negb (fork_height =? max_size_t))
          = negb (fork_height =? max_size_t)) as Hconfirmed.
  { unfold confirmed_at. rewrite Hstate. cbn.
    by rewrite orb_false_r. }
  split; [exact Hconfirmed |].
  assert ((height_ result =? 0) = false) as Hnonzero by by apply N.eqb_neq.
  unfold get_output.
  rewrite Hnull, Hmiss, Hget. cbn. rewrite Hfound, Hnonzero. cbn -[confirmed_at].
  rewrite Hconfirmed, andb_negb_r.
  split.
  - by intros ->.
  - intros out ->. cbn. rewrite Hstate.
    destruct (is_valid out), (position_ result =? 0); cbn;
      eexists; (split; [reflexivity |]); done.
Qed.

(** *** Reading back what store and confirm wrote *)

Lemma read_metadata_written height position st rest :
  read_metadata (serial.to_little_endian 4 height
                 ++ serial.to_little_endian 2 position
                 ++ serial.to_little_endian 1 st ++ rest)
  = Some (to_uint32 height, to_uint16 position, to_uint8 st).
Proof.
  unfold read_metadata, serial.read_4_bytes_little_endian,
    serial.read_2_bytes_little_endian, serial.read_byte,
    serial.read_little_endian, serial.read_bytes.
  rewrite !length_app, !serial_facts.length_to_little_endian.
  repeat (case_decide; [| lia]). cbn [mbind option_bind].
  rewrite drop_0, take_app_length'
    by by rewrite serial_facts.length_to_little_endian.
  rewrite serial_facts.from_to_little_endian. cbn [mbind option_bind].
  case_decide; [| lia]. cbn [mbind option_bind].
  rewrite drop_app_length' by by rewrite serial_facts.length_to_little_endian.
  rewrite take_app_length' by by rewrite serial_facts.length_to_little_endian.
  rewrite serial_facts.from_to_little_endian. cbn [mbind option_bind].
  case_decide; [| lia]. cbn [mbind option_bind].
  rewrite (app_assoc _ _ (_ ++ rest)).
  rewrite drop_app_length'
    by by rewrite length_app, !serial_facts.length_to_little_endian.
  rewrite take_app_length' by by rewrite serial_facts.length_to_little_endian.
  by rewrite serial_facts.from_to_little_endian.
Qed.

Lemma store_new_read_back tx height position st db ok tx' db' :
  store_new tx height position st db = Some (ok, tx', db') ->
  ok = true /\ tx_hash tx' = tx_hash tx /\
  get_offset db' (validation_offset tx')
  = Some (mk_result (Some (validation_offset tx')) (to_uint32 height)
            (to_uint16 position) (tx_hash tx) (to_uint8 st)).
Proof.
  unfold store_new. cbv zeta.
  pose proof (read_metadata_written (to_uint32 height) (to_uint16 position)
                (to_uint8 st) (transaction_to_data tx)) as Hmeta.
  replace (to_uint32 (to_uint32 height)) with (to_uint32 height) in Hmeta
    by (unfold to_uint32; by rewrite N.Div0.mod_mod).
  replace (to_uint16 (to_uint16 position)) with (to_uint16 position) in Hmeta
    by (unfold to_uint16; by rewrite N.Div0.mod_mod).
  replace (to_uint8 (to_uint8 st)) with (to_uint8 st) in Hmeta
    by (unfold to_uint8; by rewrite N.Div0.mod_mod).
  set (bytes := serial.to_little_endian 4 (to_uint32 height) ++ _) in *.
  clearbody bytes.
  destruct (slab_hash_table.read_bucket_value (lookup_map_ db) (tx_hash tx))
    as [first |] eqn:Hfirst.
  2:{ unfold slab_hash_table.store, slab_hash_table.create,
        slab_hash_table.new_slab.
      cbn -[N.add]. unfold slab_hash_table.read_bucket_value,
        slab_hash_table.bucket_index in *. cbn -[N.add]. by rewrite Hfirst. }
  rewrite (slab_facts.store_stored _ _ _ _ _ Hfirst). cbn [mbind option_bind].
  intros [= <- <- <-]. split; [done |]. split; [done |].
  unfold get_offset, lookup_manager_get, slab_bytes, slab_key.
  cbn [mbind option_bind validation_offset set_offset lookup_map_].
  rewrite slab_facts.value_at_stored. cbn [mbind option_bind].
  rewrite Hmeta. cbn [mbind option_bind].
  replace (slab_hash_table.prefix_size (slab_hash_table.stored _ _ _ _ _))
    with (slab_hash_table.prefix_size (lookup_map_ db)) by reflexivity.
  destruct (N.ltb_spec
              (slab_hash_table.payload_size
                 (slab_hash_table.manager_ (lookup_map_ db))
               + slab_hash_table.prefix_size (lookup_map_ db))
              (slab_hash_table.prefix_size (lookup_map_ db))); [lia |].
  replace (slab_hash_table.payload_size
             (slab_hash_table.manager_ (lookup_map_ db))
           + slab_hash_table.prefix_size (lookup_map_ db)
           - slab_hash_table.prefix_size (lookup_map_ db))
    with (slab_hash_table.payload_size
            (slab_hash_table.manager_ (lookup_map_ db))) by lia.
  by rewrite slab_facts.stored_row.
Qed.

Lemma confirm_read_back offset height position st db ok db' :
  confirm offset height position st db = Some (ok, db') ->
  ok = true /\
  exists hash,
    get_offset db' offset
    = Some (mk_result (Some offset) (to_uint32 height) (to_uint16 position)
              hash (to_uint8 st)).
Proof.
  unfold confirm, lookup_manager_get. cbn [mbind option_bind].
  destruct (slab_bytes db offset) as [buffer |] eqn:Hbytes;
    [cbn [mbind option_bind] | done].
  destruct (serial.write_little_endian 4 _ buffer 0) as [buffer1 |] eqn:H1;
    [cbn [mbind option_bind] | done].
  destruct (serial.write_little_endian 2 _ buffer1 4) as [buffer2 |] eqn:H2;
    [cbn [mbind option_bind] | done].
  destruct (serial.write_little_endian 1 _ buffer2 6) as [buffer3 |] eqn:H3;
    [cbn [mbind option_bind] | done].
  destruct (write_slab_some db offset buffer buffer3 Hbytes)
    as (db3 & Hwrite & _ & Hbytes3 & _).
  rewrite Hwrite. cbn [mbind option_bind]. intros [= <- <-].
  split; [done |].
  pose proof (serial_facts.write_little_endian_agree _ _ _ _ _ H2) as [Ha2 _].
  pose proof (serial_facts.write_little_endian_agree _ _ _ _ _ H3) as [Ha3 _].
  assert (read_metadata buffer3
          = Some (to_uint32 height, to_uint16 position, to_uint8 st)) as Hmeta.
  { unfold read_metadata, serial.read_4_bytes_little_endian,
      serial.read_2_bytes_little_endian, serial.read_byte.
    rewrite (serial_facts.read_little_endian_agree 6 4 buffer2 buffer3)
      by (done || lia).
    rewrite (serial_facts.read_little_endian_agree 4 4 buffer1 buffer2)
      by (done || lia).
    rewrite (serial_facts.read_after_write _ _ _ _ _ H1).
    cbn [mbind option_bind]. change (0 + 4)%nat with 4%nat.
    rewrite (serial_facts.read_little_endian_agree 6 2 buffer2 buffer3)
      by (done || lia).
    rewrite (serial_facts.read_after_write _ _ _ _ _ H2).
    cbn [mbind option_bind]. change (4 + 2)%nat with 6%nat.
    rewrite (serial_facts.read_after_write _ _ _ _ _ H3).
    cbn [mbind option_bind].
    unfold to_uint32, to_uint16, to_uint8. by rewrite !N.Div0.mod_mod. }
  unfold get_offset, lookup_manager_get. cbn [mbind option_bind].
  rewrite Hbytes3. cbn [mbind option_bind]. rewrite Hmeta.
  cbn [mbind option_bind].
  assert (is_Some (slab_key db3 offset)) as [hash Hkey].
  { revert Hbytes3. unfold slab_bytes, slab_hash_table.value_at, slab_key.
    destruct (offset <? _); [done |].
    destruct (slab_hash_table.slab_row _ _); [eauto | done]. }
  rewrite Hkey. eauto.
Qed.

(** A successful [store] has written the height, the position and the
    state (at the widths of their fields) where [get] reads them, at the
    offset it left in the transaction. *)
Lemma store_read_back fuel tx height position st db tx' db' :
  store fuel tx height position st db = Some (true, tx', db') ->
  tx_hash tx' = tx_hash tx /\
  exists hash,
    get_offset db' (validation_offset tx')
    = Some (mk_result (Some (validation_offset tx')) (to_uint32 height)
              (to_uint16 position) hash (to_uint8 st)).
Proof.
  unfold store.
  destruct (st =? state.confirmed).
  - destruct (spend_inputs fuel (tx_inputs tx) height db) as [[ok db1] |];
      [cbn [mbind option_bind] | done].
    destruct ok; cbn [negb]; [| done].
    destruct (negb (validation_offset tx =? slab_hash_table.not_found)).
    + destruct (confirm (validation_offset tx) height position st _)
        as [[ok' db3] |] eqn:Hconfirm; [cbn [mbind option_bind] | done].
      intros [= -> <- <-]. split; [done |].
      by apply confirm_read_back in Hconfirm as [_ ?].
    + intros Hnew. apply store_new_read_back in Hnew as (_ & ? & Hget). eauto.
  - intros Hnew. apply store_new_read_back in Hnew as (_ & ? & Hget). eauto.
Qed.

End with_chain.

(** *** The concrete checks *)

Import sample.
#[local] Existing Instance chain_v3.

Lemma spend_null_point_witness :
  spend 0 (mk_point null_hash null_index) 7 empty_database
  = Some (true, empty_database).
Proof. apply spend_null_point. vm_compute. reflexivity. Defined.

(** [database_of] is what [store] builds. *)
Example store_builds_database_of :
  store 1 coinbase_tx 7 0 state.confirmed empty_database
  = Some (true, set_offset 48 coinbase_tx,
          database_of (slab_of 7 0 state.confirmed coinbase_tx)
            [coinbase_entry 7])
  /\ store 1 coinbase_tx 9 unconfirmed state.indexed empty_database
    = Some (true, set_offset 48 coinbase_tx,
            database_of (slab_of 9 unconfirmed state.indexed coinbase_tx) []).
Proof. split; vm_compute; reflexivity. Qed.

(** C5, the claim as written fails: the output of a transaction confirmed at
    height 7 was spent at height 200; [spend] at 300 and then at [not_spent]
    both return true and leave the field at [not_spent], not at 200. *)
Lemma spend_unspend_not_symmetric :
  let db := database_of (slab_of 7 0 state.confirmed (coinbase_spent_at 200)) [] in
  spend_precondition 1 db coinbase_point 300 /\
  spender_height_field 1 db coinbase_point = Some 200 /\
  ('(ok1, db1) ← spend 1 coinbase_point 300 db;
   '(ok2, db2) ← spend 1 coinbase_point not_spent db1;
   Some (ok1, ok2, spender_height_field 1 db2 coinbase_point))
  = Some (true, true, Some 4294967295) /\
  ('(_, db1) ← spend 1 coinbase_point 300 db;
   '(_, db2) ← spend 1 coinbase_point not_spent db1;
   spender_height_field 1 db2 coinbase_point)
  <> spender_height_field 1 db coinbase_point.
Proof.
  cbv zeta.
  split; [| repeat split; vm_compute; (reflexivity || congruence)].
  exists 48, (slab_of 7 0 state.confirmed (coinbase_spent_at 200)), 7, 0, 8%nat.
  repeat split; vm_compute; (reflexivity || congruence || lia).
Qed.

Lemma spend_then_unspend_witness :
  let db := database_of (slab_of 7 0 state.confirmed coinbase_tx) [] in
  exists db1 db2,
    spend 1 coinbase_point 300 db = Some (true, db1) /\
    spend 1 coinbase_point not_spent db1 = Some (true, db2) /\
    spender_height_field 1 db1 coinbase_point = Some 300 /\
    spender_height_field 1 db2 coinbase_point = Some not_spent /\
    spender_height_field 1 db2 coinbase_point
    = spender_height_field 1 db coinbase_point.
Proof.
  cbv zeta.
  destruct (spend_then_unspend 1 coinbase_point 300
              (database_of (slab_of 7 0 state.confirmed coinbase_tx) []))
    as (db1 & db2 & H1 & H2 & H3 & H4 & H5).
  - vm_compute. reflexivity.
  - exists 48, (slab_of 7 0 state.confirmed coinbase_tx), 7, 0, 8%nat.
    repeat split; vm_compute; (reflexivity || congruence || lia).
  - exists db1, db2.
    split; [exact H1 |]. split; [exact H2 |]. split; [exact H3 |].
    split; [exact H4 |]. apply H5. vm_compute. reflexivity.
Defined.

(** C2, the claim as written fails: a transaction in state indexed (its
    height field holding the forks value 9) is queried at the finite fork
    height 5, and [get_output] returns true with the output populated as
    confirmed. *)
Lemma indexed_output_at_finite_fork :
  let db := database_of (slab_of 9 unconfirmed state.indexed coinbase_tx) [] in
  (state_ <$> get 1 db coinbase_hash) = Some state.indexed /\
  5 <> max_size_t /\
  get_output 1 db coinbase_point no_metadata 5
  = Some (true, mk_validation false true max_size_t
                  (mk_output 5000000000 [x51] not_spent)) /\
  fst <$> get_output 1 db coinbase_point no_metadata 5 <> Some false.
Proof. cbv zeta. repeat split; vm_compute; (reflexivity || congruence). Qed.

Lemma indexed_confirmation_witness :
  let db := database_of (slab_of 9 unconfirmed state.indexed coinbase_tx) [] in
  exists populated,
    get_output 1 db coinbase_point no_metadata 5 = Some (true, populated) /\
    confirmed populated = true.
Proof.
  cbv zeta.
  destruct (indexed_confirmation 1
              (database_of (slab_of 9 unconfirmed state.indexed coinbase_tx) [])
              coinbase_point no_metadata 5
              (mk_result (Some 48) 9 unconfirmed coinbase_hash state.indexed))
    as (_ & _ & Hout); try (vm_compute; (reflexivity || congruence)).
  destruct (Hout (mk_output 5000000000 [x51] not_spent))
    as (populated & Hget & _ & Hconfirmed); [vm_compute; reflexivity |].
  exists populated. split; [exact Hget |]. apply Hconfirmed. reflexivity.
Defined.

(** C3, the failing input: the store as [create] leaves it, the genesis
    coinbase stored at height 0, position 0, in state confirmed.  [store]
    has put its output into the cache, [get] finds the record at height 0,
    and [get_output] returns true for the genesis output, at fork height 0
    and at [max_size_t], where the genesis rule asks for false. *)
Lemma genesis_output_served_from_cache :
  store 1 coinbase_tx 0 0 state.confirmed empty_database
  = Some (true, set_offset 48 coinbase_tx,
          database_of (slab_of 0 0 state.confirmed coinbase_tx)
            [coinbase_entry 0]) /\
  let db := database_of (slab_of 0 0 state.confirmed coinbase_tx)
              [coinbase_entry 0] in
  (height_ <$> get 1 db coinbase_hash) = Some 0 /\
  (fst <$> get_output 1 db coinbase_point no_metadata 0) = Some true /\
  (fst <$> get_output 1 db coinbase_point no_metadata max_size_t) = Some true /\
  (fst <$> get_output 1
             (mk (lookup_map_ db) (unspent_outputs.mk 16 []))
             coinbase_point no_metadata max_size_t) = Some false.
Proof. cbv zeta. repeat split; vm_compute; reflexivity. Qed.

End transaction_facts.

(** ** Theorems: the coordinator *)

Module data_base_facts.
Import data_base.

Section with_parts.
Context `{chain_library} `{sub_databases}.

Implicit Types (db : t) (tx : transaction).

(** *** push(tx, forks) *)

(** Past the preflight check the answer is success or operation_failed. *)
Lemma push_transaction_verified fuel tx forks db ec tx' db' :
  verify_push_transaction fuel db tx = Some success ->
  push_transaction fuel tx forks db = Some (ec, tx', db') ->
  ec = success \/ ec = operation_failed.
Proof.
  intros Hverify. unfold push_transaction. rewrite Hverify.
  cbn -[transaction_database.store].
  unfold begin_write, end_write.
  destruct (file_system_ok db) eqn:Hfs; cbn -[transaction_database.store].
  - destruct (transaction_database.store fuel tx forks
                transaction_database.unconfirmed state.pooled
                (transactions_ db)) as [[[ok tx1] tdb] |];
      cbn; [| done].
    rewrite Hfs. intros [= <- _ _]. by left.
  - intros [= <- _ _]. by right.
Qed.

(** C4: [push(tx, forks)] returns unspent_duplicate exactly when [get] finds
    a transaction under the hash of [tx] and [is_spent()] is false for it;
    the call then returns before [begin_write]: no record is written and
    the store is as it was. *)
Theorem push_unspent_duplicate fuel tx forks db tx' db' :
  push_transaction fuel tx forks db = Some (unspent_duplicate, tx', db') <->
  (exists result,
     transaction_database.get fuel (transactions_ db) (tx_hash tx)
     = Some result /\
     transaction_database.found result = true /\
     transaction_database.is_spent (transactions_ db) result max_size_t
     = Some false) /\
  tx' = tx /\ db' = db.
Proof.
  split.
  - intros Hpush.
    destruct (verify_push_transaction fuel db tx) as [ec |] eqn:Hverify.
    2:{ unfold push_transaction in Hpush. by rewrite Hverify in Hpush. }
    assert (ec = unspent_duplicate) as ->.
    { destruct (decide (ec = success)) as [-> | Hne].
      - destruct (push_transaction_verified _ _ _ _ _ _ _ Hverify Hpush);
          discriminate.
      - unfold push_transaction in Hpush. rewrite Hverify in Hpush.
        cbn in Hpush. unfold is_error in Hpush.
        rewrite bool_decide_eq_false_2 in Hpush by done.
        cbn in Hpush. congruence. }
    unfold push_transaction in Hpush. rewrite Hverify in Hpush.
    cbn in Hpush. injection Hpush as <- <-.
    split; [| done].
    unfold verify_push_transaction in Hverify.
    destruct (transaction_database.get fuel (transactions_ db) (tx_hash tx))
      as [result |]; [cbn in Hverify | done].
    exists result. split; [done |].
    destruct (transaction_database.found result); [| done].
    split; [done |].
    destruct (transaction_database.is_spent _ _ _) as [[] |];
      cbn in Hverify; congruence.
  - intros [(result & Hget & Hfound & Hspent) [-> ->]].
    unfold push_transaction, verify_push_transaction.
    rewrite Hget. cbn. rewrite Hfound, Hspent. reflexivity.
Qed.

(** *** pop(block, height), pop(header, height) *)

Lemma verify_top_mismatch db height block_index :
  blocks_top block_index (blocks_ db) <> Some height ->
  verify_top db height block_index = operation_failed.
Proof.
  intros Hne. unfold verify_top.
  destruct (blocks_top block_index (blocks_ db)) as [actual |]; [| done].
  destruct (N.eqb_spec actual height) as [-> | _]; [done | reflexivity].
Qed.

(** C7 (amended): a [pop] of a block or of a header at a height that is
    not the top of the block index, respectively of the header index (or
    with that index empty), returns operation_failed, assigns nothing to
    its out parameter, and leaves the store unchanged. *)
Theorem pop_height_mismatch fuel height db :
  (blocks_top true (blocks_ db) <> Some height ->
   pop_block fuel height db = Some (operation_failed, None, db)) /\
  (blocks_top false (blocks_ db) <> Some height ->
   pop_header fuel height db = Some (operation_failed, None, db)).
Proof.
  split; intros Hne; unfold pop_block, pop_header, pop;
    by rewrite (verify_top_mismatch _ _ _ Hne).
Qed.

(** *** The loop over the positions of a bucket *)

Lemma same_class_le q p buckets :
  buckets <> 0 -> q mod buckets = p mod buckets -> q < p + buckets -> q <= p.
Proof.
  intros Hb Hclass Hlt.
  pose proof (N.div_mod q buckets Hb) as Hq.
  pose proof (N.div_mod p buckets Hb) as Hp.
  pose proof (N.mod_upper_bound p buckets Hb) as Hr.
  rewrite Hclass in Hq.
  destruct (N.le_gt_cases (q / buckets) (p / buckets)) as [Hle | Hgt]; [nia |].
  assert (p / buckets + 1 <= q / buckets) as Hstep by lia. nia.
Qed.

Lemma ceiling_add_class position buckets count :
  count <= max_size_t ->
  ceiling_add position buckets < count ->
  ceiling_add position buckets = position + buckets.
Proof.
  intros Hcount. unfold ceiling_add.
  destruct (max_size_t - buckets <? position); [lia | done].
Qed.

Lemma ceiling_add_above position buckets count q :
  buckets <> 0 -> count <= max_size_t -> q < count ->
  q mod buckets = position mod buckets ->
  (q < ceiling_add position buckets <-> q <= position).
Proof.
  intros Hb Hcount Hq Hclass. unfold ceiling_add.
  destruct (N.ltb_spec (max_size_t - buckets) position) as [Hsat | Hfit].
  - split; [| lia]. intros _. apply (same_class_le q position buckets); [done .. |].
    lia.
  - split; [| lia]. by apply same_class_le.
Qed.

Lemma ceiling_add_grows position buckets count :
  buckets <> 0 -> count <= max_size_t -> position < count ->
  position < ceiling_add position buckets.
Proof.
  intros Hb Hcount Hlt. unfold ceiling_add.
  destruct (max_size_t - buckets <? position); lia.
Qed.

(** The loop hands its body the positions of the class of its start below
    [count], each once, and has left after at most [count] turns and one
    more. *)
Lemma for_positions_record turns count buckets bucket :
  buckets <> 0 -> count <= max_size_t ->
  forall position visited,
    (N.to_nat (count - position) < turns)%nat ->
    (position < count -> position mod buckets = bucket) ->
    NoDup visited ->
    (forall q, q ∈ visited ->
       q < position /\ q < count /\ q mod buckets = bucket) ->
    (forall q, q < position -> q < count -> q mod buckets = bucket ->
       q ∈ visited) ->
    exists all,
      for_positions turns count buckets record_position position visited
      = Some (true, all) /\
      NoDup all /\
      forall q, q ∈ all <-> q < count /\ q mod buckets = bucket.
Proof.
  intros Hb Hcount.
  induction turns as [| turns IH];
    intros position visited Hturns Hclass Hnodup Hsound Hcomplete; [lia |].
  cbn [for_positions]. unfold loop_turn.
  destruct (N.ltb_spec position count) as [Hlt | Hge]; cbn.
  - pose proof (ceiling_add_grows _ _ _ Hb Hcount Hlt) as Hgrow.
    apply IH.
    + lia.
    + intros Hnext. rewrite (ceiling_add_class _ _ _ Hcount Hnext).
      rewrite <- (Hclass Hlt).
      rewrite <- (N.Div0.add_mod_idemp_r position buckets buckets).
      by rewrite N.Div0.mod_same, N.add_0_r.
    + apply NoDup_cons. split; [| done].
      intros Hin. apply Hsound in Hin. lia.
    + intros q [-> | Hin]%elem_of_cons.
      * auto.
      * apply Hsound in Hin. lia.
    + intros q Hq Hqc Hqb.
      apply (ceiling_add_above position buckets count q) in Hq;
        [| done | done | done | by rewrite Hqb, (Hclass Hlt)].
      apply elem_of_cons.
      destruct (decide (q = position)) as [-> | Hne]; [by left |].
      right. apply Hcomplete; [lia | done | done].
  - exists visited. split; [done |]. split; [done |].
    intros q. split.
    + intros Hin. apply Hsound in Hin as (_ & Hq & Hqb). done.
    + intros [Hq Hqb]. apply Hcomplete; [lia | done | done].
Qed.

(** *** The tasks of a parallel block push *)

Lemma finished_count_cons task ts :
  finished_count (task :: ts)
  = ((if decide (task = finished) then 1 else 0) + finished_count ts)%nat.
Proof.
  unfold finished_count. rewrite filter_cons.
  by destruct (decide (task = finished)).
Qed.

Lemma finished_count_le ts : (finished_count ts <= length ts)%nat.
Proof. apply length_filter. Qed.

Lemma finished_count_running ts : forall bucket position position',
  ts !! bucket = Some (running position) ->
  finished_count (<[bucket := running position']> ts) = finished_count ts.
Proof.
  induction ts as [| task ts IH]; intros [| bucket] position position' Hlookup;
    try done.
  - cbn in Hlookup. injection Hlookup as ->.
    change (<[0%nat := running position']> (running position :: ts))
      with (running position' :: ts).
    by rewrite !finished_count_cons.
  - change (<[S bucket := running position']> (task :: ts))
      with (task :: <[bucket := running position']> ts).
    rewrite !finished_count_cons. f_equal. by apply (IH _ position).
Qed.

Lemma finished_count_finished ts : forall bucket position,
  ts !! bucket = Some (running position) ->
  finished_count (<[bucket := finished]> ts) = S (finished_count ts).
Proof.
  induction ts as [| task ts IH]; intros [| bucket] position Hlookup;
    try done.
  - cbn in Hlookup. injection Hlookup as ->.
    change (<[0%nat := finished]> (running position :: ts))
      with (finished :: ts).
    by rewrite !finished_count_cons.
  - change (<[S bucket := finished]> (task :: ts))
      with (task :: <[bucket := finished]> ts).
    rewrite !finished_count_cons, (IH bucket position Hlookup). lia.
Qed.

Lemma finished_count_all ts : forall bucket,
  finished_count ts = length ts -> (bucket < length ts)%nat ->
  ts !! bucket = Some finished.
Proof.
  induction ts as [| task ts IH]; intros bucket Hall Hlt;
    cbn -[finished_count] in *; [lia |].
  rewrite finished_count_cons in Hall.
  pose proof (finished_count_le ts) as Hle.
  destruct (decide (task = finished)) as [-> | Hne]; [| lia].
  destruct bucket as [| bucket]; [done |]. cbn.
  apply IH; lia.
Qed.

Lemma push_transaction_at_length fuel height st position s ok s' :
  push_transaction_at fuel height st position s = Some (ok, s') ->
  length (fst s') = length (fst s).
Proof.
  destruct s as [txs db]. unfold push_transaction_at.
  destruct (txs !! N.to_nat position) as [tx |]; [| done].
  cbn -[transaction_database.store].
  destruct (transaction_database.store fuel tx height position st
              (transactions_ db)) as [[[stored tx1] tdb] |]; [| done].
  cbn. destruct stored; cbn; intros [= <- <-]; cbn; by rewrite length_insert.
Qed.

(** The body of the loop stores the transaction at [position] of the block
    under that position: it is what [get] reads back at the offset left in
    the transaction. *)
Lemma push_transaction_at_read_back fuel height st position s s' :
  push_transaction_at fuel height st position s = Some (true, s') ->
  exists tx tx' hash,
    fst s !! N.to_nat position = Some tx /\
    fst s' = <[N.to_nat position := tx']> (fst s) /\
    tx_hash tx' = tx_hash tx /\
    transaction_database.store fuel tx height position st
      (transactions_ (snd s))
    = Some (true, tx', transactions_ (snd s')) /\
    transaction_database.get_offset (transactions_ (snd s'))
      (validation_offset tx')
    = Some (transaction_database.mk_result (Some (validation_offset tx'))
              (to_uint32 height) (to_uint16 position) hash (to_uint8 st)).
Proof.
  destruct s as [txs db]. unfold push_transaction_at.
  destruct (txs !! N.to_nat position) as [tx |] eqn:Htx; [| done].
  cbn -[transaction_database.store].
  destruct (transaction_database.store fuel tx height position st
              (transactions_ db)) as [[[stored tx1] tdb] |] eqn:Hstore;
    [| done].
  cbn. destruct stored; cbn; [| done].
  intros [= <-].
  destruct (transaction_facts.store_read_back _ _ _ _ _ _ _ _ Hstore)
    as [Hhash [hash Hget]].
  assert (transactions_
            (if index_addresses db
             then push_stealth tx1 height
                    (push_outputs tx1 height
                       (push_inputs tx1 height (set_transactions tdb db)))
             else set_transactions tdb db) = tdb) as Hsame.
  { destruct (index_addresses db); [| done].
    unfold push_stealth, push_outputs, push_inputs.
    by destruct (is_coinbase tx1). }
  exists tx, tx1, hash. cbn [fst snd].
  rewrite Hsame. done.
Qed.

Lemma loop_turn_shape fuel height st count buckets position s t :
  loop_turn count buckets (push_transaction_at fuel height st) position s
  = Some t ->
  match t with
  | next_position position' s' =>
      position < count /\ position' = ceiling_add position buckets
      /\ length (fst s') = length (fst s)
  | returned ok s' =>
      length (fst s') = length (fst s) /\ (ok = true -> count <= position)
  end.
Proof.
  unfold loop_turn.
  destruct (N.ltb_spec position count) as [Hlt | Hge].
  - destruct (push_transaction_at fuel height st position s)
      as [[ok s1] |] eqn:Hbody; [| done].
    apply push_transaction_at_length in Hbody.
    cbn. destruct ok; intros [= <-]; [done |]. split; [done | discriminate].
  - intros [= <-]. done.
Qed.

(** A turn of any task keeps the invariant. *)
Lemma run_task_invariant fuel head height count buckets bucket ps ps' :
  buckets <> 0 -> count <= max_size_t ->
  push_invariant count buckets ps ->
  run_task fuel head height buckets bucket ps = Some ps' ->
  push_invariant count buckets ps'.
Proof.
  intros Hb Hcount Hinv. unfold run_task.
  destruct (tasks ps !! bucket) as [[position |] |] eqn:Htask;
    [| by intros [= <-] ..].
  destruct (loop_turn _ _ _ _ _) as [t |] eqn:Hturn; [cbn | done].
  apply loop_turn_shape in Hturn. rewrite (inv_count _ _ _ Hinv) in Hturn.
  pose proof (lookup_lt_Some _ _ _ Htask) as Hbucket.
  pose proof (inv_tasks _ _ _ Hinv) as Htasks.
  destruct (inv_running _ _ _ Hinv _ _ Htask) as [Hclass Hpushed].
  assert (block_stored ∉ trace ps) as Hnoblock.
  { intros Hin. destruct (inv_block _ _ _ Hinv Hin) as (_ & _ & Hall & _).
    rewrite Hall in Htask by lia. discriminate. }
  (* the other tasks, whatever becomes of this one *)
  assert (forall task' b p, (<[bucket := task']> (tasks ps)) !! b
                            = Some (running p) ->
            b <> bucket ->
            (p < count -> p mod buckets = N.of_nat b) /\
            forall q, q < count -> q mod buckets = N.of_nat b ->
              (transaction_pushed b q ∈ trace ps <-> q < p)) as Hothers.
  { intros task' b p Hl Hne. rewrite list_lookup_insert_ne in Hl by done.
    by apply (inv_running _ _ _ Hinv). }
  destruct t as [position' s' | ok s'].
  - (* the body ran at [position] *)
    destruct Hturn as (Hlt & -> & Hlen). intros [= <-].
    specialize (Hclass Hlt).
    split; cbn [shared tasks counter handled trace fst].
    + by rewrite Hlen, (inv_count _ _ _ Hinv).
    + by rewrite length_insert.
    + apply NoDup_cons. split; [| apply (inv_nodup _ _ _ Hinv)].
      intros Hin. apply Hpushed in Hin; [lia | done | done].
    + intros b p [Heq | Hin]%elem_of_cons.
      * by injection Heq as -> ->.
      * by apply (inv_events _ _ _ Hinv).
    + intros b p Hl. destruct (decide (b = bucket)) as [-> | Hne].
      * rewrite list_lookup_insert_eq in Hl by done. injection Hl as <-.
        split.
        { intros Hnext. rewrite (ceiling_add_class _ _ _ Hcount Hnext).
          rewrite <- Hclass.
          rewrite <- (N.Div0.add_mod_idemp_r position buckets buckets).
          by rewrite N.Div0.mod_same, N.add_0_r. }
        intros q Hq Hqb. rewrite elem_of_cons, (Hpushed q Hq Hqb).
        rewrite (ceiling_add_above position buckets count q Hb Hcount Hq)
          by (by rewrite Hqb, Hclass).
        split.
        { intros [Heq | Hless]; [injection Heq as -> | ]; lia. }
        intros Hle. destruct (decide (q = position)) as [-> | Hneq];
          [by left | right; lia].
      * destruct (Hothers _ _ _ Hl Hne) as [Hc Hp]. split; [done |].
        intros q Hq Hqb. rewrite elem_of_cons, <- (Hp q Hq Hqb).
        split; [| by right]. intros [Heq | Hin]; [| done].
        injection Heq as -> _. done.
    + intros Hne.
      destruct (inv_counter _ _ _ Hinv Hne) as (Hnb & Hc & Hfin).
      split; [| split].
      * apply not_elem_of_cons. split; [discriminate | done].
      * by rewrite (finished_count_running _ _ _ _ Htask).
      * intros b Hl q Hq Hqb. apply elem_of_cons. right.
        destruct (decide (b = bucket)) as [-> | Hneb].
        { rewrite list_lookup_insert_eq in Hl by done. discriminate. }
        rewrite list_lookup_insert_ne in Hl by done. by apply Hfin.
    + intros [Heq | Hin]%elem_of_cons; [discriminate | done].
  - (* the task returned *)
    destruct Hturn as (Hlen & Hok).
    assert (forall b p, (<[bucket := finished]> (tasks ps)) !! b
                        = Some (running p) -> b <> bucket) as Hrunning.
    { intros b p Hl ->. rewrite list_lookup_insert_eq in Hl by done.
      discriminate. }
    assert (ok = true ->
            forall b, (<[bucket := finished]> (tasks ps)) !! b = Some finished ->
            counter ps <> buckets ->
            forall q, q < count -> q mod buckets = N.of_nat b ->
              transaction_pushed b q ∈ trace ps) as Hdone.
    { intros -> b Hl Hne q Hq Hqb.
      destruct (decide (b = bucket)) as [-> | Hneb].
      - apply Hpushed; [done | done |]. specialize (Hok eq_refl). lia.
      - rewrite list_lookup_insert_ne in Hl by done.
        destruct (inv_counter _ _ _ Hinv Hne) as (_ & _ & Hfin).
        by apply Hfin. }
    unfold join_handler. cbn.
    destruct (N.eqb_spec (counter ps) buckets) as [Hclear | Hne].
    + (* the count was cleared before: the call is ignored *)
      intros [= <-]. split; cbn [shared tasks counter handled trace fst].
      * by rewrite Hlen, (inv_count _ _ _ Hinv).
      * by rewrite length_insert.
      * apply (inv_nodup _ _ _ Hinv).
      * apply (inv_events _ _ _ Hinv).
      * intros b p Hl. apply (Hothers _ _ _ Hl). by eapply Hrunning.
      * done.
      * done.
    + destruct (inv_counter _ _ _ Hinv Hne) as (Hnb & Hc & Hfin).
      destruct ok; cbn;
        change (is_error success) with false;
        change (is_error operation_failed) with true; cbn iota.
      * destruct (N.eqb_spec (counter ps + 1) buckets) as [Hlast | Hmore].
        -- (* the last task: the block is stored *)
           unfold handle_do_push_transactions. cbn. destruct s' as [txs db].
           intros [= <-]. split; cbn [shared tasks counter handled trace fst].
           ++ cbn in Hlen. by rewrite Hlen, (inv_count _ _ _ Hinv).
           ++ by rewrite length_insert.
           ++ apply NoDup_cons. split; [done | apply (inv_nodup _ _ _ Hinv)].
           ++ intros b p [Heq | Hin]%elem_of_cons; [discriminate |].
              by apply (inv_events _ _ _ Hinv).
           ++ intros b p Hl.
              destruct (Hothers _ _ _ Hl (Hrunning _ _ Hl)) as [Hc' Hp].
              split; [done |]. intros q Hq Hqb.
              rewrite elem_of_cons, <- (Hp q Hq Hqb).
              split; [| by right]. by intros [Heq | Hin].
           ++ intros Hcontra. lia.
           ++ intros _. split; [done |]. split; [eauto |]. split.
              ** intros b Hbl. apply finished_count_all.
                 --- rewrite (finished_count_finished _ _ _ Htask), length_insert.
                     lia.
                 --- rewrite length_insert. lia.
              ** intros q Hq. apply elem_of_cons. right.
                 pose proof (N.mod_upper_bound q buckets Hb) as Hmod.
                 apply (Hdone eq_refl); [| done | done | lia].
                 apply finished_count_all.
                 --- rewrite (finished_count_finished _ _ _ Htask), length_insert.
                     lia.
                 --- rewrite length_insert. lia.
        -- (* other tasks are still to join *)
           intros [= <-]. split; cbn [shared tasks counter handled trace fst].
           ++ by rewrite Hlen, (inv_count _ _ _ Hinv).
           ++ by rewrite length_insert.
           ++ apply (inv_nodup _ _ _ Hinv).
           ++ apply (inv_events _ _ _ Hinv).
           ++ intros b p Hl. apply (Hothers _ _ _ Hl). by eapply Hrunning.
           ++ intros _. split; [done |]. split.
              ** rewrite (finished_count_finished _ _ _ Htask). lia.
              ** intros b Hl. by apply (Hdone eq_refl).
           ++ done.
      * (* the task failed: the count is cleared, the error handled *)
        rewrite N.eqb_refl. unfold handle_do_push_transactions. cbn.
        intros [= <-]. split; cbn [shared tasks counter handled trace fst].
        -- by rewrite Hlen, (inv_count _ _ _ Hinv).
        -- by rewrite length_insert.
        -- apply (inv_nodup _ _ _ Hinv).
        -- apply (inv_events _ _ _ Hinv).
        -- intros b p Hl. apply (Hothers _ _ _ Hl). by eapply Hrunning.
        -- done.
        -- done.
Qed.

Lemma execute_invariant fuel head height count buckets schedule :
  buckets <> 0 -> count <= max_size_t ->
  forall ps ps',
    push_invariant count buckets ps ->
    execute fuel head height buckets schedule ps = Some ps' ->
    push_invariant count buckets ps'.
Proof.
  intros Hb Hcount.
  induction schedule as [| bucket schedule IH]; intros ps ps' Hinv; cbn.
  - by intros [= <-].
  - destruct (run_task fuel head height buckets bucket ps) as [ps1 |] eqn:Hturn;
      [cbn | done].
    apply IH. by eapply run_task_invariant.
Qed.

Lemma verify_push_block_success db b height :
  verify_push_block db b height = success -> transactions b <> [].
Proof. unfold verify_push_block. by destruct (transactions b). Qed.

(** [do_push] starts the tasks in a state that has the invariant. *)
Lemma do_push_invariant b height threads db :
  verify_push_block db b height = success ->
  push_invariant (N.of_nat (length (transactions b)))
    (N.min threads (N.of_nat (length (transactions b))))
    (do_push b height threads db).
Proof.
  intros Hverify. unfold do_push. rewrite Hverify.
  change (is_error success) with false. cbn iota.
  set (buckets := N.min threads (N.of_nat (length (transactions b)))).
  assert (forall bucket position,
            ((fun bucket => running (N.of_nat bucket))
               <$> seq 0 (N.to_nat buckets)) !! bucket = Some position ->
            position = running (N.of_nat bucket)
            /\ (bucket < N.to_nat buckets)%nat) as Hstart.
  { intros bucket position Hl.
    apply list_lookup_fmap_Some in Hl as (i & -> & Hi).
    apply lookup_seq in Hi as [-> Hlt]. done. }
  split; cbn [shared tasks counter handled trace fst].
  - done.
  - by rewrite length_fmap, length_seq.
  - apply NoDup_nil_2.
  - intros bucket position Hin. by apply elem_of_nil in Hin.
  - intros bucket position Hl.
    apply Hstart in Hl as [[= ->] Hlt].
    assert (N.of_nat bucket mod buckets = N.of_nat bucket) as Hsmall
      by (apply N.mod_small; lia).
    split; [done |]. intros q Hq Hqb. split.
    + intros Hin. by apply elem_of_nil in Hin.
    + intros Hless. pose proof (N.Div0.mod_le q buckets). lia.
  - intros _. split; [apply not_elem_of_nil |]. split.
    + unfold finished_count. clear Hstart.
      induction (seq 0 (N.to_nat buckets)) as [| i l IH]; [done |].
      cbn [fmap list_fmap]. rewrite filter_cons_False by done. exact IH.
    + intros bucket Hl. by apply Hstart in Hl as [? _].
  - intros Hin. by apply elem_of_nil in Hin.
Qed.

(** C6: a block of [n] transactions is pushed by [B = min(threads, n)]
    tasks.  The loop of [push_transactions] for bucket [b] of [B] hands its
    body exactly the positions below [n] that are [b] modulo [B], that is
    b, b+B, b+2B, ..., each once, and has returned within n+1 turns; a
    successful turn at a position stores the transaction at that position
    of the block under that position (as 16 bits), where [get] reads it
    back at the offset left in the transaction.  Under
    every schedule of the tasks of [do_push], every push that has happened
    is the push of a position below [n] by the bucket of its residue class
    and has happened once; and if the block was stored, every task had
    finished, [handler] got success, the block store is the last event, and
    the pushes before it are, up to their order, the positions 0, ..., n-1,
    each pushed once by its bucket. *)
Theorem parallel_push_partition fuel b height threads db :
  let count := N.of_nat (length (transactions b)) in
  let buckets := N.min threads count in
  count <= max_size_t ->
  0 < threads ->
  verify_push_block db b height = success ->
  (forall bucket, bucket < buckets ->
     exists all,
       for_positions (S (length (transactions b))) count buckets
         record_position bucket []
       = Some (true, all) /\
       NoDup all /\
       forall q, q ∈ all <-> q < count /\ q mod buckets = bucket) /\
  (forall position s s',
     push_transaction_at fuel height state.confirmed position s
     = Some (true, s') ->
     exists tx tx' hash,
       fst s !! N.to_nat position = Some tx /\
       fst s' = <[N.to_nat position := tx']> (fst s) /\
       tx_hash tx' = tx_hash tx /\
       transaction_database.get_offset (transactions_ (snd s'))
         (validation_offset tx')
       = Some (transaction_database.mk_result (Some (validation_offset tx'))
                 (to_uint32 height) (to_uint16 position) hash
                 state.confirmed)) /\
  forall schedule ps,
    execute fuel (block_header b) height buckets schedule
      (do_push b height threads db) = Some ps ->
    NoDup (trace ps) /\
    (forall bucket position,
       transaction_pushed bucket position ∈ trace ps ->
       position < count /\ position mod buckets = N.of_nat bucket) /\
    (block_stored ∈ trace ps ->
       handled ps = Some success /\
       (forall bucket, (bucket < N.to_nat buckets)%nat ->
          tasks ps !! bucket = Some finished) /\
       exists pushes,
         trace ps = block_stored :: pushes /\
         pushes ≡ₚ
           (fun i => transaction_pushed (N.to_nat (N.of_nat i mod buckets))
                       (N.of_nat i))
           <$> seq 0 (length (transactions b))).
Proof.
  intros count buckets Hcount Hthreads Hverify.
  assert (buckets <> 0) as Hb.
  { apply verify_push_block_success in Hverify.
    unfold buckets, count. destruct (transactions b); [done | cbn; lia]. }
  split.
  - intros bucket Hbucket.
    apply (for_positions_record _ count buckets bucket Hb Hcount);
      [unfold count; lia | | apply NoDup_nil_2 | |].
    + intros _. apply N.mod_small. done.
    + intros q Hin. by apply elem_of_nil in Hin.
    + intros q Hq _ Hqb. pose proof (N.Div0.mod_le q buckets). lia.
  - split.
    { intros position s s' Hbody.
      destruct (push_transaction_at_read_back _ _ _ _ _ _ Hbody)
        as (tx & tx' & hash & Htx & Htxs & Hhash & _ & Hget).
      by exists tx, tx', hash. }
    intros schedule ps Hrun.
    pose proof (execute_invariant _ _ _ count buckets _ Hb Hcount _ _
                  (do_push_invariant b height threads db Hverify) Hrun)
      as Hinv.
    split; [apply (inv_nodup _ _ _ Hinv) |].
    split; [apply (inv_events _ _ _ Hinv) |].
    intros Hstored.
    destruct (inv_block _ _ _ Hinv Hstored)
      as (Hhandled & [pushes Htrace] & Hfinished & Hall).
    split; [done |]. split; [done |].
    exists pushes. split; [done |].
    pose proof (inv_nodup _ _ _ Hinv) as Hnodup. rewrite Htrace in Hnodup.
    apply NoDup_cons in Hnodup as [Hfresh Hnodup].
    apply NoDup_Permutation; [done | |].
    + apply NoDup_fmap_2_strong; [| apply NoDup_seq].
      intros i j _ _ [= _ Heq]. lia.
    + intros e. rewrite list_elem_of_fmap. split.
      * intros Hin. destruct e as [bucket position |]; [| done].
        assert (transaction_pushed bucket position ∈ trace ps) as Hin'.
        { rewrite Htrace. apply elem_of_cons. by right. }
        apply (inv_events _ _ _ Hinv) in Hin' as [Hlt Hclass].
        exists (N.to_nat position). split.
        -- rewrite N2Nat.id, Hclass, Nat2N.id. done.
        -- apply elem_of_seq. unfold count in Hlt. lia.
      * intros (i & -> & Hi). apply elem_of_seq in Hi.
        assert (N.of_nat i < count) as Hlt by (unfold count; lia).
        specialize (Hall _ Hlt). rewrite Htrace in Hall.
        apply elem_of_cons in Hall as [Hcontra | Hin]; [discriminate | done].
Qed.

End with_parts.

(** *** The concrete checks *)

Import sample.
#[local] Existing Instance chain_v3.
#[local] Existing Instance parts.

(** C7, the claim as written fails: the top of both indexes is 0; [pop] at
    height 3 returns operation_failed, not store_block_invalid_height. *)
Lemma pop_returns_operation_failed :
  blocks_top true (blocks_ genesis_store) = Some 0 /\
  blocks_top false (blocks_ genesis_store) = Some 0 /\
  pop_block 1 3 genesis_store = Some (operation_failed, None, genesis_store) /\
  pop_header 1 3 genesis_store = Some (operation_failed, None, genesis_store) /\
  fst <$> (fst <$> pop_block 1 3 genesis_store)
  <> Some store_block_invalid_height /\
  fst <$> (fst <$> pop_header 1 3 genesis_store)
  <> Some store_block_invalid_height.
Proof. repeat split; vm_compute; (reflexivity || congruence). Qed.

Lemma pop_height_mismatch_witness :
  pop_block 1 3 genesis_store = Some (operation_failed, None, genesis_store) /\
  pop_header 1 3 genesis_store = Some (operation_failed, None, genesis_store).
Proof.
  destruct (pop_height_mismatch 1 3 genesis_store) as [Hblock Hheader].
  split; [apply Hblock | apply Hheader]; vm_compute; discriminate.
Defined.

(** The genesis coinbase is an unspent duplicate; a transaction under a new
    hash is pooled. *)
Lemma push_unspent_duplicate_witness :
  push_transaction 1 coinbase_tx 1 genesis_store
  = Some (unspent_duplicate, coinbase_tx, genesis_store).
Proof.
  apply push_unspent_duplicate. split; [| done].
  exists (transaction_database.mk_result (Some 48) 0 0 coinbase_hash
            state.confirmed).
  repeat split; vm_compute; reflexivity.
Defined.

Example push_pools_new_transaction :
  (fun r => (r.1.1, validation_offset r.1.2))
    <$> push_transaction 1 (plain_tx x21) 1 genesis_store
  = Some (success, 153).
Proof. vm_compute. reflexivity. Qed.

(** A block of three transactions pushed by two tasks: bucket 0 pushes the
    positions 0 and 2, bucket 1 the position 1, and the block is stored
    last. *)
Example two_tasks_push_three :
  (fun ps => (trace ps, tasks ps, handled ps,
              validation_offset <$> fst (shared ps),
              snd (blocks_ (snd (shared ps)))))
    <$> execute 1 next_header 1 2 [0; 1; 1; 0; 0]%nat
          (do_push next_block 1 2 genesis_store)
  = Some ([block_stored; transaction_pushed 0 2; transaction_pushed 1 1;
           transaction_pushed 0 0],
          [finished; finished], Some success,
          [153; 218; 283],
          [(genesis_header, [48]); (next_header, [153; 218; 283])]).
Proof. vm_compute. reflexivity. Qed.

Lemma parallel_push_partition_witness :
  exists ps,
    execute 1 next_header 1 2 [0; 1; 1; 0; 0]%nat
      (do_push next_block 1 2 genesis_store) = Some ps /\
    trace ps = [block_stored; transaction_pushed 0 2; transaction_pushed 1 1;
                transaction_pushed 0 0] /\
    NoDup (trace ps) /\
    (exists all,
       for_positions 4 3 2 record_position 0 [] = Some (true, all) /\
       forall q, q ∈ all <-> q < 3 /\ q mod 2 = 0).
Proof.
  destruct (parallel_push_partition 1 next_block 1 2 genesis_store)
    as (Hloop & _ & Hrun); try (vm_compute; (reflexivity || congruence)).
  destruct (execute 1 next_header 1 2 [0; 1; 1; 0; 0]%nat
              (do_push next_block 1 2 genesis_store)) as [ps |] eqn:Hexec;
    [| vm_compute in Hexec; discriminate].
  exists ps. split; [reflexivity |].
  destruct (Hrun [0; 1; 1; 0; 0]%nat ps Hexec) as (Hnodup & _ & _).
  split.
  { vm_compute in Hexec. injection Hexec as <-. reflexivity. }
  split; [exact Hnodup |].
  destruct (Hloop 0) as (all & Hall & _ & Hmem); [vm_compute; reflexivity |].
  exists all. split; [exact Hall | exact Hmem].
Defined.

End data_base_facts.

(** ** Theorems: mapping and resizing the file *)

Module mmfile_mapping_facts.
Import mmfile.

Local Ltac settle :=
  intros [= <- <-]; cbn; repeat split; intros; try done; eauto.

Lemma validate_outcome r sz m :
  validate r sz m
  = match r with
    | Some a => (true, mk (file_handle_ m) (Some a) sz (file_length m))
    | None => (false, mk (file_handle_ m) None 0 (file_length m))
    end.
Proof. by destruct r. Qed.

(** [resize] that returns true has mapped the file at the size asked
    for. *)
Lemma resize_true_size sys new_size m m' :
  resize sys new_size m = (true, m') -> size_ m' = new_size.
Proof.
  unfold resize, remap, unmap, map, validate.
  destruct (ftruncate_ok sys (file_handle_ m) new_size); cbn; [| done].
  destruct (MREMAP_MAYMOVE sys).
  - by destruct (mremap_at sys _ _ _) as [a |]; intros [= <-].
  - destruct (munmap_ok sys _ _); cbn; [| done].
    destruct (new_size =? 0); cbn; [done |].
    by destruct (mmap_at sys _ _) as [a |]; intros [= <-].
Qed.

(** [resize] leaves one of three states behind.  When it returns true the
    file is mapped and the logical size and the length of the file are the
    size asked for.  When it returns false either [ftruncate] refused and
    nothing was done, or the file has the new length but is no longer
    mapped and the logical size is 0.  The file handle is never changed. *)
Theorem resize_outcome sys new_size m ok m' :
  resize sys new_size m = (ok, m') ->
  file_handle_ m' = file_handle_ m /\
  (ok = true ->
     is_Some (data_ m') /\ size_ m' = new_size /\ file_length m' = new_size) /\
  (ok = false ->
     m' = m \/
     (data_ m' = None /\ size_ m' = 0 /\ file_length m' = new_size)).
Proof.
  unfold resize, remap, unmap, map, validate.
  destruct (ftruncate_ok sys (file_handle_ m) new_size); cbn;
    [| settle].
  destruct (MREMAP_MAYMOVE sys).
  - destruct (mremap_at sys _ _ _) as [a |]; settle.
  - destruct (munmap_ok sys _ _); cbn; [| settle].
    destruct (new_size =? 0); cbn; [settle |].
    destruct (mmap_at sys _ _) as [a |]; settle.
Qed.

Lemma resize_outcome_witness :
  exists m',
    resize sys_ok 4 two_bytes = (true, m') /\
    is_Some (data_ m') /\ size_ m' = 4 /\ file_length m' = 4.
Proof.
  eexists. split; [vm_compute; reflexivity |].
  apply (resize_outcome sys_ok 4 two_bytes true); [vm_compute | ]; reflexivity.
Defined.

Lemma three_halves_wrapped n :
  n <= max_size_t -> max_size_t < n * 3 -> to_size_t (n * 3) / 2 < n.
Proof.
  unfold to_size_t, max_size_t, max_uint64. intros Hn Hwrap.
  assert (2 ^ 64 <> 0) as Hnz by done.
  pose proof (N.div_mod (n * 3) (2 ^ 64) Hnz) as Hdm.
  pose proof (N.mod_upper_bound (n * 3) (2 ^ 64) Hnz) as Hub.
  assert (1 <= n * 3 / 2 ^ 64) as Hq.
  { apply N.div_le_lower_bound; lia. }
  apply N.Div0.div_lt_upper_bound.
  set (q := n * 3 / 2 ^ 64) in *. set (r := (n * 3) mod 2 ^ 64) in *.
  change (2 ^ 64) with 18446744073709551616 in *. nia.
Qed.

(** [reserve] that returns true has made room for the size asked for, as
    long as three times that size fits [size_t]; when the product wraps,
    a file smaller than the size asked for is mapped at less than that
    size, and [reserve] still returns true. *)
Theorem reserve_postcondition sys n m m' :
  reserve sys n m = (true, m') ->
  (n * 3 <= max_size_t -> n <= size_ m') /\
  (size_ m < n -> n <= max_size_t -> max_size_t < n * 3 -> size_ m' < n).
Proof.
  unfold reserve.
  destruct (N.leb_spec n (size_ m)) as [Hle | Hlt].
  - intros [= <-]. split; [done |]. intros Hlt. lia.
  - intros Hresize.
    apply resize_true_size in Hresize as ->.
    split.
    + intros Hfit. unfold to_size_t, max_size_t, max_uint64 in *.
      rewrite N.mod_small by lia.
      replace (n * 3) with (n + n * 2) by lia.
      rewrite N.div_add by lia. apply N.le_add_l.
    + intros _. apply three_halves_wrapped.
Qed.

Lemma reserve_postcondition_witness :
  exists m' m'',
    reserve sys_ok 3 two_bytes = (true, m') /\ 3 <= size_ m' /\
    reserve sys_ok (2 ^ 63) two_bytes = (true, m'') /\ size_ m'' < 2 ^ 63.
Proof.
  eexists _, _.
  split; [vm_compute; reflexivity |].
  split.
  { apply (reserve_postcondition sys_ok 3 two_bytes); vm_compute;
      (reflexivity || congruence). }
  split; [vm_compute; reflexivity |].
  apply (reserve_postcondition sys_ok (2 ^ 63) two_bytes); vm_compute;
    (reflexivity || congruence).
Defined.

(** No operation leaves a logical size behind without a mapping: if the
    size is 0 whenever the data pointer is null, this is so after [map],
    [remap], [unmap], [resize] and [reserve], whatever they return. *)
Theorem null_mapping_has_size_zero sys n m :
  (data_ m = None -> size_ m = 0) ->
  Forall (fun m' => data_ m' = None -> size_ m' = 0)
    [snd (map sys n m); snd (remap sys n m); snd (unmap sys m);
     snd (resize sys n m); snd (reserve sys n m)].
Proof.
  intros Hm.
  assert (forall k m0, (data_ m0 = None -> size_ m0 = 0) ->
            data_ (snd (resize sys k m0)) = None ->
            size_ (snd (resize sys k m0)) = 0) as Hresize.
  { intros k m0 Hm0. unfold resize, remap, unmap, map, validate.
    destruct (ftruncate_ok sys (file_handle_ m0) k); cbn; [| done].
    destruct (MREMAP_MAYMOVE sys).
    - by destruct (mremap_at sys _ _ _).
    - destruct (munmap_ok sys _ _); cbn; [| done].
      destruct (k =? 0); cbn; [done |].
      by destruct (mmap_at sys _ _). }
  repeat constructor.
  - unfold map, validate. destruct (n =? 0); [done |].
    by destruct (mmap_at sys _ _).
  - unfold remap, validate. by destruct (mremap_at sys _ _ _).
  - by apply Hresize.
  - unfold reserve. destruct (n <=? size_ m); [done |]. by apply Hresize.
Qed.

Lemma null_mapping_has_size_zero_witness :
  Forall (fun m' => data_ m' = None -> size_ m' = 0)
    [snd (map sys_ok 4 two_bytes); snd (remap sys_ok 4 two_bytes);
     snd (unmap sys_ok two_bytes); snd (resize sys_ok 4 two_bytes);
     snd (reserve sys_ok 4 two_bytes)].
Proof. apply null_mapping_has_size_zero. vm_compute. congruence. Defined.

End mmfile_mapping_facts.

(** ** Theorems: the bucket lists of the slab hash table *)

Module slab_traversal_facts.
Import slab_hash_table.

Implicit Types (table : t) (key : key_type) (value : list byte).

(** *** Lists that end *)

Lemma ends_from_more fuel table : forall current,
  ends_from fuel table current = true ->
  ends_from (S fuel) table current = true.
Proof.
  induction fuel as [| fuel IH]; intros current; cbn.
  - by destruct (current =? empty).
  - destruct (current =? empty); [done |].
    destruct (slab_row table current) as [item |]; [| done].
    apply IH.
Qed.

Lemma ends_from_add extra fuel table current :
  ends_from fuel table current = true ->
  ends_from (extra + fuel) table current = true.
Proof.
  intros Hends. induction extra as [| extra IH]; [done |].
  by apply ends_from_more in IH.
Qed.

Lemma chain_from_more fuel table : forall current,
  ends_from fuel table current = true ->
  chain_from (S fuel) table current = chain_from fuel table current.
Proof.
  induction fuel as [| fuel IH]; intros current; cbn.
  - by destruct (current =? empty).
  - destruct (current =? empty); [done |].
    destruct (slab_row table current) as [item |]; [| done].
    intros Hends. f_equal. by apply IH.
Qed.

Lemma chain_from_add extra fuel table current :
  ends_from fuel table current = true ->
  chain_from (extra + fuel) table current = chain_from fuel table current.
Proof.
  intros Hends. induction extra as [| extra IH]; [done |].
  cbn [Nat.add]. rewrite chain_from_more; [done |].
  by apply ends_from_add.
Qed.

(** Two budgets that both see the end of a list see the same list. *)
Lemma chain_from_same fuel fuel' table current :
  ends_from fuel table current = true ->
  ends_from fuel' table current = true ->
  chain_from fuel table current = chain_from fuel' table current.
Proof.
  intros Hends Hends'.
  destruct (Nat.le_gt_cases fuel fuel') as [Hle | Hlt].
  - replace fuel' with ((fuel' - fuel) + fuel)%nat by lia.
    by rewrite chain_from_add.
  - replace fuel with ((fuel - fuel') + fuel')%nat by lia.
    by rewrite chain_from_add.
Qed.

(** What follows a row of a traversal is the traversal from its link. *)
Lemma chain_from_split before : forall fuel table current position item after,
  chain_from fuel table current = before ++ (position, item) :: after ->
  exists fuel',
    slab_row table position = Some item /\
    after = chain_from fuel' table (row_next item) /\
    ends_from fuel' table (row_next item) = ends_from fuel table current.
Proof.
  induction before as [| entry before IH];
    intros [| fuel] table current position item after; cbn;
    destruct (current =? empty); try done;
    destruct (slab_row table current) as [item' |] eqn:Hrow; try done.
  - intros [= -> -> <-]. eauto.
  - intros [= _ Hrest]. by apply IH in Hrest.
Qed.

Lemma chain_from_rows fuel table current position item :
  (position, item) ∈ chain_from fuel table current ->
  slab_row table position = Some item.
Proof.
  intros (before & after & Hsplit)%list_elem_of_split.
  by apply chain_from_split in Hsplit as (? & ? & _).
Qed.

(** A list that ends visits no row twice. *)
Lemma chain_from_NoDup fuel table : forall current,
  ends_from fuel table current = true ->
  NoDup (fst <$> chain_from fuel table current).
Proof.
  induction fuel as [| fuel IH]; intros current; cbn.
  - destruct (current =? empty); constructor.
  - destruct (current =? empty); [constructor |].
    destruct (slab_row table current) as [item |] eqn:Hrow; [| done].
    intros Hends. cbn. apply NoDup_cons. split; [| by apply IH].
    intros ([position item'] & Heq & Hin)%list_elem_of_fmap. cbn in Heq.
    subst position.
    pose proof (chain_from_rows _ _ _ _ _ Hin) as Hrow'.
    rewrite Hrow in Hrow'. injection Hrow' as <-.
    apply list_elem_of_split in Hin as (before & after & Hsplit).
    pose proof Hsplit as Hlen.
    apply chain_from_split in Hsplit as (fuel' & _ & Hafter & Hends').
    rewrite Hends in Hends'.
    rewrite (chain_from_same fuel' fuel) in Hafter by done.
    rewrite <- Hafter in Hlen. apply (f_equal length) in Hlen.
    rewrite length_app in Hlen. cbn in Hlen. lia.
Qed.

(** *** Writing a row the traversal does not visit *)

Lemma slab_row_put table position item current :
  slab_row (put_row position item table) current
  = if decide (position = current) then Some item else slab_row table current.
Proof. unfold slab_row, put_row. cbn. apply lookup_insert. Qed.

Lemma chain_from_put_other fuel table position item : forall current,
  is_Some (slab_row table position) ->
  position ∉ (fst <$> chain_from fuel table current) ->
  chain_from fuel (put_row position item table) current
  = chain_from fuel table current.
Proof.
  intros current Hsome. revert current.
  induction fuel as [| fuel IH]; intros current; cbn; [done |].
  destruct (current =? empty); [done |].
  rewrite slab_row_put.
  destruct (decide (position = current)) as [-> | Hne].
  - destruct Hsome as [item' ->]. cbn. intros Hnot. exfalso.
    apply Hnot. apply elem_of_cons. by left.
  - destruct (slab_row table current) as [item' |]; [| done].
    cbn. intros Hnot. f_equal. apply IH.
    intros Hin. apply Hnot. apply elem_of_cons. by right.
Qed.

Lemma ends_from_put_other fuel table position item : forall current,
  is_Some (slab_row table position) ->
  position ∉ (fst <$> chain_from fuel table current) ->
  ends_from fuel (put_row position item table) current
  = ends_from fuel table current.
Proof.
  intros current Hsome. revert current.
  induction fuel as [| fuel IH]; intros current; cbn; [done |].
  destruct (current =? empty); [done |].
  rewrite slab_row_put.
  destruct (decide (position = current)) as [-> | Hne].
  - destruct Hsome as [item' ->]. cbn. intros Hnot. exfalso.
    apply Hnot. apply elem_of_cons. by left.
  - destruct (slab_row table current) as [item' |]; [| done].
    cbn. intros Hnot. apply IH.
    intros Hin. apply Hnot. apply elem_of_cons. by right.
Qed.

(** *** find *)

Lemma find_loop_first_match fuel table key : forall current result,
  find_loop fuel table key current = Some result ->
  result = (fun entry => data table (fst entry))
           <$> first_match key (chain_from fuel table current).
Proof.
  unfold first_match.
  induction fuel as [| fuel IH]; intros current result; cbn.
  - destruct (current =? empty); [| done]. by intros [= <-].
  - destruct (current =? empty); [by intros [= <-] |].
    destruct (slab_row table current) as [item |]; [cbn | done].
    destruct (compare item key); [by intros [= <-] | apply IH].
Qed.

Lemma find_loop_ends fuel table key : forall current,
  ends_from fuel table current = true ->
  is_Some (find_loop fuel table key current).
Proof.
  induction fuel as [| fuel IH]; intros current; cbn.
  - destruct (current =? empty); [eauto | done].
  - destruct (current =? empty); [eauto |].
    destruct (slab_row table current) as [item |]; [cbn | done].
    destruct (compare item key); [eauto | apply IH].
Qed.

Lemma find_ends fuel table key :
  ends fuel table key = true ->
  find fuel table key
  = Some ((fun entry => data table (fst entry))
          <$> first_match key (chain fuel table key)).
Proof.
  unfold ends, find, chain.
  destruct (read_bucket_value table key) as [current |]; [cbn | done].
  intros Hends.
  destruct (find_loop_ends fuel table key current Hends) as [result Hfind].
  rewrite Hfind. f_equal. by apply find_loop_first_match.
Qed.

(** [find] returns the first of multiple matching key values: what it
    returns is the value address of the first row of the bucket list that
    holds the key, and nothing when no row of the list does; and it does
    return whenever the list ends within the rows it may visit. *)
Theorem find_first_match fuel table key :
  (forall result,
     find fuel table key = Some result ->
     result = (fun entry => data table (fst entry))
              <$> first_match key (chain fuel table key)) /\
  (ends fuel table key = true ->
   find fuel table key
   = Some ((fun entry => data table (fst entry))
           <$> first_match key (chain fuel table key))).
Proof.
  split; [| apply find_ends].
  intros result. unfold find, chain.
  destruct (read_bucket_value table key) as [current |]; [cbn | done].
  apply find_loop_first_match.
Qed.

(** *** Runs of stores *)

Lemma ends_from_extends fuel table table' current :
  wf table -> extends table table' -> linked table current ->
  ends_from fuel table' current = ends_from fuel table current.
Proof.
  intros Hwf [Hks Hext]. revert current.
  induction fuel as [| fuel IH]; intros current Hlinked; cbn; [done |].
  destruct (current =? empty) eqn:Hempty; [done |].
  destruct Hlinked as [-> | [item Hrow]]; [done |].
  rewrite Hrow, (Hext _ _ Hrow). apply IH. eapply wf_nexts; eauto.
Qed.

Lemma chain_same_bucket fuel table key key' :
  bucket_index table key = bucket_index table key' ->
  chain fuel table key = chain fuel table key'.
Proof. intros Hsame. unfold chain, read_bucket_value. by rewrite Hsame. Qed.

Lemma chain_stored_bucket fuel table key key' value value_size first :
  wf table ->
  read_bucket_value table key' = Some first ->
  bucket_index table key = bucket_index table key' ->
  chain (S fuel) (stored table key' value value_size first) key
  = (payload_size (manager_ table), mk_row key' first value)
      :: chain fuel table key.
Proof.
  intros Hwf Hfirst Hsame.
  rewrite (chain_same_bucket _ _ key key')
    by by rewrite !slab_facts.stored_bucket_index.
  rewrite (chain_same_bucket _ table key key') by done.
  by apply slab_facts.chain_stored.
Qed.

Lemma chain_stored_other_bucket fuel table key key' value value_size first :
  wf table ->
  bucket_index table key <> bucket_index table key' ->
  chain fuel (stored table key' value value_size first) key
  = chain fuel table key.
Proof.
  intros Hwf Hother. unfold chain, read_bucket_value.
  rewrite slab_facts.stored_bucket_index. cbn [header_ stored].
  rewrite list_lookup_insert_ne by lia.
  destruct (header_ table !! N.to_nat (bucket_index table key))
    as [current |] eqn:Hhead; [| done].
  apply slab_facts.chain_from_extends;
    [done | by apply slab_facts.stored_extends |].
  eapply wf_heads; eauto.
Qed.

(** Every bucket list of the table ends within [fuel] rows. *)
Lemma stored_all_end fuel table key value value_size first :
  wf table ->
  read_bucket_value table key = Some first ->
  (forall i head, header_ table !! i = Some head ->
     ends_from fuel table head = true) ->
  forall i head,
    header_ (stored table key value value_size first) !! i = Some head ->
    ends_from (S fuel) (stored table key value value_size first) head = true.
Proof.
  intros Hwf Hfirst Hall i head. cbn [header_ stored]. intros Hhead.
  pose proof (slab_facts.stored_extends table key value value_size first Hwf)
    as Hext.
  apply list_lookup_insert_Some in Hhead as [(_ & <- & _) | (_ & Hhead)].
  - cbn -[stored N.eqb].
    pose proof (wf_payload _ Hwf) as Hpos.
    destruct (N.eqb_spec (payload_size (manager_ table)) empty) as [Hz | _].
    { unfold empty in Hz. lia. }
    rewrite slab_facts.stored_row. cbn [row_next].
    rewrite (ends_from_extends _ table); [| done | done |].
    + by apply (Hall _ _ Hfirst).
    + eapply wf_heads; eauto.
  - apply ends_from_more.
    rewrite (ends_from_extends _ table); [| done | done |].
    + by apply (Hall _ _ Hhead).
    + eapply wf_heads; eauto.
Qed.

Lemma created_all_end buckets key_bytes i head :
  header_ (created buckets key_bytes) !! i = Some head ->
  ends_from 0 (created buckets key_bytes) head = true.
Proof. cbn. by intros [-> _]%lookup_replicate. Qed.





Lemma values_put_cons key key' value value_size rest :
  values_put key ((key', value, value_size) :: rest)
  = (if decide (key' = key) then [value] else []) ++ values_put key rest.
Proof.
  unfold values_put. rewrite filter_cons. cbn.
  by destruct (decide (key' = key)).
Qed.

Lemma values_of_cons key position item rows :
  values_of key ((position, item) :: rows)
  = (if decide (row_key item = key) then [row_value item] else [])
    ++ values_of key rows.
Proof.
  unfold values_of. cbn [fmap list_fmap snd]. rewrite filter_cons.
  by destruct (decide (row_key item = key)).
Qed.

Lemma chain_store_all key entries : forall fuel table,
  wf table ->
  (forall i head, header_ table !! i = Some head ->
     ends_from fuel table head = true) ->
  exists table',
    store_all entries table = Some table' /\ wf table' /\
    (forall i head, header_ table' !! i = Some head ->
       ends_from (length entries + fuel) table' head = true) /\
    values_of key (chain (length entries + fuel) table' key)
    = rev (values_put key entries) ++ values_of key (chain fuel table key).
Proof.
  induction entries as [| [[key' value'] value_size'] rest IH];
    intros fuel table Hwf Hall.
  - exists table. by cbn.
  - destruct (slab_facts.read_bucket_value_some table key' (wf_buckets _ Hwf))
      as [first Hfirst].
    cbn [store_all]. rewrite (slab_facts.store_stored _ _ _ _ _ Hfirst).
    cbn [mbind option_bind].
    pose proof (slab_facts.stored_wf _ key' value' value_size' _ Hwf Hfirst)
      as Hwf1.
    pose proof (stored_all_end fuel _ key' value' value_size' _ Hwf Hfirst Hall)
      as Hall1.
    replace (length ((key', value', value_size') :: rest) + fuel)%nat
      with (length rest + S fuel)%nat by (cbn; lia).
    destruct (IH (S fuel) _ Hwf1 Hall1) as (table' & Hrun & Hwf' & Hall' & Hvalues).
    exists table'. split; [done |]. split; [done |]. split; [done |].
    rewrite Hvalues, values_put_cons, rev_app_distr, <- app_assoc. f_equal.
    destruct (decide (bucket_index table key = bucket_index table key'))
      as [Hsame | Hdiff].
    + rewrite chain_stored_bucket by done. rewrite values_of_cons. cbn.
      by destruct (decide (key' = key)).
    + rewrite chain_stored_other_bucket by done.
      destruct (decide (key' = key)) as [-> | _]; [done |]. cbn.
      f_equal. unfold chain.
      destruct (read_bucket_value table key) as [current |] eqn:Hhead;
        [| done].
      apply chain_from_more. by apply (Hall _ _ Hhead).
Qed.

(** Duplicates are kept, and met in the reverse of the order written: in a
    table that starts empty the traversal of the bucket of [key] ends, and
    the values it meets under [key] are all the values stored under [key],
    the last stored first. *)
Theorem stores_chain_in_reverse buckets key_bytes entries key :
  (0 < buckets)%nat ->
  exists table,
    store_all entries (created buckets key_bytes) = Some table /\
    ends (length entries) table key = true /\
    values_of key (chain (length entries) table key)
    = rev (values_put key entries).
Proof.
  intros Hb.
  destruct (chain_store_all key entries 0 (created buckets key_bytes))
    as (table & Hrun & Hwf & Hall & Hvalues);
    [by apply slab_facts.created_wf | apply created_all_end |].
  rewrite Nat.add_0_r in *.
  exists table. split; [done |]. split.
  - unfold ends.
    destruct (slab_facts.read_bucket_value_some table key (wf_buckets _ Hwf))
      as [head Hhead].
    rewrite Hhead. by apply (Hall _ _ Hhead).
  - rewrite Hvalues.
    replace (chain 0 (created buckets key_bytes) key) with
      (@nil (file_offset * row)); [by rewrite app_nil_r |].
    unfold chain. by destruct (read_bucket_value _ _) as [[] |].
Qed.

Lemma stores_chain_in_reverse_witness :
  exists table,
    store_all [(sample.key_a, [x0a], 1); (sample.key_b, [x0b], 1);
               (sample.key_a, [x0c], 1)] (created 4 2) = Some table /\
    ends 3 table sample.key_a = true /\
    values_of sample.key_a (chain 3 table sample.key_a) = [[x0c]; [x0a]].
Proof.
  apply (stores_chain_in_reverse 4 2
           [(sample.key_a, [x0a], 1); (sample.key_b, [x0b], 1);
            (sample.key_a, [x0c], 1)] sample.key_a).
  lia.
Defined.

Lemma ends_from_step fuel table current item :
  current <> empty ->
  slab_row table current = Some item ->
  ends_from (S fuel) table current = ends_from fuel table (row_next item).
Proof.
  intros Hne Hrow. cbn [ends_from].
  by rewrite (proj2 (N.eqb_neq _ _) Hne), Hrow.
Qed.

Lemma chain_from_step fuel table current item :
  current <> empty ->
  slab_row table current = Some item ->
  chain_from (S fuel) table current
  = (current, item) :: chain_from fuel table (row_next item).
Proof.
  intros Hne Hrow. cbn [chain_from].
  by rewrite (proj2 (N.eqb_neq _ _) Hne), Hrow.
Qed.

(** *** unlink *)

Lemma content_put_next position item next :
  content (position, mk_row (row_key item) next (row_value item))
  = content (position, item).
Proof. done. Qed.

(** Relinking a row keeps the invariant, when the new link leads to a row
    or is the end. *)
Lemma put_next_wf table position item next :
  wf table ->
  slab_row table position = Some item ->
  linked table next ->
  wf (put_row position (mk_row (row_key item) next (row_value item)) table).
Proof.
  intros Hwf Hrow Hnext.
  assert (forall current, linked table current ->
            linked (put_row position
                      (mk_row (row_key item) next (row_value item)) table)
              current) as Hlinked.
  { intros current [-> | [item' Hrow']]; [by left | right].
    rewrite slab_row_put. destruct (decide (position = current)); eauto. }
  split.
  - apply (wf_buckets _ Hwf).
  - apply (wf_payload _ Hwf).
  - intros current item'. rewrite slab_row_put.
    destruct (decide (position = current)) as [<- | _].
    + intros _. by apply (wf_below _ Hwf) in Hrow.
    + apply (wf_below _ Hwf).
  - intros i head Hhead. apply Hlinked. eapply wf_heads; eauto.
  - intros current item'. rewrite slab_row_put.
    destruct (decide (position = current)) as [<- | _].
    + intros [= <-]. by apply Hlinked.
    + intros Hrow'. apply Hlinked. eapply wf_nexts; eauto.
Qed.

Lemma link_wf table key begin :
  wf table -> linked table begin -> wf (link key begin table).
Proof.
  intros Hwf Hbegin. split.
  - cbn. intros Hnil. apply (f_equal length) in Hnil.
    rewrite length_insert in Hnil.
    destruct (header_ table) eqn:Hh; [by apply (wf_buckets _ Hwf) | done].
  - exact (wf_payload _ Hwf).
  - exact (wf_below _ Hwf).
  - intros i head. cbn. intros Hhead.
    apply list_lookup_insert_Some in Hhead as [(_ & <- & _) | (_ & Hhead)];
      [done |].
    exact (wf_heads _ Hwf _ _ Hhead).
  - exact (wf_nexts _ Hwf).
Qed.

(** The loop of [unlink], started behind the row at [previous]. *)
Lemma unlink_loop_removes key : forall fuel table previous prev_item current,
  wf table ->
  previous <> empty ->
  slab_row table previous = Some prev_item ->
  row_next prev_item = current ->
  ends_from fuel table current = true ->
  NoDup (previous :: (fst <$> chain_from fuel table current)) ->
  exists ok table',
    unlink_loop fuel table key previous current = Some (ok, table') /\
    ok = bool_decide (is_Some (first_match key (chain_from fuel table current)))
    /\ (ok = false -> table' = table) /\
    wf table' /\
    header_ table' = header_ table /\
    key_size table' = key_size table /\
    (forall position,
       position ∉ previous :: (fst <$> chain_from fuel table current) ->
       slab_row table' position = slab_row table position) /\
    ends_from (S fuel) table' previous = true /\
    content <$> chain_from (S fuel) table' previous
    = content <$> ((previous, prev_item)
                   :: without_first key (chain_from fuel table current)).
Proof.
  induction fuel as [| fuel IH];
    intros table previous prev_item current Hwf Hprev Hrow Hnext Hends Hnodup.
  - cbn [ends_from] in Hends.
    destruct (current =? empty) eqn:Hempty; [| done].
    exists false, table.
    rewrite (ends_from_step _ _ _ _ Hprev Hrow), Hnext.
    rewrite (chain_from_step _ _ _ _ Hprev Hrow), Hnext.
    cbn [unlink_loop chain_from ends_from]. by rewrite Hempty.
  - destruct (current =? empty) eqn:Hempty.
    { exists false, table.
      rewrite (ends_from_step _ _ _ _ Hprev Hrow), Hnext.
      rewrite (chain_from_step _ _ _ _ Hprev Hrow), Hnext.
      cbn [unlink_loop chain_from ends_from]. by rewrite Hempty. }
    cbn [unlink_loop]. rewrite Hempty.
    assert (current <> empty) as Hcurrent by by apply N.eqb_neq.
    destruct (slab_row table current) as [item |] eqn:Hitem.
    2:{ cbn [ends_from] in Hends. by rewrite Hempty, Hitem in Hends. }
    rewrite (ends_from_step _ _ _ _ Hcurrent Hitem) in Hends.
    rewrite (chain_from_step _ _ _ _ Hcurrent Hitem) in Hnodup |- *.
    cbn [mbind option_bind]. cbn [fmap list_fmap fst] in Hnodup.
    apply NoDup_cons in Hnodup as [Hprev_out Hnodup].
    unfold first_match. cbn [List.find without_first snd].
    destruct (compare item key) eqn:Hcompare.
    + unfold unlink_item, write_next_position. rewrite Hrow.
      cbn [mbind option_bind].
      set (item' := mk_row (row_key prev_item) (row_next item)
                      (row_value prev_item)).
      assert (previous ∉ fst <$> chain_from fuel table (row_next item))
        as Hout.
      { intros Hin. apply Hprev_out. apply elem_of_cons. by right. }
      assert (slab_row (put_row previous item' table) previous = Some item')
        as Hrow'.
      { by rewrite slab_row_put, decide_True. }
      exists true, (put_row previous item' table). split_and!; try done.
      * apply put_next_wf; [done .. |]. eapply wf_nexts; eauto.
      * intros position Hposition. rewrite slab_row_put.
        destruct (decide (previous = position)) as [<- | _]; [| done].
        exfalso. apply Hposition. apply elem_of_cons. by left.
      * rewrite (ends_from_step _ _ _ _ Hprev Hrow'). cbn [row_next item'].
        rewrite ends_from_put_other; [| eauto |].
        -- by apply ends_from_more.
        -- by rewrite chain_from_more.
      * rewrite (chain_from_step _ _ _ _ Hprev Hrow'). cbn [row_next item'].
        rewrite chain_from_put_other; [| eauto |].
        -- by rewrite chain_from_more.
        -- by rewrite chain_from_more.
    + destruct (IH table current item (row_next item) Hwf Hcurrent Hitem
                  eq_refl Hends Hnodup)
        as (ok & table' & Hloop & Hok & Hsame & Hwf' & Hheader & Hkey & Hframe
            & Hends' & Hcontent).
      assert (slab_row table' previous = Some prev_item) as Hrow'.
      { rewrite Hframe; [done |]. exact Hprev_out. }
      exists ok, table'. split_and!; try done.
      * intros position Hposition. apply Hframe.
        intros Hin. apply Hposition. apply elem_of_cons. by right.
      * rewrite (ends_from_step _ _ _ _ Hprev Hrow'), Hnext. exact Hends'.
      * rewrite (chain_from_step _ _ _ _ Hprev Hrow'), Hnext.
        cbn [fmap list_fmap]. f_equal. exact Hcontent.
Qed.

Lemma unlink_loop_more key fuel table : forall previous current result,
  unlink_loop fuel table key previous current = Some result ->
  unlink_loop (S fuel) table key previous current = Some result.
Proof.
  induction fuel as [| fuel IH]; intros previous current result.
  - cbn. destruct (current =? empty); [done | discriminate].
  - intros Hrun. cbn [unlink_loop] in Hrun |- *.
    destruct (current =? empty); [exact Hrun |].
    destruct (slab_row table current) as [item |]; [| discriminate].
    cbn [mbind option_bind] in *.
    destruct (compare item key); [exact Hrun |].
    by apply IH in Hrun.
Qed.

Lemma chain_from_link fuel table key begin : forall current,
  chain_from fuel (link key begin table) current
  = chain_from fuel table current.
Proof.
  induction fuel as [| fuel IH]; intros current; cbn; [done |].
  destruct (current =? empty); [done |].
  change (slab_row (link key begin table) current)
    with (slab_row table current).
  destruct (slab_row table current); [| done]. by rewrite IH.
Qed.

Lemma ends_from_link fuel table key begin : forall current,
  ends_from fuel (link key begin table) current
  = ends_from fuel table current.
Proof.
  induction fuel as [| fuel IH]; intros current; cbn; [done |].
  destruct (current =? empty); [done |].
  change (slab_row (link key begin table) current)
    with (slab_row table current).
  destruct (slab_row table current); [| done]. by rewrite IH.
Qed.

Lemma read_bucket_value_link table key begin :
  header_ table <> [] ->
  read_bucket_value (link key begin table) key = Some begin.
Proof.
  intros Hne. unfold read_bucket_value, bucket_index, link. cbn.
  rewrite length_insert. apply list_lookup_insert_eq.
  by apply slab_facts.bucket_in_range.
Qed.

(** The first match of a traversal is a matter of the places and keys of
    its rows. *)
Lemma first_match_content key (rows rows' : list (file_offset * row)) :
  content <$> rows = content <$> rows' ->
  fst <$> first_match key rows = fst <$> first_match key rows'.
Proof.
  unfold first_match. revert rows'.
  induction rows as [| [position item] rows IH];
    intros [| [position' item'] rows']; try done.
  cbn. intros [= -> Hkey Hvalue Hrest]. unfold compare. cbn. rewrite Hkey.
  destruct (bool_decide (row_key item' = key)); [done |]. by apply IH.
Qed.

(** [unlink] on a bucket that holds rows: it returns true exactly when a
    row of the bucket list holds the key, takes the first such row off the
    list and leaves every other row of it in place, with its key and value;
    [find] then returns the next row under the key, or nothing.  When it
    returns false the table is as it was. *)
Theorem unlink_removes_first_match fuel table key :
  wf table ->
  ends fuel table key = true ->
  chain fuel table key <> [] ->
  exists ok table',
    unlink fuel key table = Some (ok, table') /\
    ok = bool_decide (is_Some (first_match key (chain fuel table key))) /\
    (ok = false -> table' = table) /\
    wf table' /\
    ends fuel table' key = true /\
    content <$> chain fuel table' key
    = content <$> without_first key (chain fuel table key) /\
    find fuel table' key
    = Some ((fun entry => data table (fst entry))
            <$> first_match key (without_first key (chain fuel table key))).
Proof.
  intros Hwf Hends Hrows.
  assert (forall ok table',
            unlink fuel key table = Some (ok, table') ->
            ok = bool_decide (is_Some (first_match key (chain fuel table key)))
            -> (ok = false -> table' = table) ->
            wf table' -> key_size table' = key_size table ->
            ends fuel table' key = true ->
            content <$> chain fuel table' key
            = content <$> without_first key (chain fuel table key) ->
            exists ok table',
              unlink fuel key table = Some (ok, table') /\
              ok = bool_decide
                     (is_Some (first_match key (chain fuel table key))) /\
              (ok = false -> table' = table) /\
              wf table' /\
              ends fuel table' key = true /\
              content <$> chain fuel table' key
              = content <$> without_first key (chain fuel table key) /\
              find fuel table' key
              = Some ((fun entry => data table (fst entry))
                      <$> first_match key
                            (without_first key (chain fuel table key))))
    as Hfinish.
  { intros ok table' Hrun Hok Hsame Hwf' Hkey Hends' Hcontent.
    exists ok, table'. split_and!; try done.
    rewrite (find_ends _ _ _ Hends'). f_equal.
    apply (first_match_content key) in Hcontent.
    destruct (first_match key (chain fuel table' key)) as [[p i] |],
      (first_match key (without_first key (chain fuel table key)))
      as [[p' i'] |]; try done.
    cbn in *. injection Hcontent as ->.
    unfold data, prefix_size. by rewrite Hkey. }
  unfold ends, chain in *.
  destruct (read_bucket_value table key) as [begin |] eqn:Hhead; [| done].
  destruct fuel as [| fuel].
  { cbn in Hrows. by destruct (begin =? empty). }
  cbn [chain_from ends_from] in Hrows, Hends.
  destruct (begin =? empty) eqn:Hempty; [done |].
  assert (begin <> empty) as Hbegin by by apply N.eqb_neq.
  destruct (slab_row table begin) as [begin_item |] eqn:Hitem; [| done].
  clear Hrows.
  pose proof (chain_from_NoDup (S fuel) table begin) as Hnodup.
  rewrite (ends_from_step _ _ _ _ Hbegin Hitem) in Hnodup.
  rewrite (chain_from_step _ _ _ _ Hbegin Hitem) in Hnodup, Hfinish |- *.
  specialize (Hnodup Hends).
  unfold first_match in *. cbn [List.find without_first snd] in *.
  destruct (compare begin_item key) eqn:Hcompare.
  - apply (Hfinish true (link key (row_next begin_item) table)).
    + unfold unlink. rewrite Hhead. cbn [mbind option_bind].
      rewrite Hitem. cbn [mbind option_bind]. by rewrite Hcompare.
    + by rewrite bool_decide_eq_true_2.
    + done.
    + apply link_wf; [done |]. eapply wf_nexts; eauto.
    + done.
    + rewrite read_bucket_value_link by apply (wf_buckets _ Hwf).
      rewrite ends_from_link. by apply ends_from_more.
    + rewrite read_bucket_value_link by apply (wf_buckets _ Hwf).
      rewrite chain_from_link. by rewrite chain_from_more.
  - destruct (unlink_loop_removes key fuel table begin begin_item
                (row_next begin_item) Hwf Hbegin Hitem eq_refl Hends Hnodup)
      as (ok & table' & Hloop & Hok & Hsame & Hwf' & Hheader & Hkey & _
          & Hends' & Hcontent).
    assert (read_bucket_value table' key = Some begin) as Hhead'.
    { unfold read_bucket_value, bucket_index in *. by rewrite Hheader. }
    apply (Hfinish ok table').
    + unfold unlink. rewrite Hhead. cbn [mbind option_bind].
      rewrite Hitem. cbn [mbind option_bind]. rewrite Hcompare.
      by apply unlink_loop_more.
    + done.
    + done.
    + done.
    + done.
    + by rewrite Hhead'.
    + by rewrite Hhead'.
Qed.

Lemma unlink_removes_first_match_witness :
  let table := stored (stored (created 4 2) sample.key_a [x0a] 1 0)
                 sample.key_b [x0b] 1 8 in
  exists table',
    unlink 2 sample.key_a table = Some (true, table') /\
    content <$> chain 2 table' sample.key_a = [(19, sample.key_b, [x0b])] /\
    find 2 table' sample.key_a = Some None.
Proof.
  cbv zeta.
  destruct (unlink_removes_first_match 2
              (stored (stored (created 4 2) sample.key_a [x0a] 1 0)
                 sample.key_b [x0b] 1 8) sample.key_a)
    as (ok & table' & Hunlink & Hok & _ & _ & _ & Hcontent & Hfind).
  - apply slab_facts.stored_wf; [| reflexivity].
    apply slab_facts.stored_wf; [| reflexivity].
    apply slab_facts.created_wf. lia.
  - vm_compute. reflexivity.
  - vm_compute. discriminate.
  - exists table'. vm_compute in Hok. subst ok.
    split; [exact Hunlink |]. split; [exact Hcontent | exact Hfind].
Defined.

(** *** update *)

Lemma update_loop_first_match key write fuel table : forall current,
  ends_from fuel table current = true ->
  update_loop fuel table key write current
  = Some match first_match key (chain_from fuel table current) with
         | None => (not_found, table)
         | Some (position, item) =>
             (offset table position,
              put_row position
                (mk_row (row_key item) (row_next item)
                   (write (row_value item))) table)
         end.
Proof.
  unfold first_match.
  induction fuel as [| fuel IH]; intros current; cbn.
  - by destruct (current =? empty).
  - destruct (current =? empty); [done |].
    destruct (slab_row table current) as [item |]; [cbn | done].
    destruct (compare item key); [done | apply IH].
Qed.

Lemma first_match_row fuel table key current position item :
  first_match key (chain_from fuel table current) = Some (position, item) ->
  slab_row table position = Some item /\ row_key item = key.
Proof.
  unfold first_match. intros Hfind.
  pose proof (find_some _ _ Hfind) as [Hin Hcompare].
  apply list_elem_of_In in Hin.
  split; [by apply chain_from_rows in Hin |].
  unfold compare in Hcompare. cbn in Hcompare.
  by apply bool_decide_eq_true in Hcompare.
Qed.

(** [update] runs the writer against the value of the first row of the
    bucket list that holds the key and returns the offset of that value;
    [find] returns the same address before and after, where the value is
    what the writer made of it; no other value and no answer of [find]
    changes.  If no row holds the key it returns [not_found] and the table
    is as it was. *)
Theorem update_first_match fuel key write table :
  ends fuel table key = true ->
  match first_match key (chain fuel table key) with
  | None => update fuel key write table = Some (not_found, table)
  | Some (position, item) =>
      exists table',
        update fuel key write table = Some (offset table position, table') /\
        find fuel table key = Some (Some (offset table position)) /\
        find fuel table' key = Some (Some (offset table position)) /\
        value_at table (offset table position) = Some (row_value item) /\
        value_at table' (offset table position)
        = Some (write (row_value item)) /\
        (forall fuel' key', find fuel' table' key' = find fuel' table key') /\
        (forall address, address <> offset table position ->
           value_at table' address = value_at table address)
  end.
Proof.
  intros Hends. pose proof (find_ends _ _ _ Hends) as Hfind.
  unfold ends, update, chain in *.
  destruct (read_bucket_value table key) as [current |] eqn:Hhead; [| done].
  cbn [mbind option_bind].
  rewrite (update_loop_first_match key write fuel table current Hends).
  destruct (first_match key (chain_from fuel table current))
    as [[position item] |] eqn:Hmatch; [| done].
  apply first_match_row in Hmatch as [Hrow Hkey].
  set (item' := mk_row (row_key item) (row_next item) (write (row_value item))).
  assert (forall fuel' key',
            find fuel' (put_row position item' table) key'
            = find fuel' table key') as Hsame.
  { intros fuel' key'. unfold find.
    change (read_bucket_value (put_row position item' table) key')
      with (read_bucket_value table key').
    destruct (read_bucket_value table key'); [cbn | done].
    by apply transaction_facts.find_loop_put_value. }
  exists (put_row position item' table). split_and!; try done.
  - by rewrite Hsame.
  - unfold value_at, offset.
    destruct (N.ltb_spec (position + prefix_size table) (prefix_size table));
      [lia |].
    replace (position + prefix_size table - prefix_size table)
      with position by lia.
    by rewrite Hrow.
  - unfold value_at, offset.
    change (prefix_size (put_row position item' table))
      with (prefix_size table).
    destruct (N.ltb_spec (position + prefix_size table) (prefix_size table));
      [lia |].
    replace (position + prefix_size table - prefix_size table)
      with position by lia.
    by rewrite slab_row_put, decide_True.
  - intros address Hother. unfold value_at, offset in *.
    change (prefix_size (put_row position item' table))
      with (prefix_size table).
    destruct (N.ltb_spec address (prefix_size table)); [done |].
    rewrite slab_row_put, decide_False; [done | lia].
Qed.

Lemma update_first_match_witness :
  let table := stored (stored (created 4 2) sample.key_a [x0a] 1 0)
                 sample.key_b [x0b] 1 8 in
  exists table',
    update 2 sample.key_a (fun _ => [x0d]) table = Some (18, table') /\
    find 2 table' sample.key_a = Some (Some 18) /\
    value_at table' 18 = Some [x0d] /\
    update 2 [x09; x02] (fun _ => [x0d]) table = Some (not_found, table).
Proof.
  cbv zeta.
  pose proof (update_first_match 2 sample.key_a (fun _ => [x0d])
                (stored (stored (created 4 2) sample.key_a [x0a] 1 0)
                   sample.key_b [x0b] 1 8) eq_refl) as Hfound.
  pose proof (update_first_match 2 [x09; x02] (fun _ => [x0d])
                (stored (stored (created 4 2) sample.key_a [x0a] 1 0)
                   sample.key_b [x0b] 1 8) eq_refl) as Hmissing.
  destruct Hfound as (table' & Hupdate & _ & Hfind & _ & Hvalue & _).
  exists table'. split; [exact Hupdate |]. split; [exact Hfind |].
  split; [exact Hvalue | exact Hmissing].
Defined.

Lemma find_first_match_witness :
  let table := stored (stored (created 4 2) sample.key_a [x0a] 1 0)
                 sample.key_b [x0b] 1 8 in
  find 2 table sample.key_a = Some (Some 18) /\
  find 2 table [x09; x02] = Some None.
Proof.
  cbv zeta. split.
  - apply (find_first_match 2
             (stored (stored (created 4 2) sample.key_a [x0a] 1 0)
                sample.key_b [x0b] 1 8) sample.key_a).
    reflexivity.
  - apply (find_first_match 2
             (stored (stored (created 4 2) sample.key_a [x0a] 1 0)
                sample.key_b [x0b] 1 8) [x09; x02]).
    reflexivity.
Defined.

End slab_traversal_facts.

(** ** Theorems: the bucket lists of the record hash table *)

Module record_traversal_facts.
Import record_hash_table.

Implicit Types (table : t) (key : key_type) (value : list byte).

(** *** Lists that end *)

Lemma record_ends_from_more fuel table : forall current,
  ends_from fuel table current = true ->
  ends_from (S fuel) table current = true.
Proof.
  induction fuel as [| fuel IH]; intros current; cbn.
  - by destruct (current =? empty).
  - destruct (current =? empty); [done |].
    destruct (record_row table current) as [item |]; [| done].
    apply IH.
Qed.

Lemma record_ends_from_add extra fuel table current :
  ends_from fuel table current = true ->
  ends_from (extra + fuel) table current = true.
Proof.
  intros Hends. induction extra as [| extra IH]; [done |].
  by apply record_ends_from_more in IH.
Qed.

Lemma record_chain_from_more fuel table : forall current,
  ends_from fuel table current = true ->
  chain_from (S fuel) table current = chain_from fuel table current.
Proof.
  induction fuel as [| fuel IH]; intros current; cbn.
  - by destruct (current =? empty).
  - destruct (current =? empty); [done |].
    destruct (record_row table current) as [item |]; [| done].
    intros Hends. f_equal. by apply IH.
Qed.

Lemma record_chain_from_add extra fuel table current :
  ends_from fuel table current = true ->
  chain_from (extra + fuel) table current = chain_from fuel table current.
Proof.
  intros Hends. induction extra as [| extra IH]; [done |].
  cbn [Nat.add]. rewrite record_chain_from_more; [done |].
  by apply record_ends_from_add.
Qed.

(** Two budgets that both see the end of a list see the same list. *)
Lemma record_chain_from_same fuel fuel' table current :
  ends_from fuel table current = true ->
  ends_from fuel' table current = true ->
  chain_from fuel table current = chain_from fuel' table current.
Proof.
  intros Hends Hends'.
  destruct (Nat.le_gt_cases fuel fuel') as [Hle | Hlt].
  - replace fuel' with ((fuel' - fuel) + fuel)%nat by lia.
    by rewrite record_chain_from_add.
  - replace fuel with ((fuel - fuel') + fuel')%nat by lia.
    by rewrite record_chain_from_add.
Qed.

(** What follows a record of a traversal is the traversal from its link. *)
Lemma record_chain_from_split before : forall fuel table current position item after,
  chain_from fuel table current = before ++ (position, item) :: after ->
  exists fuel',
    record_row table position = Some item /\
    after = chain_from fuel' table (row_next item) /\
    ends_from fuel' table (row_next item) = ends_from fuel table current.
Proof.
  induction before as [| entry before IH];
    intros [| fuel] table current position item after; cbn;
    destruct (current =? empty); try done;
    destruct (record_row table current) as [item' |] eqn:Hrow; try done.
  - intros [= -> -> <-]. eauto.
  - intros [= _ Hrest]. by apply IH in Hrest.
Qed.

Lemma record_chain_from_rows fuel table current position item :
  (position, item) ∈ chain_from fuel table current ->
  record_row table position = Some item.
Proof.
  intros (before & after & Hsplit)%list_elem_of_split.
  by apply record_chain_from_split in Hsplit as (? & ? & _).
Qed.

(** A list that ends visits no row twice. *)
Lemma record_chain_from_NoDup fuel table : forall current,
  ends_from fuel table current = true ->
  NoDup (fst <$> chain_from fuel table current).
Proof.
  induction fuel as [| fuel IH]; intros current; cbn.
  - destruct (current =? empty); constructor.
  - destruct (current =? empty); [constructor |].
    destruct (record_row table current) as [item |] eqn:Hrow; [| done].
    intros Hends. cbn. apply NoDup_cons. split; [| by apply IH].
    intros ([position item'] & Heq & Hin)%list_elem_of_fmap. cbn in Heq.
    subst position.
    pose proof (record_chain_from_rows _ _ _ _ _ Hin) as Hrow'.
    rewrite Hrow in Hrow'. injection Hrow' as <-.
    apply list_elem_of_split in Hin as (before & after & Hsplit).
    pose proof Hsplit as Hlen.
    apply record_chain_from_split in Hsplit as (fuel' & _ & Hafter & Hends').
    rewrite Hends in Hends'.
    rewrite (record_chain_from_same fuel' fuel) in Hafter by done.
    rewrite <- Hafter in Hlen. apply (f_equal length) in Hlen.
    rewrite length_app in Hlen. cbn in Hlen. lia.
Qed.

(** *** Writing a record the traversal does not visit *)

Lemma record_row_put table position item current :
  record_row (put_row position item table) current
  = if decide (position = current) then Some item else record_row table current.
Proof. unfold record_row, put_row. cbn. apply lookup_insert. Qed.

Lemma record_chain_from_put_other fuel table position item : forall current,
  is_Some (record_row table position) ->
  position ∉ (fst <$> chain_from fuel table current) ->
  chain_from fuel (put_row position item table) current
  = chain_from fuel table current.
Proof.
  intros current Hsome. revert current.
  induction fuel as [| fuel IH]; intros current; cbn; [done |].
  destruct (current =? empty); [done |].
  rewrite record_row_put.
  destruct (decide (position = current)) as [-> | Hne].
  - destruct Hsome as [item' ->]. cbn. intros Hnot. exfalso.
    apply Hnot. apply elem_of_cons. by left.
  - destruct (record_row table current) as [item' |]; [| done].
    cbn. intros Hnot. f_equal. apply IH.
    intros Hin. apply Hnot. apply elem_of_cons. by right.
Qed.

Lemma record_ends_from_put_other fuel table position item : forall current,
  is_Some (record_row table position) ->
  position ∉ (fst <$> chain_from fuel table current) ->
  ends_from fuel (put_row position item table) current
  = ends_from fuel table current.
Proof.
  intros current Hsome. revert current.
  induction fuel as [| fuel IH]; intros current; cbn; [done |].
  destruct (current =? empty); [done |].
  rewrite record_row_put.
  destruct (decide (position = current)) as [-> | Hne].
  - destruct Hsome as [item' ->]. cbn. intros Hnot. exfalso.
    apply Hnot. apply elem_of_cons. by left.
  - destruct (record_row table current) as [item' |]; [| done].
    cbn. intros Hnot. apply IH.
    intros Hin. apply Hnot. apply elem_of_cons. by right.
Qed.

(** *** find *)

Lemma record_find_loop_first_match fuel table key : forall current result,
  find_loop fuel table key current = Some result ->
  result = (fun entry => data table (fst entry))
           <$> first_match key (chain_from fuel table current).
Proof.
  unfold first_match.
  induction fuel as [| fuel IH]; intros current result; cbn.
  - destruct (current =? empty); [| done]. by intros [= <-].
  - destruct (current =? empty); [by intros [= <-] |].
    destruct (record_row table current) as [item |]; [cbn | done].
    destruct (compare item key); [by intros [= <-] | apply IH].
Qed.

Lemma record_find_loop_ends fuel table key : forall current,
  ends_from fuel table current = true ->
  is_Some (find_loop fuel table key current).
Proof.
  induction fuel as [| fuel IH]; intros current; cbn.
  - destruct (current =? empty); [eauto | done].
  - destruct (current =? empty); [eauto |].
    destruct (record_row table current) as [item |]; [cbn | done].
    destruct (compare item key); [eauto | apply IH].
Qed.

Lemma record_find_ends fuel table key :
  ends fuel table key = true ->
  find fuel table key
  = Some ((fun entry => data table (fst entry))
          <$> first_match key (chain fuel table key)).
Proof.
  unfold ends, find, chain.
  destruct (read_bucket_value table key) as [current |]; [cbn | done].
  intros Hends.
  destruct (record_find_loop_ends fuel table key current Hends) as [result Hfind].
  rewrite Hfind. f_equal. by apply record_find_loop_first_match.
Qed.

(** [find] returns the first of multiple matching key values: what it
    returns is the value address of the first row of the bucket list that
    holds the key, and nothing when no row of the list does; and it does
    return whenever the list ends within the records it may visit. *)
Theorem record_find_first_match fuel table key :
  (forall result,
     find fuel table key = Some result ->
     result = (fun entry => data table (fst entry))
              <$> first_match key (chain fuel table key)) /\
  (ends fuel table key = true ->
   find fuel table key
   = Some ((fun entry => data table (fst entry))
           <$> first_match key (chain fuel table key))).
Proof.
  split; [| apply record_find_ends].
  intros result. unfold find, chain.
  destruct (read_bucket_value table key) as [current |]; [cbn | done].
  apply record_find_loop_first_match.
Qed.

Lemma record_ends_from_step fuel table current item :
  current <> empty ->
  record_row table current = Some item ->
  ends_from (S fuel) table current = ends_from fuel table (row_next item).
Proof.
  intros Hne Hrow. cbn [ends_from].
  by rewrite (proj2 (N.eqb_neq _ _) Hne), Hrow.
Qed.

Lemma record_chain_from_step fuel table current item :
  current <> empty ->
  record_row table current = Some item ->
  chain_from (S fuel) table current
  = (current, item) :: chain_from fuel table (row_next item).
Proof.
  intros Hne Hrow. cbn [chain_from].
  by rewrite (proj2 (N.eqb_neq _ _) Hne), Hrow.
Qed.

(** *** unlink *)

Lemma record_content_put_next position item next :
  content (position, mk_row (row_key item) next (row_value item))
  = content (position, item).
Proof. done. Qed.

(** Relinking a record keeps the invariant, when the new link leads to a record
    or is the end. *)
Lemma record_put_next_wf table position item next :
  wf table ->
  record_row table position = Some item ->
  linked table next ->
  wf (put_row position (mk_row (row_key item) next (row_value item)) table).
Proof.
  intros Hwf Hrow Hnext.
  assert (forall current, linked table current ->
            linked (put_row position
                      (mk_row (row_key item) next (row_value item)) table)
              current) as Hlinked.
  { intros current [-> | [item' Hrow']]; [by left | right].
    rewrite record_row_put. destruct (decide (position = current)); eauto. }
  split.
  - apply (wf_buckets _ Hwf).
  - apply (wf_count _ Hwf).
  - intros current item'. rewrite record_row_put.
    destruct (decide (position = current)) as [<- | _].
    + intros _. by apply (wf_below _ Hwf) in Hrow.
    + apply (wf_below _ Hwf).
  - intros i head Hhead. apply Hlinked. eapply wf_heads; eauto.
  - intros current item'. rewrite record_row_put.
    destruct (decide (position = current)) as [<- | _].
    + intros [= <-]. by apply Hlinked.
    + intros Hrow'. apply Hlinked. eapply wf_nexts; eauto.
Qed.

Lemma record_link_wf table key begin :
  wf table -> linked table begin -> wf (link key begin table).
Proof.
  intros Hwf Hbegin. split.
  - cbn. intros Hnil. apply (f_equal length) in Hnil.
    rewrite length_insert in Hnil.
    destruct (header_ table) eqn:Hh; [by apply (wf_buckets _ Hwf) | done].
  - exact (wf_count _ Hwf).
  - exact (wf_below _ Hwf).
  - intros i head. cbn. intros Hhead.
    apply list_lookup_insert_Some in Hhead as [(_ & <- & _) | (_ & Hhead)];
      [done |].
    exact (wf_heads _ Hwf _ _ Hhead).
  - exact (wf_nexts _ Hwf).
Qed.

(** The loop of [unlink], started behind the row at [previous]. *)
Lemma record_unlink_loop_removes key : forall fuel table previous prev_item current,
  wf table ->
  previous <> empty ->
  record_row table previous = Some prev_item ->
  row_next prev_item = current ->
  ends_from fuel table current = true ->
  NoDup (previous :: (fst <$> chain_from fuel table current)) ->
  exists ok table',
    unlink_loop fuel table key previous current = Some (ok, table') /\
    ok = bool_decide (is_Some (first_match key (chain_from fuel table current)))
    /\ (ok = false -> table' = table) /\
    wf table' /\
    header_ table' = header_ table /\
    key_size table' = key_size table /\
    (forall position,
       position ∉ previous :: (fst <$> chain_from fuel table current) ->
       record_row table' position = record_row table position) /\
    ends_from (S fuel) table' previous = true /\
    content <$> chain_from (S fuel) table' previous
    = content <$> ((previous, prev_item)
                   :: without_first key (chain_from fuel table current)).
Proof.
  induction fuel as [| fuel IH];
    intros table previous prev_item current Hwf Hprev Hrow Hnext Hends Hnodup.
  - cbn [ends_from] in Hends.
    destruct (current =? empty) eqn:Hempty; [| done].
    exists false, table.
    rewrite (record_ends_from_step _ _ _ _ Hprev Hrow), Hnext.
    rewrite (record_chain_from_step _ _ _ _ Hprev Hrow), Hnext.
    cbn [unlink_loop chain_from ends_from]. by rewrite Hempty.
  - destruct (current =? empty) eqn:Hempty.
    { exists false, table.
      rewrite (record_ends_from_step _ _ _ _ Hprev Hrow), Hnext.
      rewrite (record_chain_from_step _ _ _ _ Hprev Hrow), Hnext.
      cbn [unlink_loop chain_from ends_from]. by rewrite Hempty. }
    cbn [unlink_loop]. rewrite Hempty.
    assert (current <> empty) as Hcurrent by by apply N.eqb_neq.
    destruct (record_row table current) as [item |] eqn:Hitem.
    2:{ cbn [ends_from] in Hends. by rewrite Hempty, Hitem in Hends. }
    rewrite (record_ends_from_step _ _ _ _ Hcurrent Hitem) in Hends.
    rewrite (record_chain_from_step _ _ _ _ Hcurrent Hitem) in Hnodup |- *.
    cbn [mbind option_bind]. cbn [fmap list_fmap fst] in Hnodup.
    apply NoDup_cons in Hnodup as [Hprev_out Hnodup].
    unfold first_match. cbn [List.find without_first snd].
    destruct (compare item key) eqn:Hcompare.
    + unfold unlink_item, write_next_index. rewrite Hrow.
      cbn [mbind option_bind].
      set (item' := mk_row (row_key prev_item) (row_next item)
                      (row_value prev_item)).
      assert (previous ∉ fst <$> chain_from fuel table (row_next item))
        as Hout.
      { intros Hin. apply Hprev_out. apply elem_of_cons. by right. }
      assert (record_row (put_row previous item' table) previous = Some item')
        as Hrow'.
      { by rewrite record_row_put, decide_True. }
      exists true, (put_row previous item' table). split_and!; try done.
      * apply record_put_next_wf; [done .. |]. eapply wf_nexts; eauto.
      * intros position Hposition. rewrite record_row_put.
        destruct (decide (previous = position)) as [<- | _]; [| done].
        exfalso. apply Hposition. apply elem_of_cons. by left.
      * rewrite (record_ends_from_step _ _ _ _ Hprev Hrow'). cbn [row_next item'].
        rewrite record_ends_from_put_other; [| eauto |].
        -- by apply record_ends_from_more.
        -- by rewrite record_chain_from_more.
      * rewrite (record_chain_from_step _ _ _ _ Hprev Hrow'). cbn [row_next item'].
        rewrite record_chain_from_put_other; [| eauto |].
        -- by rewrite record_chain_from_more.
        -- by rewrite record_chain_from_more.
    + destruct (IH table current item (row_next item) Hwf Hcurrent Hitem
                  eq_refl Hends Hnodup)
        as (ok & table' & Hloop & Hok & Hsame & Hwf' & Hheader & Hkey & Hframe
            & Hends' & Hcontent).
      assert (record_row table' previous = Some prev_item) as Hrow'.
      { rewrite Hframe; [done |]. exact Hprev_out. }
      exists ok, table'. split_and!; try done.
      * intros position Hposition. apply Hframe.
        intros Hin. apply Hposition. apply elem_of_cons. by right.
      * rewrite (record_ends_from_step _ _ _ _ Hprev Hrow'), Hnext. exact Hends'.
      * rewrite (record_chain_from_step _ _ _ _ Hprev Hrow'), Hnext.
        cbn [fmap list_fmap]. f_equal. exact Hcontent.
Qed.

Lemma record_unlink_loop_more key fuel table : forall previous current result,
  unlink_loop fuel table key previous current = Some result ->
  unlink_loop (S fuel) table key previous current = Some result.
Proof.
  induction fuel as [| fuel IH]; intros previous current result.
  - cbn. destruct (current =? empty); [done | discriminate].
  - intros Hrun. cbn [unlink_loop] in Hrun |- *.
    destruct (current =? empty); [exact Hrun |].
    destruct (record_row table current) as [item |]; [| discriminate].
    cbn [mbind option_bind] in *.
    destruct (compare item key); [exact Hrun |].
    by apply IH in Hrun.
Qed.

Lemma record_chain_from_link fuel table key begin : forall current,
  chain_from fuel (link key begin table) current
  = chain_from fuel table current.
Proof.
  induction fuel as [| fuel IH]; intros current; cbn; [done |].
  destruct (current =? empty); [done |].
  change (record_row (link key begin table) current)
    with (record_row table current).
  destruct (record_row table current); [| done]. by rewrite IH.
Qed.

Lemma record_ends_from_link fuel table key begin : forall current,
  ends_from fuel (link key begin table) current
  = ends_from fuel table current.
Proof.
  induction fuel as [| fuel IH]; intros current; cbn; [done |].
  destruct (current =? empty); [done |].
  change (record_row (link key begin table) current)
    with (record_row table current).
  destruct (record_row table current); [| done]. by rewrite IH.
Qed.

Lemma record_read_bucket_value_link table key begin :
  header_ table <> [] ->
  read_bucket_value (link key begin table) key = Some begin.
Proof.
  intros Hne. unfold read_bucket_value, bucket_index, link. cbn.
  rewrite length_insert. apply list_lookup_insert_eq.
  by apply record_facts.record_bucket_in_range.
Qed.

(** The first match of a traversal is a matter of the places and keys of
    its records. *)
Lemma record_first_match_content key (found found' : list (array_index * row)) :
  content <$> found = content <$> found' ->
  fst <$> first_match key found = fst <$> first_match key found'.
Proof.
  unfold first_match. revert found'.
  induction found as [| [position item] found IH];
    intros [| [position' item'] found']; try done.
  cbn. intros [= -> Hkey Hvalue Hrest]. unfold compare. cbn. rewrite Hkey.
  destruct (bool_decide (row_key item' = key)); [done |]. by apply IH.
Qed.

(** [unlink] on a bucket that holds rows: it returns true exactly when a
    row of the bucket list holds the key, takes the first such row off the
    list and leaves every other row of it in place, with its key and value;
    [find] then returns the next row under the key, or nothing.  When it
    returns false the table is as it was. *)
Theorem record_unlink_removes_first_match fuel table key :
  wf table ->
  ends fuel table key = true ->
  chain fuel table key <> [] ->
  exists ok table',
    unlink fuel key table = Some (ok, table') /\
    ok = bool_decide (is_Some (first_match key (chain fuel table key))) /\
    (ok = false -> table' = table) /\
    wf table' /\
    ends fuel table' key = true /\
    content <$> chain fuel table' key
    = content <$> without_first key (chain fuel table key) /\
    find fuel table' key
    = Some ((fun entry => data table (fst entry))
            <$> first_match key (without_first key (chain fuel table key))).
Proof.
  intros Hwf Hends Hrows.
  assert (forall ok table',
            unlink fuel key table = Some (ok, table') ->
            ok = bool_decide (is_Some (first_match key (chain fuel table key)))
            -> (ok = false -> table' = table) ->
            wf table' -> key_size table' = key_size table ->
            ends fuel table' key = true ->
            content <$> chain fuel table' key
            = content <$> without_first key (chain fuel table key) ->
            exists ok table',
              unlink fuel key table = Some (ok, table') /\
              ok = bool_decide
                     (is_Some (first_match key (chain fuel table key))) /\
              (ok = false -> table' = table) /\
              wf table' /\
              ends fuel table' key = true /\
              content <$> chain fuel table' key
              = content <$> without_first key (chain fuel table key) /\
              find fuel table' key
              = Some ((fun entry => data table (fst entry))
                      <$> first_match key
                            (without_first key (chain fuel table key))))
    as Hfinish.
  { intros ok table' Hrun Hok Hsame Hwf' Hkey Hends' Hcontent.
    exists ok, table'. split_and!; try done.
    rewrite (record_find_ends _ _ _ Hends'). f_equal.
    apply (record_first_match_content key) in Hcontent.
    destruct (first_match key (chain fuel table' key)) as [[p i] |],
      (first_match key (without_first key (chain fuel table key)))
      as [[p' i'] |]; done. }
  unfold ends, chain in *.
  destruct (read_bucket_value table key) as [begin |] eqn:Hhead; [| done].
  destruct fuel as [| fuel].
  { cbn in Hrows. by destruct (begin =? empty). }
  cbn [chain_from ends_from] in Hrows, Hends.
  destruct (begin =? empty) eqn:Hempty; [done |].
  assert (begin <> empty) as Hbegin by by apply N.eqb_neq.
  destruct (record_row table begin) as [begin_item |] eqn:Hitem; [| done].
  clear Hrows.
  pose proof (record_chain_from_NoDup (S fuel) table begin) as Hnodup.
  rewrite (record_ends_from_step _ _ _ _ Hbegin Hitem) in Hnodup.
  rewrite (record_chain_from_step _ _ _ _ Hbegin Hitem) in Hnodup, Hfinish |- *.
  specialize (Hnodup Hends).
  unfold first_match in *. cbn [List.find without_first snd] in *.
  destruct (compare begin_item key) eqn:Hcompare.
  - apply (Hfinish true (link key (row_next begin_item) table)).
    + unfold unlink. rewrite Hhead. cbn [mbind option_bind].
      rewrite Hitem. cbn [mbind option_bind]. by rewrite Hcompare.
    + by rewrite bool_decide_eq_true_2.
    + done.
    + apply record_link_wf; [done |]. eapply wf_nexts; eauto.
    + done.
    + rewrite record_read_bucket_value_link by apply (wf_buckets _ Hwf).
      rewrite record_ends_from_link. by apply record_ends_from_more.
    + rewrite record_read_bucket_value_link by apply (wf_buckets _ Hwf).
      rewrite record_chain_from_link. by rewrite record_chain_from_more.
  - destruct (record_unlink_loop_removes key fuel table begin begin_item
                (row_next begin_item) Hwf Hbegin Hitem eq_refl Hends Hnodup)
      as (ok & table' & Hloop & Hok & Hsame & Hwf' & Hheader & Hkey & _
          & Hends' & Hcontent).
    assert (read_bucket_value table' key = Some begin) as Hhead'.
    { unfold read_bucket_value, bucket_index in *. by rewrite Hheader. }
    apply (Hfinish ok table').
    + unfold unlink. rewrite Hhead. cbn [mbind option_bind].
      rewrite Hitem. cbn [mbind option_bind]. rewrite Hcompare.
      by apply record_unlink_loop_more.
    + done.
    + done.
    + done.
    + done.
    + by rewrite Hhead'.
    + by rewrite Hhead'.
Qed.

(** *** update *)

Lemma record_update_loop_first_match key write fuel table : forall current,
  ends_from fuel table current = true ->
  update_loop fuel table key write current
  = Some match first_match key (chain_from fuel table current) with
         | None => (not_found, table)
         | Some (index, item) =>
             (index,
              put_row index
                (mk_row (row_key item) (row_next item)
                   (write (row_value item))) table)
         end.
Proof.
  unfold first_match.
  induction fuel as [| fuel IH]; intros current; cbn.
  - by destruct (current =? empty).
  - destruct (current =? empty); [done |].
    destruct (record_row table current) as [item |]; [cbn | done].
    destruct (compare item key); [done | apply IH].
Qed.

Lemma record_first_match_row fuel table key current index item :
  first_match key (chain_from fuel table current) = Some (index, item) ->
  record_row table index = Some item /\ row_key item = key.
Proof.
  unfold first_match. intros Hfind.
  pose proof (find_some _ _ Hfind) as [Hin Hcompare].
  apply list_elem_of_In in Hin.
  split; [by apply record_chain_from_rows in Hin |].
  unfold compare in Hcompare. cbn in Hcompare.
  by apply bool_decide_eq_true in Hcompare.
Qed.

Lemma record_find_loop_put_value fuel table index item bytes key current :
  record_row table index = Some item ->
  find_loop fuel
    (put_row index (mk_row (row_key item) (row_next item) bytes) table)
    key current
  = find_loop fuel table key current.
Proof.
  intros Hrow. revert current.
  induction fuel as [| fuel IH]; intros current; cbn; [done |].
  destruct (current =? empty); [done |].
  rewrite record_row_put.
  destruct (decide (index = current)) as [-> | Hne].
  - rewrite Hrow. cbn. unfold compare. cbn.
    destruct (bool_decide (row_key item = key)); [done | apply IH].
  - destruct (record_row table current) as [item' |]; [cbn | done].
    destruct (compare item' key); [done | apply IH].
Qed.

(** [update] runs the writer against the value of the first record of the
    bucket list that holds the key and returns the index of that record;
    [find] returns the same record before and after, where the value is
    what the writer made of it; no other value and no answer of [find]
    changes.  If no record holds the key it returns [not_found] and the
    table is as it was. *)
Theorem record_update_first_match fuel key write table :
  ends fuel table key = true ->
  match first_match key (chain fuel table key) with
  | None => update fuel key write table = Some (not_found, table)
  | Some (index, item) =>
      exists table',
        update fuel key write table = Some (index, table') /\
        find fuel table key = Some (Some index) /\
        find fuel table' key = Some (Some index) /\
        value_at table index = Some (row_value item) /\
        value_at table' index = Some (write (row_value item)) /\
        (forall fuel' key', find fuel' table' key' = find fuel' table key') /\
        (forall pointer, pointer <> index ->
           value_at table' pointer = value_at table pointer)
  end.
Proof.
  intros Hends. pose proof (record_find_ends _ _ _ Hends) as Hfind.
  unfold ends, update, chain in *.
  destruct (read_bucket_value table key) as [current |] eqn:Hhead; [| done].
  cbn [mbind option_bind].
  rewrite (record_update_loop_first_match key write fuel table current Hends).
  destruct (first_match key (chain_from fuel table current))
    as [[index item] |] eqn:Hmatch; [| done].
  apply record_first_match_row in Hmatch as [Hrow Hkey].
  set (item' := mk_row (row_key item) (row_next item) (write (row_value item))).
  assert (forall fuel' key',
            find fuel' (put_row index item' table) key'
            = find fuel' table key') as Hsame.
  { intros fuel' key'. unfold find.
    change (read_bucket_value (put_row index item' table) key')
      with (read_bucket_value table key').
    destruct (read_bucket_value table key'); [cbn | done].
    by apply record_find_loop_put_value. }
  exists (put_row index item' table). split_and!; try done.
  - by rewrite Hsame.
  - unfold value_at. by rewrite Hrow.
  - unfold value_at. by rewrite record_row_put, decide_True.
  - intros pointer Hother. unfold value_at.
    by rewrite record_row_put, decide_False.
Qed.

Lemma record_update_first_match_witness :
  let table := stored (stored (created 4 2) sample.key_a [x0a] empty)
                 sample.key_b [x0b] 0 in
  exists table',
    update 2 sample.key_a (fun _ => [x0d]) table = Some (0, table') /\
    find 2 table' sample.key_a = Some (Some 0) /\
    value_at table' 0 = Some [x0d] /\
    update 2 [x09; x02] (fun _ => [x0d]) table = Some (not_found, table).
Proof.
  cbv zeta.
  pose proof (record_update_first_match 2 sample.key_a (fun _ => [x0d])
                (stored (stored (created 4 2) sample.key_a [x0a] empty)
                   sample.key_b [x0b] 0) eq_refl) as Hfound.
  pose proof (record_update_first_match 2 [x09; x02] (fun _ => [x0d])
                (stored (stored (created 4 2) sample.key_a [x0a] empty)
                   sample.key_b [x0b] 0) eq_refl) as Hmissing.
  destruct Hfound as (table' & Hupdate & _ & Hfind & _ & Hvalue & _).
  exists table'. split; [exact Hupdate |]. split; [exact Hfind |].
  split; [exact Hvalue | exact Hmissing].
Defined.

Lemma record_find_first_match_witness :
  let table := stored (stored (created 4 2) sample.key_a [x0a] empty)
                 sample.key_b [x0b] 0 in
  find 2 table sample.key_a = Some (Some 0) /\
  find 2 table [x09; x02] = Some None.
Proof.
  cbv zeta. split.
  - apply (record_find_first_match 2
             (stored (stored (created 4 2) sample.key_a [x0a] empty)
                sample.key_b [x0b] 0) sample.key_a).
    reflexivity.
  - apply (record_find_first_match 2
             (stored (stored (created 4 2) sample.key_a [x0a] empty)
                sample.key_b [x0b] 0) [x09; x02]).
    reflexivity.
Defined.

Lemma record_unlink_removes_first_match_witness :
  let table := stored (stored (created 4 2) sample.key_a [x0a] empty)
                 sample.key_b [x0b] 0 in
  exists table',
    unlink 2 sample.key_a table = Some (true, table') /\
    content <$> chain 2 table' sample.key_a = [(1, sample.key_b, [x0b])] /\
    find 2 table' sample.key_a = Some None.
Proof.
  cbv zeta.
  destruct (record_unlink_removes_first_match 2
              (stored (stored (created 4 2) sample.key_a [x0a] empty)
                 sample.key_b [x0b] 0) sample.key_a)
    as (ok & table' & Hunlink & Hok & _ & _ & _ & Hcontent & Hfind).
  - apply record_facts.record_stored_wf; [| vm_compute; reflexivity
                                          | reflexivity].
    apply record_facts.record_stored_wf; [| vm_compute; reflexivity
                                          | reflexivity].
    apply record_facts.record_created_wf. lia.
  - vm_compute. reflexivity.
  - vm_compute. discriminate.
  - exists table'. vm_compute in Hok. subst ok.
    split; [exact Hunlink |]. split; [exact Hcontent | exact Hfind].
Defined.

(** *** The empty bucket *)

Lemma record_no_row_at_empty table :
  wf table -> record_row table empty = None.
Proof.
  intros Hwf. destruct (record_row table empty) as [item |] eqn:Hrow; [| done].
  apply (wf_below _ Hwf) in Hrow. pose proof (wf_count _ Hwf).
  unfold empty in *. lia.
Qed.

(** On an empty bucket [find] returns nothing and [update] returns
    [not_found], both leaving the table alone, while [unlink] has no
    defined result: it reads the key of the record at the bucket value, the
    sentinel [max_uint32], before its loop tests for the end of the list,
    and no table holds a record there. *)
Theorem record_unlink_empty_bucket fuel key write table :
  wf table ->
  read_bucket_value table key = Some empty ->
  find fuel table key = Some None /\
  update fuel key write table = Some (not_found, table) /\
  unlink fuel key table = None.
Proof.
  intros Hwf Hhead. unfold find, update, unlink. rewrite Hhead.
  cbn [mbind option_bind]. rewrite record_no_row_at_empty by done.
  by destruct fuel.
Qed.

Lemma record_unlink_empty_bucket_witness :
  find 1 (created 4 2) sample.key_a = Some None /\
  update 1 sample.key_a (fun _ => [x0d]) (created 4 2)
  = Some (not_found, created 4 2) /\
  unlink 1 sample.key_a (created 4 2) = None.
Proof.
  apply (record_unlink_empty_bucket 1 sample.key_a (fun _ => [x0d])
           (created 4 2)).
  - apply record_facts.record_created_wf. lia.
  - reflexivity.
Defined.

(** *** Runs of stores *)

Lemma record_stored_extends table key value first :
  wf table -> extends table (stored table key value first).
Proof. intros Hwf index item. by apply record_facts.record_stored_row_old. Qed.

Lemma record_store_all_run entries : forall table,
  wf table ->
  record_count (manager_ table) + N.of_nat (length entries) < max_uint32 ->
  exists indexes table',
    store_all entries table = Some (indexes, table') /\
    wf table' /\
    extends table table' /\
    record_count (manager_ table')
    = record_count (manager_ table) + N.of_nat (length entries) /\
    indexes = (fun i => record_count (manager_ table) + N.of_nat i)
              <$> seq 0 (length entries) /\
    forall i entry,
      entries !! i = Some entry ->
      exists next,
        record_row table' (record_count (manager_ table) + N.of_nat i)
        = Some (mk_row entry.1 next entry.2).
Proof.
  induction entries as [| [key value] rest IH]; intros table Hwf Hroom.
  - exists [], table. cbn [store_all length seq fmap list_fmap].
    split_and!; try done; [by intros ? ? | lia].
  - destruct (record_facts.record_read_bucket_value_some table key
                (wf_buckets _ Hwf)) as [first Hfirst].
    cbn [store_all]. rewrite (record_facts.record_store_stored _ _ _ _ Hfirst).
    cbn [mbind option_bind].
    cbn [length] in Hroom.
    assert (wf (stored table key value first)) as Hwf1.
    { apply record_facts.record_stored_wf; [done | lia | done]. }
    destruct (IH (stored table key value first) Hwf1)
      as (indexes & table' & Hrun & Hwf' & Hext & Hcount & Hindexes & Hrows).
    { cbn [record_count manager_ stored]. lia. }
    rewrite Hrun. cbn [mbind option_bind].
    exists (record_count (manager_ table) :: indexes), table'.
    cbn [record_count manager_ stored] in *.
    split_and!; try done.
    + intros index item Hrow. apply Hext.
      by apply record_facts.record_stored_row_old.
    + cbn [length]. lia.
    + cbn [length seq fmap list_fmap]. f_equal; [lia |].
      rewrite Hindexes, <- fmap_S_seq, <- list_fmap_compose.
      apply list_fmap_ext. intros _ i _. cbn. lia.
    + intros [| i] entry; cbn [lookup list_lookup].
      * intros [= <-]. cbn [fst snd]. exists first.
        replace (record_count (manager_ table) + N.of_nat 0)
          with (record_count (manager_ table)) by lia.
        apply Hext. apply record_facts.record_stored_row.
      * intros Hentry. destruct (Hrows i entry Hentry) as [next Hrow].
        exists next.
        replace (record_count (manager_ table) + N.of_nat (S i))
          with (record_count (manager_ table) + 1 + N.of_nat i) by lia.
        exact Hrow.
Qed.

(** [store] hands out the record indexes in sequence, starting at the
    count of the manager, and no later [store] moves or changes a record:
    after a run of stores that stays below the sentinel, the record at the
    index each [store] returned holds the key and the value of that call,
    and every record the table held before is as it was. *)
Theorem record_stores_keep_records entries table :
  wf table ->
  record_count (manager_ table) + N.of_nat (length entries) < max_uint32 ->
  exists indexes table',
    store_all entries table = Some (indexes, table') /\
    wf table' /\
    indexes = (fun i => record_count (manager_ table) + N.of_nat i)
              <$> seq 0 (length entries) /\
    (forall i index entry,
       indexes !! i = Some index -> entries !! i = Some entry ->
       row_key <$> record_row table' index = Some entry.1 /\
       value_at table' index = Some entry.2) /\
    (forall index item,
       record_row table index = Some item ->
       record_row table' index = Some item).
Proof.
  intros Hwf Hroom.
  destruct (record_store_all_run entries table Hwf Hroom)
    as (indexes & table' & Hrun & Hwf' & Hext & _ & Hindexes & Hrows).
  exists indexes, table'. split_and!; try done.
  intros i index entry Hindex Hentry.
  rewrite Hindexes in Hindex.
  apply list_lookup_fmap_Some in Hindex as (j & -> & Hj).
  apply lookup_seq in Hj as [-> _]. cbn [Nat.add].
  destruct (Hrows i entry Hentry) as [next Hrow].
  unfold value_at. by rewrite Hrow.
Qed.

Lemma record_stores_keep_records_witness :
  exists indexes table',
    store_all [(sample.key_a, [x0a]); (sample.key_b, [x0b])] (created 4 2)
    = Some (indexes, table') /\
    indexes = [0; 1] /\
    value_at table' 0 = Some [x0a] /\ value_at table' 1 = Some [x0b].
Proof.
  destruct (record_stores_keep_records
              [(sample.key_a, [x0a]); (sample.key_b, [x0b])] (created 4 2))
    as (indexes & table' & Hrun & _ & Hindexes & Hrows & _).
  - apply record_facts.record_created_wf. lia.
  - vm_compute. reflexivity.
  - exists indexes, table'. split; [exact Hrun |].
    split; [exact Hindexes |].
    rewrite Hindexes in Hrows. split.
    + by apply (Hrows 0%nat 0 (sample.key_a, [x0a])).
    + by apply (Hrows 1%nat 1 (sample.key_b, [x0b])).
Defined.

End record_traversal_facts.

(** ** Theorems: the writers of the transaction database *)

Module transaction_update_facts.
Import transaction_database.

Section with_chain.
Context `{chain_library}.

Implicit Types (db : t) (point : output_point) (buffer : list byte).

(** *** What a write through a slab pointer leaves alone *)

(** Two stores with the same rows answer every query by offset and by hash
    alike. *)
Lemma get_offset_same_map db db' offset :
  lookup_map_ db' = lookup_map_ db ->
  get_offset db' offset = get_offset db offset.
Proof.
  intros Hmap. unfold get_offset, lookup_manager_get, slab_bytes, slab_key.
  by rewrite Hmap.
Qed.

Lemma get_same_map fuel db db' hash :
  lookup_map_ db' = lookup_map_ db -> get fuel db' hash = get fuel db hash.
Proof. intros Hmap. unfold get, slab_bytes. by rewrite Hmap. Qed.

Lemma put_value_wf table position item bytes :
  slab_hash_table.wf table ->
  slab_hash_table.slab_row table position = Some item ->
  slab_hash_table.wf
    (slab_hash_table.put_row position
       (mk_row (row_key item) (row_next item) bytes) table).
Proof.
  intros Hwf Hrow.
  assert (forall current, slab_hash_table.linked table current ->
            slab_hash_table.linked
              (slab_hash_table.put_row position
                 (mk_row (row_key item) (row_next item) bytes) table)
              current) as Hlinked.
  { intros current [-> | [item' Hrow']]; [by left | right].
    rewrite transaction_facts.slab_row_put_row.
    destruct (decide (position = current)); eauto. }
  split.
  - apply (slab_hash_table.wf_buckets _ Hwf).
  - apply (slab_hash_table.wf_payload _ Hwf).
  - intros current item'. rewrite transaction_facts.slab_row_put_row.
    destruct (decide (position = current)) as [<- | _].
    + intros _. by apply (slab_hash_table.wf_below _ Hwf) in Hrow.
    + apply (slab_hash_table.wf_below _ Hwf).
  - intros i head Hhead. apply Hlinked.
    eapply slab_hash_table.wf_heads; eauto.
  - intros current item'. rewrite transaction_facts.slab_row_put_row.
    destruct (decide (position = current)) as [<- | _].
    + intros [= <-]. cbn. apply Hlinked.
      eapply slab_hash_table.wf_nexts; eauto.
    + intros Hrow'. apply Hlinked.
      eapply slab_hash_table.wf_nexts; eauto.
Qed.

(** A write through a slab pointer changes the bytes of that one value and
    nothing else: not the bucket array, not the extent of the file, not a
    key or a link, and so not what [find] returns. *)
Lemma write_slab_frame db address bytes db' :
  write_slab address bytes db = Some db' ->
  cache_ db' = cache_ db /\
  slab_bytes db' address = Some bytes /\
  (forall other, other <> address ->
     slab_bytes db' other = slab_bytes db other) /\
  (forall other, slab_key db' other = slab_key db other) /\
  (forall fuel key,
     slab_hash_table.find fuel (lookup_map_ db') key
     = slab_hash_table.find fuel (lookup_map_ db) key) /\
  slab_hash_table.header_ (lookup_map_ db')
  = slab_hash_table.header_ (lookup_map_ db) /\
  slab_hash_table.payload_size (slab_hash_table.manager_ (lookup_map_ db'))
  = slab_hash_table.payload_size (slab_hash_table.manager_ (lookup_map_ db))
  /\
  (forall position,
     is_Some (slab_hash_table.slab_row (lookup_map_ db') position)
     <-> is_Some (slab_hash_table.slab_row (lookup_map_ db) position)) /\
  (slab_hash_table.wf (lookup_map_ db) ->
   slab_hash_table.wf (lookup_map_ db')).
Proof.
  unfold write_slab.
  destruct (address <? slab_hash_table.prefix_size (lookup_map_ db)) eqn:Hlow;
    [done |].
  apply N.ltb_ge in Hlow.
  destruct (slab_hash_table.slab_row (lookup_map_ db)
              (address - slab_hash_table.prefix_size (lookup_map_ db)))
    as [item |] eqn:Hrow; [cbn [mbind option_bind] | done].
  intros [= <-]. cbn [cache_ lookup_map_].
  set (prefix := slab_hash_table.prefix_size (lookup_map_ db)) in *.
  set (table' := slab_hash_table.put_row (address - prefix) _ _).
  assert (slab_hash_table.prefix_size table' = prefix) as Hprefix
    by reflexivity.
  split_and!; try done.
  - unfold slab_bytes, slab_hash_table.value_at. cbn [lookup_map_].
    rewrite Hprefix, (proj2 (N.ltb_ge _ _) Hlow).
    unfold table'. by rewrite transaction_facts.slab_row_put_row, decide_True.
  - intros other Hother. unfold slab_bytes, slab_hash_table.value_at.
    cbn [lookup_map_]. rewrite Hprefix. fold prefix.
    destruct (N.ltb_spec other prefix); [done |].
    unfold table'.
    rewrite transaction_facts.slab_row_put_row, decide_False; [done | lia].
  - intros other. unfold slab_key. cbn [lookup_map_]. rewrite Hprefix.
    fold prefix. destruct (other <? prefix); [done |].
    unfold table'. rewrite transaction_facts.slab_row_put_row.
    case_decide as Heq; [| done].
    rewrite <- Heq. by rewrite Hrow.
  - intros fuel key. unfold slab_hash_table.find.
    change (slab_hash_table.read_bucket_value table' key)
      with (slab_hash_table.read_bucket_value (lookup_map_ db) key).
    destruct (slab_hash_table.read_bucket_value (lookup_map_ db) key);
      [cbn | done].
    by apply transaction_facts.find_loop_put_value.
  - intros position. unfold table'.
    rewrite transaction_facts.slab_row_put_row.
    case_decide as Heq; [| done].
    rewrite <- Heq, Hrow. split; eauto.
  - intros Hwf. by apply put_value_wf.
Qed.

(** Where the bytes written agree with the bytes replaced on the seven
    bytes of the metadata, no query by offset or by hash changes. *)
Lemma write_slab_metadata db address buffer bytes db' :
  slab_bytes db address = Some buffer ->
  read_metadata bytes = read_metadata buffer ->
  write_slab address bytes db = Some db' ->
  (forall offset, get_offset db' offset = get_offset db offset) /\
  (forall fuel hash, get fuel db' hash = get fuel db hash).
Proof.
  intros Hbytes Hmeta Hwrite.
  destruct (write_slab_frame _ _ _ _ Hwrite)
    as (_ & Hnew & Hother & Hkey & Hfind & _).
  assert (forall offset,
            slab_bytes db' offset ≫= read_metadata
            = slab_bytes db offset ≫= read_metadata) as Hread.
  { intros offset. destruct (decide (offset = address)) as [-> | Hne].
    - by rewrite Hnew, Hbytes.
    - by rewrite Hother. }
  split.
  - intros offset. unfold get_offset, lookup_manager_get.
    cbn [mbind option_bind]. specialize (Hread offset).
    rewrite Hkey.
    destruct (slab_bytes db' offset) as [b' |],
      (slab_bytes db offset) as [b |]; cbn in *; try done.
    + by rewrite Hread.
    + by rewrite Hread.
    + by rewrite <- Hread.
  - intros fuel hash. unfold get. rewrite Hfind.
    destruct (slab_hash_table.find fuel (lookup_map_ db) hash)
      as [[found |] |]; cbn [mbind option_bind]; try done.
    specialize (Hread found).
    destruct (slab_bytes db' found) as [b' |],
      (slab_bytes db found) as [b |]; cbn in *; try done.
    + by rewrite Hread.
    + by rewrite Hread.
    + by rewrite <- Hread.
Qed.

(** *** spend *)

(** What [spend] leaves alone, whatever it returns: the cache apart, it
    changes at most the four bytes of one spender height. *)
Lemma spend_frame fuel point spender db ok db' :
  spend fuel point spender db = Some (ok, db') ->
  (forall offset, get_offset db' offset = get_offset db offset) /\
  (forall fuel' hash, get fuel' db' hash = get fuel' db hash) /\
  slab_hash_table.header_ (lookup_map_ db')
  = slab_hash_table.header_ (lookup_map_ db) /\
  slab_hash_table.payload_size (slab_hash_table.manager_ (lookup_map_ db'))
  = slab_hash_table.payload_size (slab_hash_table.manager_ (lookup_map_ db))
  /\
  (forall position,
     is_Some (slab_hash_table.slab_row (lookup_map_ db') position)
     <-> is_Some (slab_hash_table.slab_row (lookup_map_ db) position)) /\
  (slab_hash_table.wf (lookup_map_ db) ->
   slab_hash_table.wf (lookup_map_ db')) /\
  (ok = false -> lookup_map_ db' = lookup_map_ db).
Proof.
  unfold spend.
  destruct (is_null point); [by intros [= <- <-] |].
  set (db0 := if negb (spender =? not_spent)
              then mk (lookup_map_ db)
                     (unspent_outputs.remove point (cache_ db))
              else db).
  assert (lookup_map_ db0 = lookup_map_ db) as Hmap.
  { unfold db0. by destruct (negb (spender =? not_spent)). }
  assert (forall ok' db'',
            Some (ok', db0) = Some (ok, db'') ->
            (forall offset, get_offset db'' offset = get_offset db offset) /\
            (forall fuel' hash, get fuel' db'' hash = get fuel' db hash) /\
            slab_hash_table.header_ (lookup_map_ db'')
            = slab_hash_table.header_ (lookup_map_ db) /\
            slab_hash_table.payload_size
              (slab_hash_table.manager_ (lookup_map_ db''))
            = slab_hash_table.payload_size
                (slab_hash_table.manager_ (lookup_map_ db)) /\
            (forall position,
               is_Some (slab_hash_table.slab_row (lookup_map_ db'') position)
               <-> is_Some (slab_hash_table.slab_row (lookup_map_ db) position))
            /\
            (slab_hash_table.wf (lookup_map_ db) ->
             slab_hash_table.wf (lookup_map_ db'')) /\
            (ok = false -> lookup_map_ db'' = lookup_map_ db)) as Hkept.
  { intros ok' db'' [= _ <-]. rewrite Hmap. split_and!; try done.
    - intros offset. by apply get_offset_same_map.
    - intros fuel' hash. by apply get_same_map. }
  clearbody db0.
  destruct (slab_hash_table.find fuel (lookup_map_ db0) (point_hash point))
    as [[address |] |]; cbn [mbind option_bind]; [| by apply Hkept | done].
  destruct (slab_bytes db0 address) as [buffer |] eqn:Hbytes;
    cbn [mbind option_bind]; [| done].
  destruct (read_metadata buffer) as [[[height position] state] |] eqn:Hmeta;
    cbn [mbind option_bind]; [| done].
  destruct (negb (state =? state.confirmed) || (spender <? height));
    [by apply Hkept |].
  destruct (serial.read_size_little_endian buffer (N.to_nat metadata_size))
    as [[outputs cursor] |] eqn:Hsize; cbn [mbind option_bind]; [| done].
  destruct (outputs <=? point_index point); [by apply Hkept |].
  destruct (skip_outputs _ _ buffer cursor) as [cursor' |] eqn:Hskip;
    cbn [mbind option_bind]; [| done].
  destruct (serial.write_4_bytes_little_endian spender buffer cursor')
    as [buffer' |] eqn:Hwrite; cbn [mbind option_bind]; [| done].
  destruct (write_slab address buffer' db0) as [db1 |] eqn:Hslab;
    cbn [mbind option_bind]; [| done].
  intros [= <- <-].
  pose proof (serial_facts.write_little_endian_agree _ _ _ _ _ Hwrite)
    as [Hagree _].
  pose proof (serial_facts.read_size_cursor _ _ _ _ Hsize) as [Hpast _].
  destruct (transaction_facts.skip_outputs_agree _ _ _ _ _ Hskip) as [Hle _].
  assert (read_metadata buffer' = read_metadata buffer) as Hmeta'.
  { apply (transaction_facts.read_metadata_agree cursor'); [done | lia]. }
  destruct (write_slab_metadata _ _ _ _ _ Hbytes Hmeta' Hslab)
    as [Hoffset Hhash].
  destruct (write_slab_frame _ _ _ _ Hslab)
    as (_ & _ & _ & _ & _ & Hheader & Hpayload & Hrows & Hwf).
  rewrite <- Hmap. split_and!; try done.
  - intros offset. rewrite Hoffset. by apply get_offset_same_map.
  - intros fuel' hash. rewrite Hhash. by apply get_same_map.
Qed.

(** [spend] changes no metadata: whatever it returns, every query by offset
    and by hash finds the height, position and state it found before. *)
Theorem spend_keeps_metadata fuel point spender db ok db' :
  spend fuel point spender db = Some (ok, db') ->
  (forall offset, get_offset db' offset = get_offset db offset) /\
  (forall fuel' hash, get fuel' db' hash = get fuel' db hash).
Proof.
  intros Hspend.
  by destruct (spend_frame _ _ _ _ _ _ Hspend) as (? & ? & _).
Qed.

(** [spend] is limited to confirmed transactions at or below the spender
    height: for a point that is not null it returns false when no
    transaction is stored under the hash, when the transaction is not in
    state confirmed, and when it is confirmed above the spender height; and
    whenever it returns false it has written to no slab. *)
Theorem spend_refused fuel point spender db :
  is_null point = false ->
  (forall result,
     get fuel db (point_hash point) = Some result ->
     found result = false \/ state_ result <> state.confirmed
     \/ spender < height_ result ->
     exists db', spend fuel point spender db = Some (false, db')) /\
  (forall db',
     spend fuel point spender db = Some (false, db') ->
     lookup_map_ db' = lookup_map_ db).
Proof.
  intros Hnull. split.
  - intros result. unfold get, spend. rewrite Hnull.
    set (db0 := if negb (spender =? not_spent)
                then mk (lookup_map_ db)
                       (unspent_outputs.remove point (cache_ db))
                else db).
    assert (lookup_map_ db0 = lookup_map_ db) as Hmap.
    { unfold db0. by destruct (negb (spender =? not_spent)). }
    assert (slab_bytes db0 = slab_bytes db) as Hbytes.
    { unfold slab_bytes. by rewrite Hmap. }
    rewrite Hmap, Hbytes.
    destruct (slab_hash_table.find fuel (lookup_map_ db) (point_hash point))
      as [[address |] |]; cbn [mbind option_bind]; [| by eauto | done].
    destruct (slab_bytes db address) as [buffer |];
      cbn [mbind option_bind]; [| done].
    destruct (read_metadata buffer) as [[[height position] state] |];
      cbn [mbind option_bind]; [| done].
    intros [= <-]. cbn [found slab_ state_ height_].
    intros [? | [Hstate | Hheight]]; [done | |].
    + rewrite (proj2 (N.eqb_neq _ _) Hstate). cbn. eauto.
    + rewrite (proj2 (N.ltb_lt _ _) Hheight), orb_true_r. eauto.
  - intros db' Hspend.
    destruct (spend_frame _ _ _ _ _ _ Hspend) as (_ & _ & _ & _ & _ & _ & Hko).
    by apply Hko.
Qed.

(** *** Runs of spend, confirm and store *)

Lemma same_records_refl db : same_records db db.
Proof. by split_and!. Qed.

Lemma same_records_trans db1 db2 db3 :
  same_records db1 db2 -> same_records db2 db3 -> same_records db1 db3.
Proof.
  intros (Ho & Hg & Hh & Hp & Hr & Hw) (Ho' & Hg' & Hh' & Hp' & Hr' & Hw').
  split_and!.
  - intros offset. by rewrite Ho', Ho.
  - intros fuel hash. by rewrite Hg', Hg.
  - by rewrite Hh', Hh.
  - by rewrite Hp', Hp.
  - intros position. by rewrite Hr', Hr.
  - auto.
Qed.

Lemma spend_same_records fuel point spender db ok db' :
  spend fuel point spender db = Some (ok, db') -> same_records db db'.
Proof.
  intros Hspend.
  destruct (spend_frame _ _ _ _ _ _ Hspend) as (? & ? & ? & ? & ? & ? & _).
  by split_and!.
Qed.

Lemma spend_inputs_same_records fuel inputs spender : forall db ok db',
  spend_inputs fuel inputs spender db = Some (ok, db') -> same_records db db'.
Proof.
  induction inputs as [| i rest IH]; intros db ok db'; cbn [spend_inputs].
  - intros [= _ <-]. apply same_records_refl.
  - destruct (spend fuel (previous_output i) spender db) as [[[] db1] |]
      eqn:Hspend; [| | done].
    + intros Hrest. apply (same_records_trans _ db1).
      * by apply spend_same_records in Hspend.
      * by apply IH in Hrest.
    + intros [= _ <-]. by apply spend_same_records in Hspend.
Qed.

(** [confirm] rewrites the metadata of the record at [offset] and of no
    other. *)
Lemma confirm_frame offset height position st db ok db' :
  confirm offset height position st db = Some (ok, db') ->
  ok = true /\
  cache_ db' = cache_ db /\
  (forall other, other <> offset ->
     get_offset db' other = get_offset db other) /\
  (exists hash,
     get_offset db' offset
     = Some (mk_result (Some offset) (to_uint32 height) (to_uint16 position)
               hash (to_uint8 st))) /\
  slab_hash_table.header_ (lookup_map_ db')
  = slab_hash_table.header_ (lookup_map_ db) /\
  slab_hash_table.payload_size (slab_hash_table.manager_ (lookup_map_ db'))
  = slab_hash_table.payload_size (slab_hash_table.manager_ (lookup_map_ db))
  /\
  (forall position,
     is_Some (slab_hash_table.slab_row (lookup_map_ db') position)
     <-> is_Some (slab_hash_table.slab_row (lookup_map_ db) position)) /\
  (slab_hash_table.wf (lookup_map_ db) ->
   slab_hash_table.wf (lookup_map_ db')).
Proof.
  intros Hconfirm.
  destruct (transaction_facts.confirm_read_back _ _ _ _ _ _ _ Hconfirm)
    as [-> Hback].
  revert Hconfirm. unfold confirm, lookup_manager_get.
  cbn [mbind option_bind].
  destruct (slab_bytes db offset) as [buffer |]; [| done].
  cbn [mbind option_bind].
  destruct (serial.write_little_endian 4 _ buffer 0) as [buffer1 |];
    [| done]. cbn [mbind option_bind].
  destruct (serial.write_little_endian 2 _ buffer1 4) as [buffer2 |];
    [| done]. cbn [mbind option_bind].
  destruct (serial.write_little_endian 1 _ buffer2 6) as [buffer3 |];
    [| done]. cbn [mbind option_bind].
  destruct (write_slab offset buffer3 db) as [db3 |] eqn:Hwrite; [| done].
  cbn [mbind option_bind]. intros [= <-].
  destruct (write_slab_frame _ _ _ _ Hwrite)
    as (Hcache & _ & Hother & Hkey & _ & Hheader & Hpayload & Hrows & Hwf).
  split_and!; try done.
  intros other Hne. unfold get_offset, lookup_manager_get.
  cbn [mbind option_bind]. by rewrite Hother, Hkey.
Qed.

(** [store] of a new record leaves every record there is as it is, and the
    new record is found by its offset and by its hash. *)
Lemma store_new_frame tx height position st db ok tx' db' :
  slab_hash_table.wf (lookup_map_ db) ->
  store_new tx height position st db = Some (ok, tx', db') ->
  ok = true /\
  tx' = set_offset (validation_offset tx') tx /\
  validation_offset tx' <> slab_hash_table.not_found /\
  get_offset db (validation_offset tx') = None /\
  slab_hash_table.wf (lookup_map_ db') /\
  (forall offset result,
     get_offset db offset = Some result ->
     get_offset db' offset = Some result) /\
  get_offset db' (validation_offset tx')
  = Some (mk_result (Some (validation_offset tx')) (to_uint32 height)
            (to_uint16 position) (tx_hash tx) (to_uint8 st)) /\
  (forall fuel,
     get (S fuel) db' (tx_hash tx)
     = Some (mk_result (Some (validation_offset tx')) (to_uint32 height)
               (to_uint16 position) (tx_hash tx) (to_uint8 st))) /\
  slab_bytes db' (validation_offset tx')
  = Some (serial.to_little_endian 4 (to_uint32 height)
          ++ serial.to_little_endian 2 (to_uint16 position)
          ++ serial.to_little_endian 1 (to_uint8 st)
          ++ transaction_to_data tx).
Proof.
  intros Hwf Hstore.
  destruct (transaction_facts.store_new_read_back _ _ _ _ _ _ _ _ Hstore)
    as (-> & _ & Hback).
  revert Hstore Hback. unfold store_new. cbv zeta.
  set (bytes := serial.to_little_endian 4 (to_uint32 height) ++ _).
  destruct (slab_facts.read_bucket_value_some (lookup_map_ db) (tx_hash tx)
              (slab_hash_table.wf_buckets _ Hwf)) as [first Hfirst].
  rewrite (slab_facts.store_stored _ _ _ _ _ Hfirst).
  cbn [mbind option_bind]. intros [= <- <-].
  cbn [validation_offset set_offset lookup_map_]. intros Hback.
  set (table := lookup_map_ db) in *.
  set (size := metadata_size + N.of_nat (length (transaction_to_data tx))).
  pose proof (slab_facts.stored_extends table (tx_hash tx) bytes size first Hwf)
    as Hext.
  pose proof (slab_hash_table.wf_payload _ Hwf) as Hpositive.
  assert (slab_bytes db
            (slab_hash_table.payload_size (slab_hash_table.manager_ table)
             + slab_hash_table.prefix_size table) = None) as Hfresh.
  { unfold slab_bytes, slab_hash_table.value_at. fold table.
    destruct (N.ltb_spec
                (slab_hash_table.payload_size (slab_hash_table.manager_ table)
                 + slab_hash_table.prefix_size table)
                (slab_hash_table.prefix_size table)); [done |].
    replace (slab_hash_table.payload_size (slab_hash_table.manager_ table)
             + slab_hash_table.prefix_size table
             - slab_hash_table.prefix_size table)
      with (slab_hash_table.payload_size (slab_hash_table.manager_ table))
      by lia.
    destruct (slab_hash_table.slab_row table _) as [item |] eqn:Hrow;
      [| done].
    apply (slab_hash_table.wf_below _ Hwf) in Hrow. lia. }
  split_and!; try done.
  - unfold slab_hash_table.not_found. lia.
  - unfold get_offset, lookup_manager_get. cbn [mbind option_bind].
    by rewrite Hfresh.
  - by apply slab_facts.stored_wf.
  - intros offset result. unfold get_offset, lookup_manager_get, slab_bytes,
      slab_key. cbn [mbind option_bind lookup_map_]. fold table.
    change (slab_hash_table.prefix_size
              (slab_hash_table.stored table (tx_hash tx) bytes size first))
      with (slab_hash_table.prefix_size table).
    destruct (slab_hash_table.value_at table offset) as [buffer |] eqn:Hvalue;
      [| done].
    rewrite (slab_facts.value_at_extends _ _ _ _ Hext Hvalue).
    cbn [mbind option_bind].
    destruct (read_metadata buffer) as [[[h p] s] |]; [| done].
    cbn [mbind option_bind].
    destruct (offset <? slab_hash_table.prefix_size table); [done |].
    destruct (slab_hash_table.slab_row table _) as [item |] eqn:Hrow;
      [| done].
    destruct Hext as [_ Hext]. by rewrite (Hext _ _ Hrow).
  - intros fuel. unfold get. cbn [lookup_map_]. fold table.
    rewrite slab_facts.find_stored by done. cbn [mbind option_bind].
    unfold slab_bytes. cbn [lookup_map_].
    rewrite slab_facts.value_at_stored. cbn [mbind option_bind].
    unfold bytes. rewrite transaction_facts.read_metadata_written.
    cbn [mbind option_bind].
    unfold to_uint32, to_uint16, to_uint8. by rewrite !N.Div0.mod_mod.
  - unfold slab_bytes. cbn [lookup_map_]. apply slab_facts.value_at_stored.
Qed.

(** *** store, pool and promotion *)

Lemma store_fresh_record fuel fuel' tx height position st db tx' db' :
  slab_hash_table.wf (lookup_map_ db) ->
  validation_offset tx = slab_hash_table.not_found \/ st <> state.confirmed ->
  store fuel tx height position st db = Some (true, tx', db') ->
  tx' = set_offset (validation_offset tx') tx /\
  validation_offset tx' <> slab_hash_table.not_found /\
  get_offset db' (validation_offset tx')
  = Some (mk_result (Some (validation_offset tx')) (to_uint32 height)
            (to_uint16 position) (tx_hash tx) (to_uint8 st)) /\
  get (S fuel') db' (tx_hash tx)
  = Some (mk_result (Some (validation_offset tx')) (to_uint32 height)
            (to_uint16 position) (tx_hash tx) (to_uint8 st)) /\
  slab_bytes db' (validation_offset tx')
  = Some (serial.to_little_endian 4 (to_uint32 height)
          ++ serial.to_little_endian 2 (to_uint16 position)
          ++ serial.to_little_endian 1 (to_uint8 st)
          ++ transaction_to_data tx) /\
  (forall offset result,
     get_offset db offset = Some result ->
     get_offset db' offset = Some result) /\
  slab_hash_table.wf (lookup_map_ db').
Proof.
  intros Hwf Hnew. unfold store.
  assert (forall db1,
            same_records db db1 ->
            store_new tx height position st db1 = Some (true, tx', db') ->
            tx' = set_offset (validation_offset tx') tx /\
            validation_offset tx' <> slab_hash_table.not_found /\
            get_offset db' (validation_offset tx')
            = Some (mk_result (Some (validation_offset tx')) (to_uint32 height)
                      (to_uint16 position) (tx_hash tx) (to_uint8 st)) /\
            get (S fuel') db' (tx_hash tx)
            = Some (mk_result (Some (validation_offset tx')) (to_uint32 height)
                      (to_uint16 position) (tx_hash tx) (to_uint8 st)) /\
            slab_bytes db' (validation_offset tx')
            = Some (serial.to_little_endian 4 (to_uint32 height)
                    ++ serial.to_little_endian 2 (to_uint16 position)
                    ++ serial.to_little_endian 1 (to_uint8 st)
                    ++ transaction_to_data tx) /\
            (forall offset result,
               get_offset db offset = Some result ->
               get_offset db' offset = Some result) /\
            slab_hash_table.wf (lookup_map_ db')) as Hrun.
  { intros db1 (Hoffsets & _ & _ & _ & _ & Hwf1) Hstore.
    destruct (store_new_frame _ _ _ _ _ _ _ _ (Hwf1 Hwf) Hstore)
      as (_ & Hset & Hoffset & _ & Hwf' & Hold & Hback & Hhash & Hbytes).
    split_and!; try done.
    intros offset result Hget. apply Hold. by rewrite Hoffsets. }
  destruct (st =? state.confirmed) eqn:Hst.
  - destruct Hnew as [Hoffset | Hstate];
      [| by apply N.eqb_eq in Hst].
    destruct (spend_inputs fuel (tx_inputs tx) height db) as [[ok db1] |]
      eqn:Hspend; [cbn [mbind option_bind] | done].
    destruct ok; cbn [negb]; [| done].
    rewrite Hoffset, N.eqb_refl. cbn [negb].
    apply Hrun. by apply spend_inputs_same_records in Hspend.
  - apply Hrun. apply same_records_refl.
Qed.

(** A record that [store] writes anew is what the queries return
    afterwards: [get] by the offset left in the transaction and [get] by
    the hash both find it, with the height, the position and the state
    stored (at the widths of their fields), its bytes are the metadata
    followed by the serialized transaction, and every record there was
    before is returned as before. *)
Theorem store_then_get fuel fuel' tx height position st db tx' db' :
  slab_hash_table.wf (lookup_map_ db) ->
  validation_offset tx = slab_hash_table.not_found \/ st <> state.confirmed ->
  store fuel tx height position st db = Some (true, tx', db') ->
  tx' = set_offset (validation_offset tx') tx /\
  validation_offset tx' <> slab_hash_table.not_found /\
  get_offset db' (validation_offset tx')
  = Some (mk_result (Some (validation_offset tx')) (to_uint32 height)
            (to_uint16 position) (tx_hash tx) (to_uint8 st)) /\
  get (S fuel') db' (tx_hash tx)
  = Some (mk_result (Some (validation_offset tx')) (to_uint32 height)
            (to_uint16 position) (tx_hash tx) (to_uint8 st)) /\
  slab_bytes db' (validation_offset tx')
  = Some (serial.to_little_endian 4 (to_uint32 height)
          ++ serial.to_little_endian 2 (to_uint16 position)
          ++ serial.to_little_endian 1 (to_uint8 st)
          ++ transaction_to_data tx) /\
  (forall offset result,
     get_offset db offset = Some result ->
     get_offset db' offset = Some result) /\
  slab_hash_table.wf (lookup_map_ db').
Proof. apply store_fresh_record. Qed.

Lemma pool_record fuel tx db ok db' :
  pool fuel tx db = Some (ok, db') ->
  (forall other, other <> validation_offset tx ->
     get_offset db' other = get_offset db other) /\
  (ok = true ->
   exists result,
     get_offset db' (validation_offset tx) = Some result /\
     slab_ result = Some (validation_offset tx) /\
     height_ result = to_uint32 unverified /\
     position_ result = unconfirmed /\
     state_ result = state.pooled /\
     forall fork_height, is_spent db' result fork_height = Some false).
Proof.
  unfold pool.
  destruct (spend_inputs fuel (tx_inputs tx) not_spent db) as [[spent db1] |]
    eqn:Hspend; [cbn [mbind option_bind] | done].
  apply spend_inputs_same_records in Hspend as (Hoffsets & _).
  destruct spent; cbn [negb].
  - intros Hconfirm.
    destruct (confirm_frame _ _ _ _ _ _ _ Hconfirm)
      as (-> & _ & Hother & [hash Hback] & _).
    split.
    + intros other Hne. by rewrite Hother, Hoffsets.
    + intros _. eexists. split; [exact Hback |]. by split_and!.
  - intros [= <- <-]. split; [| done]. intros other _. apply Hoffsets.
Qed.

(** [pool] demotes the transaction at the offset it carries and changes the
    metadata of no other record: when it returns true the record reads
    back as pooled, with the height [unverified] and the position
    [unconfirmed], and so as not spent at any fork height. *)
Theorem pool_demotes fuel tx db ok db' :
  pool fuel tx db = Some (ok, db') ->
  (forall other, other <> validation_offset tx ->
     get_offset db' other = get_offset db other) /\
  (ok = true ->
   exists result,
     get_offset db' (validation_offset tx) = Some result /\
     slab_ result = Some (validation_offset tx) /\
     height_ result = to_uint32 unverified /\
     position_ result = unconfirmed /\
     state_ result = state.pooled /\
     forall fork_height, is_spent db' result fork_height = Some false).
Proof. apply pool_record. Qed.

(** A confirming [store] of a transaction that carries an offset promotes
    the record at that offset in place: no row is added to the table and
    the metadata of no other record changes; when it returns true the
    record reads back as confirmed at the height and position given. *)
Theorem promote_in_place fuel tx height position db ok tx' db' :
  validation_offset tx <> slab_hash_table.not_found ->
  store fuel tx height position state.confirmed db = Some (ok, tx', db') ->
  tx' = tx /\
  slab_hash_table.header_ (lookup_map_ db')
  = slab_hash_table.header_ (lookup_map_ db) /\
  slab_hash_table.payload_size (slab_hash_table.manager_ (lookup_map_ db'))
  = slab_hash_table.payload_size (slab_hash_table.manager_ (lookup_map_ db))
  /\
  (forall position,
     is_Some (slab_hash_table.slab_row (lookup_map_ db') position)
     <-> is_Some (slab_hash_table.slab_row (lookup_map_ db) position)) /\
  (forall other, other <> validation_offset tx ->
     get_offset db' other = get_offset db other) /\
  (ok = true ->
   exists hash,
     get_offset db' (validation_offset tx)
     = Some (mk_result (Some (validation_offset tx)) (to_uint32 height)
               (to_uint16 position) hash state.confirmed)).
Proof.
  intros Hoffset. unfold store. cbn [N.eqb state.confirmed Pos.eqb].
  destruct (spend_inputs fuel (tx_inputs tx) height db) as [[spent db1] |]
    eqn:Hspend; [cbn [mbind option_bind] | done].
  apply spend_inputs_same_records in Hspend
    as (Hoffsets & _ & Hheader & Hpayload & Hrows & _).
  destruct spent; cbn [negb].
  - rewrite (proj2 (N.eqb_neq _ _) Hoffset). cbn [negb].
    destruct (confirm (validation_offset tx) height position state.confirmed _)
      as [[ok' db3] |] eqn:Hconfirm; [cbn [mbind option_bind] | done].
    intros [= <- <- <-].
    destruct (confirm_frame _ _ _ _ _ _ _ Hconfirm)
      as (-> & _ & Hother & Hback & Hheader' & Hpayload' & Hrows' & _).
    cbn [lookup_map_] in *.
    split_and!; try done.
    + congruence.
    + congruence.
    + intros row. by rewrite Hrows', Hrows.
    + intros other Hne. rewrite Hother by done.
      rewrite <- Hoffsets. by apply get_offset_same_map.
  - intros [= <- <- <-]. by split_and!.
Qed.

(** *** get_output *)

(** What [get_output] reports when the cache does not answer: an output is
    never reported spent unless it is reported confirmed and the call
    returns true; a true return comes with a valid output in the cache
    field of the point; and a false return has reset the spent flag and
    the coinbase height and kept the confirmed flag of the caller. *)
Theorem get_output_reports fuel db point prevout fork_height ok populated :
  is_null point = true
  \/ unspent_outputs.populate point fork_height (cache_ db) = None ->
  get_output fuel db point prevout fork_height = Some (ok, populated) ->
  (spent populated = true -> confirmed populated = true /\ ok = true) /\
  (ok = true -> is_valid (cache populated) = true) /\
  (ok = false ->
   spent populated = false /\ coinbase_height populated = unspecified /\
   confirmed populated = confirmed prevout).
Proof.
  intros Hmiss. unfold get_output.
  destruct (is_null point); [by intros [= <- <-] |].
  destruct Hmiss as [? | ->]; [done |].
  destruct (get fuel db (point_hash point)) as [result |];
    [cbn [mbind option_bind] | done].
  destruct (negb (found result)); [by intros [= <- <-] |].
  destruct (height_ result =? 0); [by intros [= <- <-] |].
  destruct (_ && negb _); [by intros [= <- <-] |].
  destruct (result_output db result (point_index point)) as [out |];
    [cbn [mbind option_bind] | done].
  destruct (is_valid out) eqn:Hvalid; cbn [negb]; [| by intros [= <- <-]].
  intros [= <- <-].
  destruct (position_ result =? 0); cbn;
    (split; [by intros [? _]%andb_prop | done]).
Qed.

End with_chain.

(** *** The concrete checks *)

Import sample.
#[local] Existing Instance chain_v3.

Lemma spend_keeps_metadata_witness :
  let db := database_of (slab_of 7 0 state.confirmed coinbase_tx) [] in
  let db' := database_of (slab_of 7 0 state.confirmed (coinbase_spent_at 300))
               [] in
  spend 1 coinbase_point 300 db = Some (true, db') /\
  get 1 db' coinbase_hash = get 1 db coinbase_hash /\
  get_offset db' 48 = get_offset db 48.
Proof.
  cbv zeta.
  assert (spend 1 coinbase_point 300
            (database_of (slab_of 7 0 state.confirmed coinbase_tx) [])
          = Some (true,
                  database_of
                    (slab_of 7 0 state.confirmed (coinbase_spent_at 300)) []))
    as Hspend by (vm_compute; reflexivity).
  split; [exact Hspend |].
  destruct (spend_keeps_metadata _ _ _ _ _ _ Hspend) as [Hoffset Hhash].
  split; [apply Hhash | apply Hoffset].
Defined.

Lemma spend_refused_witness :
  let db := database_of (slab_of 9 unconfirmed state.pooled coinbase_tx) [] in
  exists db',
    spend 1 coinbase_point 300 db = Some (false, db') /\
    lookup_map_ db' = lookup_map_ db.
Proof.
  cbv zeta.
  destruct (spend_refused 1 coinbase_point 300
              (database_of (slab_of 9 unconfirmed state.pooled coinbase_tx) []))
    as [Hrefused Hkept]; [vm_compute; reflexivity |].
  destruct (Hrefused
              (mk_result (Some 48) 9 unconfirmed coinbase_hash state.pooled))
    as [db' Hspend].
  - vm_compute. reflexivity.
  - right. left. vm_compute. discriminate.
  - exists db'. split; [exact Hspend |]. by apply Hkept.
Defined.

Lemma store_then_get_witness :
  let db' := database_of (slab_of 7 0 state.confirmed coinbase_tx)
               [coinbase_entry 7] in
  store 1 coinbase_tx 7 0 state.confirmed empty_database
  = Some (true, set_offset 48 coinbase_tx, db') /\
  get 1 db' coinbase_hash
  = Some (mk_result (Some 48) 7 0 coinbase_hash state.confirmed) /\
  slab_bytes db' 48 = Some (slab_of 7 0 state.confirmed coinbase_tx).
Proof.
  cbv zeta.
  assert (store 1 coinbase_tx 7 0 state.confirmed empty_database
          = Some (true, set_offset 48 coinbase_tx,
                  database_of (slab_of 7 0 state.confirmed coinbase_tx)
                    [coinbase_entry 7]))
    as Hstore by (vm_compute; reflexivity).
  split; [exact Hstore |].
  destruct (store_then_get 1 0 coinbase_tx 7 0 state.confirmed empty_database
              (set_offset 48 coinbase_tx)
              (database_of (slab_of 7 0 state.confirmed coinbase_tx)
                 [coinbase_entry 7]))
    as (_ & _ & _ & Hhash & Hbytes & _).
  { apply slab_facts.created_wf. lia. }
  { by left. }
  { exact Hstore. }
  split; [exact Hhash | exact Hbytes].
Defined.

Lemma pool_demotes_witness :
  let db := database_of (slab_of 7 0 state.confirmed coinbase_tx)
              [coinbase_entry 7] in
  let db' := database_of (slab_of unverified unconfirmed state.pooled coinbase_tx)
               [coinbase_entry 7] in
  pool 1 (set_offset 48 coinbase_tx) db = Some (true, db') /\
  exists result,
    get_offset db' 48 = Some result /\
    state_ result = state.pooled /\
    is_spent db' result max_size_t = Some false.
Proof.
  cbv zeta.
  assert (pool 1 (set_offset 48 coinbase_tx)
            (database_of (slab_of 7 0 state.confirmed coinbase_tx)
               [coinbase_entry 7])
          = Some (true,
                  database_of
                    (slab_of unverified unconfirmed state.pooled coinbase_tx)
                    [coinbase_entry 7]))
    as Hpool by (vm_compute; reflexivity).
  split; [exact Hpool |].
  destruct (pool_demotes _ _ _ _ _ Hpool) as [_ Hdemoted].
  destruct (Hdemoted eq_refl)
    as (result & Hget & _ & _ & _ & Hstate & Hspent).
  exists result. split; [exact Hget |]. split; [exact Hstate |].
  apply Hspent.
Defined.

Lemma promote_in_place_witness :
  let db := database_of (slab_of 9 unconfirmed state.pooled coinbase_tx) [] in
  let db' := database_of (slab_of 7 0 state.confirmed coinbase_tx)
               [coinbase_entry 7] in
  store 1 (set_offset 48 coinbase_tx) 7 0 state.confirmed db
  = Some (true, set_offset 48 coinbase_tx, db') /\
  slab_hash_table.payload_size (slab_hash_table.manager_ (lookup_map_ db'))
  = slab_hash_table.payload_size (slab_hash_table.manager_ (lookup_map_ db))
  /\
  exists hash,
    get_offset db' 48
    = Some (mk_result (Some 48) 7 0 hash state.confirmed).
Proof.
  cbv zeta.
  assert (store 1 (set_offset 48 coinbase_tx) 7 0 state.confirmed
            (database_of (slab_of 9 unconfirmed state.pooled coinbase_tx) [])
          = Some (true, set_offset 48 coinbase_tx,
                  database_of (slab_of 7 0 state.confirmed coinbase_tx)
                    [coinbase_entry 7]))
    as Hstore by (vm_compute; reflexivity).
  split; [exact Hstore |].
  destruct (promote_in_place 1 (set_offset 48 coinbase_tx) 7 0
              (database_of (slab_of 9 unconfirmed state.pooled coinbase_tx) [])
              true (set_offset 48 coinbase_tx)
              (database_of (slab_of 7 0 state.confirmed coinbase_tx)
                 [coinbase_entry 7]))
    as (_ & _ & Hpayload & _ & _ & Hback);
    [vm_compute; discriminate | exact Hstore |].
  split; [exact Hpayload |]. by apply Hback.
Defined.

Lemma get_output_reports_witness :
  let db := database_of (slab_of 7 0 state.confirmed coinbase_tx) [] in
  exists populated,
    get_output 1 db coinbase_point no_metadata 10 = Some (true, populated) /\
    is_valid (cache populated) = true.
Proof.
  cbv zeta.
  destruct (get_output 1
              (database_of (slab_of 7 0 state.confirmed coinbase_tx) [])
              coinbase_point no_metadata 10) as [[ok populated] |] eqn:Hget;
    [| by vm_compute in Hget].
  assert (ok = true) as ->.
  { vm_compute in Hget. by injection Hget as <- _. }
  exists populated. split; [reflexivity |].
  destruct (get_output_reports 1
              (database_of (slab_of 7 0 state.confirmed coinbase_tx) [])
              coinbase_point no_metadata 10 true populated)
    as (_ & Hvalid & _); [right; reflexivity | exact Hget |].
  by apply Hvalid.
Defined.

End transaction_update_facts.

(** ** Theorems: what the coordinator writes *)

Module data_base_write_facts.
Import data_base.

Section with_parts.
Context `{chain_library} `{sub_databases}.

Implicit Types (db : t) (tx : transaction).

(** *** The loop *)

(** What every turn of the body keeps holds when the loop returns. *)
Lemma for_positions_keeps {S} (keeps : S -> Prop) count buckets
    (body : N -> S -> option (bool * S)) :
  (forall position s ok s',
     keeps s -> body position s = Some (ok, s') -> keeps s') ->
  forall turns position s ok s',
    keeps s ->
    for_positions turns count buckets body position s = Some (ok, s') ->
    keeps s'.
Proof.
  intros Hbody.
  induction turns as [| turns IH]; intros position s ok s' Hs; [done |].
  cbn [for_positions]. unfold loop_turn.
  destruct (position <? count).
  - destruct (body position s) as [[ok1 s1] |] eqn:Hturn;
      cbn [mbind option_bind]; [| done].
    pose proof (Hbody _ _ _ _ Hs Hturn) as Hs1.
    destruct ok1; [by apply IH | by intros [= _ <-]].
  - by intros [= _ <-].
Qed.

(** A loop that returns true has taken every turn with success and found
    its position at or past the count. *)
Lemma for_positions_reaches {S} (at_ : N -> S -> Prop) count buckets
    (body : N -> S -> option (bool * S)) :
  (forall position s s',
     position < count -> at_ position s ->
     body position s = Some (true, s') ->
     at_ (ceiling_add position buckets) s') ->
  forall turns position s s',
    at_ position s ->
    for_positions turns count buckets body position s = Some (true, s') ->
    exists position', count <= position' /\ at_ position' s'.
Proof.
  intros Hbody.
  induction turns as [| turns IH]; intros position s s' Hs; [done |].
  cbn [for_positions]. unfold loop_turn.
  destruct (N.ltb_spec position count) as [Hlt | Hge].
  - destruct (body position s) as [[ok1 s1] |] eqn:Hturn;
      cbn [mbind option_bind]; [| done].
    destruct ok1; [| done].
    apply IH. by apply (Hbody position s).
  - intros [= <-]. by exists position.
Qed.


(** *** push(block, height) *)


Lemma ceiling_add_one position count :
  count <= max_size_t -> position < count ->
  ceiling_add position 1 = position + 1.
Proof.
  intros Hcount Hlt. unfold ceiling_add.
  destruct (N.ltb_spec (max_size_t - 1) position); [lia | done].
Qed.


(** The functions that end a write leave the transactions alone. *)
Lemma commit_transactions db : transactions_ (commit db) = transactions_ db.
Proof. unfold commit. by destruct (index_addresses db). Qed.

Lemma end_write_transactions db :
  transactions_ (snd (end_write db)) = transactions_ db.
Proof. unfold end_write. by destruct (file_system_ok db). Qed.

Lemma begin_write_transactions db :
  transactions_ (snd (begin_write db)) = transactions_ db.
Proof. unfold begin_write. by destruct (file_system_ok db). Qed.


(** *** Block push (parallel by tx) *)








(** *** push(tx, forks) *)

(** A transaction that was pushed cannot be pushed again: after a
    [push(tx, forks)] that returned success, a second push of the
    transaction returns unspent_duplicate, whatever its forks, and leaves
    the store as the first push left it. *)
Theorem push_twice_rejected fuel fuel' tx forks forks' db tx' db' :
  slab_hash_table.wf
    (transaction_database.lookup_map_ (transactions_ db)) ->
  push_transaction fuel tx forks db = Some (success, tx', db') ->
  push_transaction (S fuel') tx forks' db'
  = Some (unspent_duplicate, tx, db') /\
  push_transaction (S fuel') tx' forks' db'
  = Some (unspent_duplicate, tx', db').
Proof.
  intros Hwf. unfold push_transaction at 1.
  destruct (verify_push_transaction fuel db tx) as [ec |];
    [cbn [mbind option_bind] | done].
  destruct ec; try done. change (is_error success) with false. cbn iota.
  pose proof (begin_write_transactions db) as Hbegin.
  destruct (begin_write db) as [began db1]. cbn [snd] in Hbegin.
  destruct began; cbn [negb]; [| done].
  destruct (transaction_database.store fuel tx forks
              transaction_database.unconfirmed state.pooled (transactions_ db1))
    as [[[ok tx1] tdb] |] eqn:Hstore; [cbn [mbind option_bind] | done].
  set (db2 := set_transactions _ db1).
  pose proof (end_write_transactions db2) as Hend.
  destruct (end_write db2) as [ended db3]. cbn [snd] in Hend.
  intros [= _ <- <-].
  assert (transactions_ db3 = tdb) as Hsame by by rewrite Hend.
  rewrite Hbegin in Hstore.
  unfold transaction_database.store in Hstore.
  cbn [N.eqb state.confirmed state.pooled Pos.eqb] in Hstore.
  destruct (transaction_update_facts.store_new_frame _ _ _ _ _ _ _ _
              Hwf Hstore) as (_ & Hset & _ & _ & _ & _ & _ & Hfound & _).
  assert (tx_hash tx1 = tx_hash tx) as Hhash by by rewrite Hset.
  assert (forall tx0,
            tx_hash tx0 = tx_hash tx ->
            push_transaction (S fuel') tx0 forks' db3
            = Some (unspent_duplicate, tx0, db3)) as Hagain.
  { intros tx0 Htx0. unfold push_transaction, verify_push_transaction.
    rewrite Hsame, Htx0, Hfound. cbn [mbind option_bind]. reflexivity. }
  split; by apply Hagain.
Qed.

(** *** pop(block, height), pop(header, height) *)

Lemma to_transactions_offsets db : forall offsets txs,
  to_transactions_from db offsets = Some txs ->
  validation_offset <$> txs = offsets.
Proof.
  induction offsets as [| offset rest IH]; intros txs;
    cbn [to_transactions_from].
  - by intros [= <-].
  - destruct (transaction_database.get_offset (transactions_ db) offset)
      as [result |]; [cbn [mbind option_bind] | done].
    destruct (transaction_database.result_transaction (transactions_ db) result)
      as [tx |]; [cbn [mbind option_bind] | done].
    destruct (to_transactions_from db rest) as [txs0 |];
      [cbn [mbind option_bind] | done].
    intros [= <-]. cbn [fmap list_fmap]. f_equal. by apply IH.
Qed.

Lemma pop_indexes_transactions tx db :
  transactions_ (snd (pop_inputs tx db)) = transactions_ db /\
  transactions_ (snd (pop_outputs tx db)) = transactions_ db /\
  transactions_ (snd (pop_stealth tx db)) = transactions_ db.
Proof.
  unfold pop_inputs, pop_outputs, pop_stealth. split_and!; [| | done].
  - destruct (negb (index_addresses db) || is_coinbase tx); [done |].
    destruct (all_unlinked spends_unlink _ _) as [ok indexes1].
    destruct ok; cbn [negb]; [| done].
    by destruct (all_unlinked history_unlink_last_row _ _).
  - destruct (negb (index_addresses db)); [done |].
    by destruct (all_unlinked history_unlink_last_row _ _).
Qed.

Lemma pop_transaction_at_transactions fuel txs position db ok db' :
  pop_transaction_at fuel txs position db = Some (ok, db') ->
  exists tx pooled,
    txs !! N.to_nat position = Some tx /\
    transaction_database.pool fuel tx (transactions_ db)
    = Some (pooled, transactions_ db') /\
    (ok = true -> pooled = true).
Proof.
  unfold pop_transaction_at.
  destruct (txs !! N.to_nat position) as [tx |] eqn:Hlookup;
    [cbn [mbind option_bind] | done].
  destruct (transaction_database.pool fuel tx (transactions_ db))
    as [[pooled tdb] |] eqn:Hpool; [cbn [mbind option_bind] | done].
  assert (transactions_ (set_transactions tdb db) = tdb) as Hlookup' by done.
  clear Hlookup. rename Hlookup' into Hlookup.
  destruct pooled; cbn [negb].
  2:{ intros [= <- <-]. exists tx, false. by rewrite Hlookup. }
  assert (index_addresses (set_transactions tdb db) = index_addresses db)
    as -> by done.
  destruct (index_addresses db).
  2:{ intros [= <- <-]. exists tx, true. by rewrite Hlookup. }
  destruct (pop_indexes_transactions tx (set_transactions tdb db))
    as (Hinputs & _).
  destruct (pop_inputs tx (set_transactions tdb db)) as [ok1 db2].
  cbn [snd] in Hinputs.
  destruct ok1; cbn [negb].
  2:{ intros [= <- <-]. exists tx, true. by rewrite Hinputs, Hlookup. }
  destruct (pop_indexes_transactions tx db2) as (_ & Houtputs & _).
  destruct (pop_outputs tx db2) as [ok2 db3]. cbn [snd] in Houtputs.
  destruct ok2; cbn [negb].
  2:{ intros [= <- <-]. exists tx, true.
      by rewrite Houtputs, Hinputs, Hlookup. }
  intros [= <- <-]. exists tx, true. by rewrite Houtputs, Hinputs, Hlookup.
Qed.

(** [pop] that returns success has demoted every transaction of the block
    it popped: the block it rebuilt carries the offsets the block database
    holds for the height, the store was committed, and the record at each
    of these offsets reads back as pooled, with the height [unverified] and
    the position [unconfirmed]. *)
Theorem pop_pools_transactions fuel height block_index db rebuilt committed
    db' :
  N.of_nat (length (transaction_offsets
                      (blocks_get height block_index (blocks_ db))))
  <= max_size_t ->
  pop fuel height block_index db = Some (success, rebuilt, committed, db') ->
  committed = true /\
  exists b,
    rebuilt = Some b /\
    block_header b
    = result_header (blocks_get height block_index (blocks_ db)) /\
    validation_offset <$> transactions b
    = transaction_offsets (blocks_get height block_index (blocks_ db)) /\
    forall offset,
      offset ∈ transaction_offsets (blocks_get height block_index (blocks_ db))
      ->
      exists result,
        transaction_database.get_offset (transactions_ db') offset
        = Some result /\
        transaction_database.height_ result = to_uint32 unverified /\
        transaction_database.position_ result
        = transaction_database.unconfirmed /\
        transaction_database.state_ result = state.pooled.
Proof.
  intros Hcount. unfold pop.
  destruct (verify_top db height block_index); try done.
  change (is_error success) with false. cbn iota.
  set (result := blocks_get height block_index (blocks_ db)) in *.
  destruct (result_valid result); cbn [negb]; [| done].
  unfold to_transactions.
  destruct (to_transactions_from db (transaction_offsets result)) as [txs |]
    eqn:Htxs; [cbn [mbind option_bind] | done].
  apply to_transactions_offsets in Htxs.
  pose proof (begin_write_transactions db) as Hbegin.
  destruct (begin_write db) as [began db1]. cbn [snd] in Hbegin.
  destruct began; cbn [negb]; [| done].
  destruct (pop_transactions fuel txs 0 1 db1) as [[ok db2] |] eqn:Hpop;
    [cbn [mbind option_bind] | done].
  destruct ok; cbn [negb]; [| done].
  destruct (blocks_unconfirm height block_index (blocks_ db2))
    as [unconfirmed blocks'].
  destruct unconfirmed; cbn [negb]; [| done].
  set (db4 := commit _).
  pose proof (end_write_transactions db4) as Hend.
  destruct (end_write db4) as [ended db5]. cbn [snd] in Hend.
  intros [= _ <- <- <-]. split; [done |].
  eexists. split; [reflexivity |]. cbn [block_header transactions].
  split; [done |]. split; [done |].
  assert (transactions_ db5 = transactions_ db2) as ->.
  { rewrite Hend. unfold db4. by rewrite commit_transactions. }
  set (pooled_at := fun (tdb : transaction_database.t) (offset : file_offset) =>
    exists found,
      transaction_database.get_offset tdb offset = Some found /\
      transaction_database.height_ found = to_uint32 unverified /\
      transaction_database.position_ found = transaction_database.unconfirmed /\
      transaction_database.state_ found = state.pooled).
  unfold pop_transactions in Hpop.
  assert (N.of_nat (length txs) <= max_size_t) as Hcount'.
  { by rewrite <- Htxs, length_fmap in Hcount. }
  destruct (for_positions_reaches
              (fun position db0 =>
                 forall i tx, N.of_nat i < position -> txs !! i = Some tx ->
                   pooled_at (transactions_ db0) (validation_offset tx))
              (N.of_nat (length txs)) 1 (pop_transaction_at fuel txs))
    with (turns := S (length txs)) (position := 0) (s := db1) (s' := db2)
    as (position' & Hdone & Hall); [| | exact Hpop |].
  - intros position db0 db0' Hlt Hbefore Hbody.
    apply pop_transaction_at_transactions in Hbody
      as (tx & pooled & Htx & Hpool & Hok).
    rewrite (Hok eq_refl) in Hpool.
    destruct (transaction_update_facts.pool_record _ _ _ _ _ Hpool)
      as [Hother Hdemoted].
    destruct (Hdemoted eq_refl)
      as (found & Hget & _ & Hheight & Hposition & Hstate & _).
    rewrite (ceiling_add_one position (N.of_nat (length txs))) by done.
    intros i tx0 Hi Htx0.
    destruct (decide (validation_offset tx0 = validation_offset tx))
      as [-> | Hne].
    + by exists found.
    + destruct (decide (i = N.to_nat position)) as [-> | Hi'].
      { rewrite Htx in Htx0. by injection Htx0 as <-. }
      destruct (Hbefore i tx0) as (found0 & Hget0 & Hrest); [lia | done |].
      exists found0. by rewrite Hother.
  - intros i tx Hi. lia.
  - intros offset Hin. rewrite <- Htxs in Hin.
    apply list_elem_of_fmap in Hin as (tx & -> & Hin).
    apply list_elem_of_lookup in Hin as [i Hi].
    apply (Hall i tx); [| done].
    apply lookup_lt_Some in Hi. lia.
Qed.

(** *** What the writers leave alone *)

(** The parts of the store a turn of either loop body never writes: the
    setting, the flush lock and the file system; and the address indexes
    when the setting is off. *)
Lemma push_transaction_at_settings fuel height st position s ok s' :
  push_transaction_at fuel height st position s = Some (ok, s') ->
  index_addresses (snd s') = index_addresses (snd s) /\
  flush_lock (snd s') = flush_lock (snd s) /\
  file_system_ok (snd s') = file_system_ok (snd s) /\
  blocks_ (snd s') = blocks_ (snd s) /\
  (index_addresses (snd s) = false -> indexes_ (snd s') = indexes_ (snd s)).
Proof.
  destruct s as [txs db]. unfold push_transaction_at.
  destruct (txs !! N.to_nat position) as [tx |];
    [cbn [mbind option_bind] | done].
  destruct (transaction_database.store fuel tx height position st
              (transactions_ db)) as [[[stored tx'] tdb] |];
    [cbn [mbind option_bind] | done].
  destruct stored; cbn [negb]; intros [= <- <-]; cbn [snd]; [| done].
  change (index_addresses (set_transactions tdb db))
    with (index_addresses db).
  destruct (index_addresses db) eqn:Hsetting; [| done].
  unfold push_stealth, push_outputs, push_inputs.
  by destruct (is_coinbase tx').
Qed.

Lemma pop_inputs_settings tx db :
  index_addresses (snd (pop_inputs tx db)) = index_addresses db /\
  flush_lock (snd (pop_inputs tx db)) = flush_lock db /\
  file_system_ok (snd (pop_inputs tx db)) = file_system_ok db /\
  blocks_ (snd (pop_inputs tx db)) = blocks_ db /\
  (index_addresses db = false -> indexes_ (snd (pop_inputs tx db))
                                 = indexes_ db).
Proof.
  unfold pop_inputs.
  destruct (index_addresses db) eqn:Hsetting; cbn [negb orb]; [| done].
  destruct (is_coinbase tx); [done |].
  destruct (all_unlinked spends_unlink _ _) as [ok indexes1].
  destruct ok; cbn [negb]; [| done].
  by destruct (all_unlinked history_unlink_last_row _ _).
Qed.

Lemma pop_outputs_settings tx db :
  index_addresses (snd (pop_outputs tx db)) = index_addresses db /\
  flush_lock (snd (pop_outputs tx db)) = flush_lock db /\
  file_system_ok (snd (pop_outputs tx db)) = file_system_ok db /\
  blocks_ (snd (pop_outputs tx db)) = blocks_ db /\
  (index_addresses db = false -> indexes_ (snd (pop_outputs tx db))
                                 = indexes_ db).
Proof.
  unfold pop_outputs.
  destruct (index_addresses db) eqn:Hsetting; cbn [negb]; [| done].
  by destruct (all_unlinked history_unlink_last_row _ _).
Qed.

Lemma pop_transaction_at_settings fuel txs position db ok db' :
  pop_transaction_at fuel txs position db = Some (ok, db') ->
  index_addresses db' = index_addresses db /\
  flush_lock db' = flush_lock db /\
  file_system_ok db' = file_system_ok db /\
  blocks_ db' = blocks_ db /\
  (index_addresses db = false -> indexes_ db' = indexes_ db).
Proof.
  unfold pop_transaction_at.
  destruct (txs !! N.to_nat position) as [tx |];
    [cbn [mbind option_bind] | done].
  destruct (transaction_database.pool fuel tx (transactions_ db))
    as [[pooled tdb] |]; [cbn [mbind option_bind] | done].
  destruct pooled; cbn [negb]; [| by intros [= <- <-]].
  change (index_addresses (set_transactions tdb db))
    with (index_addresses db).
  destruct (index_addresses db) eqn:Hsetting; [| by intros [= <- <-]].
  pose proof (pop_inputs_settings tx (set_transactions tdb db))
    as (Hi1 & Hi2 & Hi3 & Hi4 & _).
  destruct (pop_inputs tx (set_transactions tdb db)) as [ok1 db2].
  cbn [snd index_addresses flush_lock file_system_ok blocks_ set_transactions]
    in *.
  destruct ok1; cbn [negb]; [| intros [= <- <-]; by rewrite Hi1].
  pose proof (pop_outputs_settings tx db2) as (Ho1 & Ho2 & Ho3 & Ho4 & _).
  destruct (pop_outputs tx db2) as [ok2 db3]. cbn [snd] in *.
  assert (index_addresses db3 = true /\ flush_lock db3 = flush_lock db
          /\ file_system_ok db3 = file_system_ok db
          /\ blocks_ db3 = blocks_ db) as (? & ? & ? & ?).
  { split_and!; congruence. }
  destruct ok2; cbn [negb]; intros [= <- <-]; by split_and!.
Qed.

Lemma commit_settings db :
  index_addresses (commit db) = index_addresses db /\
  flush_lock (commit db) = flush_lock db /\
  file_system_ok (commit db) = file_system_ok db /\
  (index_addresses db = false -> indexes_ (commit db) = indexes_ db).
Proof.
  unfold commit. destruct (index_addresses db) eqn:Hsetting;
    cbn [index_addresses flush_lock file_system_ok indexes_ set_blocks
         set_transactions set_indexes]; by rewrite ?Hsetting.
Qed.

(** With the address indexes switched off no writer touches the spend, the
    history or the stealth database: whatever [push] of a transaction, of a
    header or of a block and [pop] return, the index databases are as they
    were. *)
Theorem indexes_untouched fuel db :
  index_addresses db = false ->
  (forall tx forks ec tx' db',
     push_transaction fuel tx forks db = Some (ec, tx', db') ->
     indexes_ db' = indexes_ db) /\
  (forall head height,
     indexes_ (snd (push_header head height db)) = indexes_ db) /\
  (forall b height ec b' db',
     push_block fuel b height db = Some (ec, b', db') ->
     indexes_ db' = indexes_ db) /\
  (forall height block_index ec rebuilt committed db',
     pop fuel height block_index db = Some (ec, rebuilt, committed, db') ->
     indexes_ db' = indexes_ db).
Proof.
  intros Hoff.
  assert (forall db0, indexes_ (snd (begin_write db0)) = indexes_ db0
                      /\ index_addresses (snd (begin_write db0))
                         = index_addresses db0) as Hbegin.
  { intros db0. unfold begin_write. by destruct (file_system_ok db0). }
  assert (forall db0, indexes_ (snd (end_write db0)) = indexes_ db0) as Hend.
  { intros db0. unfold end_write. by destruct (file_system_ok db0). }
  split_and!.
  - intros tx forks ec tx' db'. unfold push_transaction.
    destruct (verify_push_transaction fuel db tx) as [ec0 |];
      [cbn [mbind option_bind] | done].
    destruct (is_error ec0); [by intros [= _ _ <-] |].
    destruct (Hbegin db) as [Hb _].
    destruct (begin_write db) as [began db1]. cbn [snd] in Hb.
    destruct began; cbn [negb]; [| by intros [= _ _ <-]].
    destruct (transaction_database.store _ _ _ _ _ _) as [[[ok tx1] tdb] |];
      [cbn [mbind option_bind] | done].
    set (db2 := set_transactions _ db1).
    pose proof (Hend db2) as He.
    destruct (end_write db2) as [ended db3]. cbn [snd] in He.
    intros [= _ _ <-]. by rewrite He.
  - intros head height. unfold push_header.
    destruct (is_error (verify_push_header db head height)); [done |].
    destruct (Hbegin db) as [Hb _].
    destruct (begin_write db) as [began db1]. cbn [snd] in Hb.
    destruct began; cbn [negb snd]; [| done].
    set (db2 := set_blocks _ db1).
    pose proof (Hend db2) as He.
    destruct (end_write db2) as [ended db3]. cbn [snd] in *.
    by rewrite He.
  - intros b height ec b' db'. unfold push_block.
    destruct (is_error (verify_push_block db b height));
      [by intros [= _ _ <-] |].
    destruct (Hbegin db) as [Hb Hsetting].
    destruct (begin_write db) as [began db1]. cbn [snd] in Hb, Hsetting.
    destruct began; cbn [negb]; [| by intros [= _ _ <-]].
    destruct (push_transactions fuel (transactions b) height 0 1
                state.confirmed db1) as [[ok [txs db2]] |] eqn:Hpush;
      [cbn [mbind option_bind] | done].
    assert (index_addresses db2 = false /\ indexes_ db2 = indexes_ db)
      as [Hoff2 Hsame2].
    { unfold push_transactions in Hpush.
      apply (for_positions_keeps
               (fun s : writer_state =>
                  index_addresses (snd s) = false
                  /\ indexes_ (snd s) = indexes_ db)) in Hpush;
        [done | | by cbn [snd]; rewrite Hsetting, Hb].
      intros position s ok0 s' [Hoff0 Hsame0] Hbody.
      apply push_transaction_at_settings in Hbody
        as (Hsetting' & _ & _ & _ & Hindexes).
      split; [congruence |]. rewrite Hindexes; done. }
    destruct ok; cbn [negb]; [| by intros [= _ _ <-]].
    set (db3 := commit _).
    pose proof (Hend db3) as He.
    destruct (end_write db3) as [ended db4]. cbn [snd] in He.
    intros [= _ _ <-]. rewrite He. unfold db3.
    destruct (commit_settings
                (set_blocks (blocks_store_block (mk_block (block_header b) txs)
                               height (blocks_ db2)) db2))
      as (_ & _ & _ & Hcommit).
    by rewrite Hcommit.
  - intros height block_index ec rebuilt committed db'. unfold pop.
    destruct (is_error (verify_top db height block_index));
      [by intros [= _ _ _ <-] |].
    destruct (result_valid _); cbn [negb]; [| by intros [= _ _ _ <-]].
    destruct (to_transactions db _) as [txs |];
      [cbn [mbind option_bind] | done].
    destruct (Hbegin db) as [Hb Hsetting].
    destruct (begin_write db) as [began db1]. cbn [snd] in Hb, Hsetting.
    destruct began; cbn [negb]; [| by intros [= _ _ _ <-]].
    destruct (pop_transactions fuel txs 0 1 db1) as [[ok db2] |] eqn:Hpop;
      [cbn [mbind option_bind] | done].
    assert (index_addresses db2 = false /\ indexes_ db2 = indexes_ db)
      as [Hoff2 Hsame2].
    { unfold pop_transactions in Hpop.
      apply (for_positions_keeps
               (fun db0 : t =>
                  index_addresses db0 = false
                  /\ indexes_ db0 = indexes_ db)) in Hpop;
        [done | | by rewrite Hsetting, Hb].
      intros position s ok0 s' [Hoff0 Hsame0] Hbody.
      apply pop_transaction_at_settings in Hbody
        as (Hsetting' & _ & _ & _ & Hindexes).
      split; [congruence |]. rewrite Hindexes; done. }
    destruct ok; cbn [negb]; [| by intros [= _ _ _ <-]].
    destruct (blocks_unconfirm height block_index (blocks_ db2))
      as [unconfirmed blocks'].
    destruct unconfirmed; cbn [negb]; [| by intros [= _ _ _ <-]].
    set (db4 := commit _).
    pose proof (Hend db4) as He.
    destruct (end_write db4) as [ended db5]. cbn [snd] in He.
    intros [= _ _ _ <-]. rewrite He. unfold db4.
    destruct (commit_settings (set_blocks blocks' db2))
      as (_ & _ & _ & Hcommit).
    by rewrite Hcommit.
Qed.

(** A failure after [begin_write] is returned without calling [end_write]:
    on a file system that lets the lock file be written, [push] of a block
    and [pop] release the flush lock exactly when they return success; a
    verification failure leaves the store untouched, and every other
    failure leaves the flush lock set. *)
Theorem failed_write_keeps_flush_lock fuel db :
  file_system_ok db = true ->
  (forall b height ec b' db',
     push_block fuel b height db = Some (ec, b', db') ->
     (ec = success -> flush_lock db' = false) /\
     (ec = operation_failed -> flush_lock db' = true) /\
     (ec <> success -> ec <> operation_failed -> db' = db)) /\
  (forall height block_index ec rebuilt committed db',
     pop fuel height block_index db = Some (ec, rebuilt, committed, db') ->
     (ec = success -> flush_lock db' = false) /\
     (ec <> success ->
      ec = operation_failed /\ (db' = db \/ flush_lock db' = true))).
Proof.
  intros Hfs.
  assert (begin_write db = (true, set_flush_lock true db)) as Hbegin.
  { unfold begin_write. by rewrite Hfs. }
  assert (forall db0, file_system_ok db0 = true ->
            end_write db0 = (true, set_flush_lock false db0)) as Hend.
  { intros db0 Hfs0. unfold end_write. by rewrite Hfs0. }
  split.
  - intros b height ec b' db'. unfold push_block.
    destruct (verify_push_block db b height) eqn:Hverify;
      try (intros [= <- _ <-]; by split_and!).
    2:{ exfalso. unfold verify_push_block in Hverify.
        by repeat case_match. }
    change (is_error success) with false. cbn iota.
    rewrite Hbegin. cbn [negb].
    destruct (push_transactions fuel (transactions b) height 0 1
                state.confirmed (set_flush_lock true db))
      as [[ok [txs db2]] |] eqn:Hpush; [cbn [mbind option_bind] | done].
    assert (flush_lock db2 = true /\ file_system_ok db2 = true)
      as [Hlock Hfs2].
    { unfold push_transactions in Hpush.
      apply (for_positions_keeps
               (fun s : writer_state =>
                  flush_lock (snd s) = true
                  /\ file_system_ok (snd s) = true)) in Hpush;
        [done | | done].
      intros position s ok0 s' [Hlock0 Hfs0] Hbody.
      apply push_transaction_at_settings in Hbody as (_ & ? & ? & _).
      split; congruence. }
    destruct ok; cbn [negb]; [| intros [= <- _ <-]; by split_and!].
    rewrite Hend.
    + intros [= <- _ <-]. by split_and!.
    + destruct (commit_settings
                  (set_blocks
                     (blocks_store_block (mk_block (block_header b) txs) height
                        (blocks_ db2)) db2)) as (_ & _ & -> & _).
      done.
  - intros height block_index ec rebuilt committed db'. unfold pop.
    destruct (verify_top db height block_index) eqn:Hverify;
      try (intros [= <- _ _ <-]; split; [done |]; intros _;
           pose proof Hverify as Hcode; unfold verify_top in Hcode;
           repeat case_match; try done; (split; [done | by left])).
    change (is_error success) with false. cbn iota.
    destruct (result_valid _); cbn [negb];
      [| intros [= <- _ _ <-]; split; [done | intros _; split; [done | by left]]].
    destruct (to_transactions db _) as [txs |];
      [cbn [mbind option_bind] | done].
    rewrite Hbegin. cbn [negb].
    destruct (pop_transactions fuel txs 0 1 (set_flush_lock true db))
      as [[ok db2] |] eqn:Hpop; [cbn [mbind option_bind] | done].
    assert (flush_lock db2 = true /\ file_system_ok db2 = true)
      as [Hlock Hfs2].
    { unfold pop_transactions in Hpop.
      apply (for_positions_keeps
               (fun db0 : t =>
                  flush_lock db0 = true /\ file_system_ok db0 = true))
        in Hpop; [done | | done].
      intros position s ok0 s' [Hlock0 Hfs0] Hbody.
      apply pop_transaction_at_settings in Hbody as (_ & ? & ? & _).
      split; congruence. }
    destruct ok; cbn [negb];
      [| intros [= <- _ _ <-]; split; [done | intros _; split; [done | by right]]].
    destruct (blocks_unconfirm height block_index (blocks_ db2))
      as [unconfirmed blocks'].
    destruct unconfirmed; cbn [negb];
      [| intros [= <- _ _ <-]; split; [done | intros _; split; [done | by right]]].
    rewrite Hend.
    + intros [= <- _ _ <-]. by split.
    + destruct (commit_settings (set_blocks blocks' db2)) as (_ & _ & -> & _).
      done.
Qed.

End with_parts.

(** *** The concrete checks *)

Import sample.
#[local] Existing Instance chain_v3.
#[local] Existing Instance parts.

(** The table of the genesis store is the one [store] builds from the
    empty table. *)
Lemma genesis_table_wf :
  slab_hash_table.wf
    (transaction_database.lookup_map_ (transactions_ genesis_store)).
Proof.
  replace (transaction_database.lookup_map_ (transactions_ genesis_store))
    with (slab_hash_table.stored
            (slab_hash_table.created 4 (N.of_nat hash_size)) coinbase_hash
            (slab_of 0 0 state.confirmed coinbase_tx) 65 0)
    by (vm_compute; reflexivity).
  apply slab_facts.stored_wf.
  - apply slab_facts.created_wf. lia.
  - vm_compute. reflexivity.
Qed.




(** A transaction pooled at offset 153 is refused the second time, with
    other forks as well. *)
Lemma push_twice_rejected_witness :
  exists tx' db',
    push_transaction 1 (plain_tx x21) 1 genesis_store
    = Some (success, tx', db') /\
    validation_offset tx' = 153 /\
    push_transaction 1 (plain_tx x21) 5 db'
    = Some (unspent_duplicate, plain_tx x21, db').
Proof.
  destruct (push_transaction 1 (plain_tx x21) 1 genesis_store)
    as [[[ec tx'] db'] |] eqn:Hpush; [| vm_compute in Hpush; discriminate].
  assert (ec = success /\ validation_offset tx' = 153) as [-> Hoffset].
  { pose proof Hpush as Hrun. vm_compute in Hrun.
    injection Hrun as <- <- _. split; reflexivity. }
  exists tx', db'. split; [reflexivity |]. split; [exact Hoffset |].
  destruct (push_twice_rejected 1 0 (plain_tx x21) 1 5 genesis_store tx' db')
    as [Hagain _].
  { exact genesis_table_wf. }
  { exact Hpush. }
  exact Hagain.
Defined.

(** The genesis block popped from the block index: its coinbase, at offset
    48, is pooled. *)
Lemma pop_pools_transactions_witness :
  exists rebuilt db',
    pop 1 0 true genesis_store = Some (success, rebuilt, true, db') /\
    exists result,
      transaction_database.get_offset (transactions_ db') 48 = Some result /\
      transaction_database.height_ result = to_uint32 unverified /\
      transaction_database.position_ result
      = transaction_database.unconfirmed /\
      transaction_database.state_ result = state.pooled.
Proof.
  destruct (pop 1 0 true genesis_store) as [[[[ec rebuilt] committed] db'] |]
    eqn:Hpop; [| vm_compute in Hpop; discriminate].
  assert (ec = success) as ->.
  { pose proof Hpop as Hrun. vm_compute in Hrun.
    by injection Hrun as <- _ _ _. }
  destruct (pop_pools_transactions 1 0 true genesis_store rebuilt committed
              db')
    as (-> & _ & _ & _ & _ & Hpooled).
  { vm_compute. discriminate. }
  { exact Hpop. }
  exists rebuilt, db'. split; [reflexivity |].
  apply Hpooled. vm_compute. apply list_elem_of_here.
Defined.

(** The genesis store has the address indexes switched off. *)
Lemma indexes_untouched_witness :
  indexes_ (snd (push_header next_header 1 genesis_store))
  = indexes_ genesis_store /\
  (forall ec b' db',
     push_block 1 next_block 1 genesis_store = Some (ec, b', db') ->
     indexes_ db' = indexes_ genesis_store) /\
  (forall ec rebuilt committed db',
     pop 1 0 true genesis_store = Some (ec, rebuilt, committed, db') ->
     indexes_ db' = indexes_ genesis_store).
Proof.
  destruct (indexes_untouched 1 genesis_store)
    as (_ & Hheader & Hblock & Hpop); [reflexivity |].
  split; [apply Hheader |].
  split; [apply Hblock | apply Hpop].
Defined.

(** With the address indexes switched on and no history row to unlink,
    [pop] of the genesis block fails after [begin_write]: the flush lock
    stays set.  A block pushed at the wrong height leaves the genesis store
    as it was. *)
Lemma failed_write_keeps_flush_lock_witness :
  (exists rebuilt db',
     pop 1 0 true
       (mk (blocks_ genesis_store) (transactions_ genesis_store)
          (indexes_ genesis_store) true false true)
     = Some (operation_failed, rebuilt, false, db') /\
     flush_lock db' = true) /\
  push_block 1 next_block 0 genesis_store
  = Some (store_block_invalid_height, next_block, genesis_store).
Proof.
  split.
  - set (db := mk (blocks_ genesis_store) (transactions_ genesis_store)
                 (indexes_ genesis_store) true false true).
    destruct (pop 1 0 true db) as [[[[ec rebuilt] committed] db'] |]
      eqn:Hpop; [| vm_compute in Hpop; discriminate].
    assert (ec = operation_failed /\ committed = false) as [-> ->].
    { pose proof Hpop as Hrun. vm_compute in Hrun.
      by injection Hrun as <- _ <- _. }
    exists rebuilt, db'. split; [reflexivity |].
    destruct (failed_write_keeps_flush_lock 1 db) as [_ Hlock];
      [reflexivity |].
    destruct (Hlock 0 true operation_failed rebuilt false db' Hpop)
      as [_ Hfailed].
    destruct Hfailed as [_ [-> | Hset]]; [done | | exact Hset].
    vm_compute in Hpop. discriminate.
  - destruct (push_block 1 next_block 0 genesis_store)
      as [[[ec b'] db'] |] eqn:Hpush; [| vm_compute in Hpush; discriminate].
    assert (ec = store_block_invalid_height /\ b' = next_block) as [-> ->].
    { pose proof Hpush as Hrun. vm_compute in Hrun.
      by injection Hrun as <- <- _. }
    destruct (failed_write_keeps_flush_lock 1 genesis_store) as [Hlock _];
      [reflexivity |].
    destruct (Hlock next_block 0 store_block_invalid_height next_block db'
                Hpush) as (_ & _ & Hsame).
    by rewrite Hsame.
Defined.

End data_base_write_facts.

(** ** Theorems: the history database *)

Module history_facts.
Import history_database.

Section with_rows.
Context {payment_record : Type}.
Variable from_data : list byte -> N -> option payment_record.

(** The loop, for any list built so far. *)
Lemma get_from_payments limit from_height records result :
  get_from from_data limit from_height records result
  = if limit =? 0
    then result ++ omap (fun record => from_data record from_height) records
    else if limit <=? N.of_nat (length result) then result
         else take (N.to_nat limit)
                (result
                 ++ omap (fun record => from_data record from_height) records).
Proof.
  revert result. induction records as [| record rest IH]; intros result.
  - cbn [get_from omap list_omap]. rewrite app_nil_r.
    destruct (N.eqb_spec limit 0) as [| Hlimit]; [done |].
    destruct (N.leb_spec limit (N.of_nat (length result))); [done |].
    rewrite take_ge; [done | lia].
  - cbn [get_from]. rewrite IH. clear IH.
    cbn [omap list_omap].
    destruct (N.eqb_spec limit 0) as [-> | Hlimit].
    + cbn [N.ltb N.compare andb].
      destruct (from_data record from_height); [| done].
      by rewrite <- app_assoc.
    + replace (0 <? limit) with true by (symmetry; apply N.ltb_lt; lia).
      cbn [andb].
      destruct (from_data record from_height) as [payment |];
        (destruct (N.leb_spec limit (N.of_nat (length result))) as [| Hroom];
         [done |]); [| done].
      rewrite length_app. cbn [length].
      rewrite <- app_assoc. cbn [app].
      destruct (N.leb_spec limit (N.of_nat (length result + 1)))
        as [Hfull |]; [| done].
      assert (N.to_nat limit = length (result ++ [payment])) as ->.
      { rewrite length_app. cbn [length]. lia. }
      rewrite (cons_middle payment result (omap _ rest)).
      rewrite (app_assoc result [payment]).
      by rewrite take_app_length.
Qed.

(** [get(key, limit, from_height)] returns the payments that
    [from_data] reads from the rows of the key, in the order of the rows;
    a row that fails to read is skipped and does not count against the
    limit; a limit of 0 returns them all, any other limit the first
    [limit] of them. *)
Theorem get_limits_payments limit from_height records :
  get from_data limit from_height records
  = let payments :=
      omap (fun record => from_data record from_height) records in
    if limit =? 0 then payments else take (N.to_nat limit) payments.
Proof.
  unfold get. rewrite get_from_payments. cbn [app length].
  destruct (N.eqb_spec limit 0) as [| Hlimit]; [done |].
  destruct (N.leb_spec limit (N.of_nat 0)); [lia | done].
Qed.

End with_rows.

End history_facts.
